(** * service-pkg: lifecycle and leadership coordination core

    A shallow embedding of the coordination core of the package: the
    Redis lock ([locker]), the leader-election watchdog ([watchdog]),
    the periodic job scheduler ([scheduler]), the readiness barrier
    ([readiness_barrier]), the goroutine helper ([utils]) and the
    application shell with its prioritised shutdown hooks
    ([application]).

    Conventions.  Go [int], [int64] and [time.Duration] values are only
    compared here, never added up to overflow, so they are plain [Z].
    A goroutine is a transition function over an explicit state; what
    the Go runtime or the outside world decides (which ready case a
    [select] takes, whether a lock call succeeds, when a context is
    cancelled) is a label on the transition. *)

From Stdlib Require Import ZArith Bool List String Ascii Lia.
From Stdlib Require Import Sorting.Sorted Sorting.Permutation.
From stdpp Require Import base gmap strings list pretty.

Open Scope string_scope.
Open Scope list_scope.
Open Scope Z_scope.

(* ===================================================================== *)
(** * Errors and log entries                                              *)
(* ===================================================================== *)

(** Go [error] values as the package builds and inspects them. *)
Inductive error : Type :=
| Canceled                                  (* context.Canceled *)
| DeadlineExceeded                          (* context.DeadlineExceeded *)
| errorString (msg : string)                (* fmt.Errorf without %w *)
| wrapError (msg : string) (inner : error). (* fmt.Errorf with %w *)

(** [err.Error()] *)
Definition Error (e : error) : string :=
  match e with
  | Canceled => "context canceled"
  | DeadlineExceeded => "context deadline exceeded"
  | errorString msg => msg
  | wrapError msg _ => msg
  end.

Definition error_eqb (a b : error) : bool :=
  match a, b with
  | Canceled, Canceled => true
  | DeadlineExceeded, DeadlineExceeded => true
  | errorString x, errorString y => String.eqb x y
  | _, _ => false
  end.

(** [errors.Is(err, target)] for the sentinel targets used in the package. *)
Fixpoint errors_Is (err target : error) : bool :=
  error_eqb err target ||
  match err with
  | wrapError _ inner => errors_Is inner target
  | _ => false
  end.

(** A value of type [any] reaching [recover()] is only ever formatted
    with the verb [%v]; it is represented by that rendering. *)
Record any : Type := mkAny { fmt_v : string }.

Inductive level : Type := InfoLevel | WarnLevel | ErrorLevel.

(** logger_wrapper.LogEntry, with the level of the Write*Log call. *)
Record LogEntry : Type := mkLog {
  Lvl : level;
  Msg : string;
  Component : string;
  Method : string;
  Args : string;
  LogError : option error
}.

(** [strings.Contains(s, sub)] *)
Fixpoint prefixb (p s : string) : bool :=
  match p, s with
  | EmptyString, _ => true
  | String a p', String b s' => Ascii.eqb a b && prefixb p' s'
  | String _ _, EmptyString => false
  end.

Fixpoint Contains (s sub : string) : bool :=
  prefixb sub s ||
  match s with
  | EmptyString => false
  | String _ s' => Contains s' sub
  end.

(* ===================================================================== *)
(** * package context (the part of it the core relies on)                 *)
(* ===================================================================== *)

Module context.

(** A context is the chain of its derivations down to Background.
    Every derived context has an identity [id]; a timeout context
    remembers the duration it was given. *)
Inductive Context : Type :=
| Background
| WithCancelCtx (id : nat) (parent : Context)
| WithTimeoutCtx (id : nat) (d : Z) (parent : Context).

(** The runtime's view: which contexts have finished by themselves
    (their cancel function was called or their timer fired) and with
    which error, and the next free identity. *)
Record World : Type := mkWorld {
  finished : gmap nat error;
  next : nat
}.

Definition empty_world : World := mkWorld ∅ 0%nat.

(** [ctx.Err()]: the error of the nearest finished context on the
    chain.  A context is only ever marked finished while its chain is
    still live (see [finish]), so the nearest mark is the earliest. *)
Fixpoint Err (w : World) (c : Context) : option error :=
  match c with
  | Background => None
  | WithCancelCtx id p | WithTimeoutCtx id _ p =>
      match finished w !! id with
      | Some e => Some e
      | None => Err w p
      end
  end.

(** [<-ctx.Done()] can proceed. *)
Definition Done (w : World) (c : Context) : bool :=
  match Err w c with Some _ => true | None => false end.

Definition ctx_id (c : Context) : option nat :=
  match c with
  | Background => None
  | WithCancelCtx id _ | WithTimeoutCtx id _ _ => Some id
  end.

(** Marking a context finished; a no-op on a finished chain, as
    [cancelCtx.cancel] is. *)
Definition finish (e : error) (c : Context) (w : World) : World :=
  match ctx_id c with
  | None => w
  | Some id =>
      if Done w c then w
      else mkWorld (<[id := e]> (finished w)) (next w)
  end.

(** The CancelFunc returned with [c]. *)
Definition cancel (c : Context) (w : World) : World := finish Canceled c w.

(** The timer of a timeout context firing. *)
Definition expire (c : Context) (w : World) : World :=
  match c with
  | WithTimeoutCtx _ _ _ => finish DeadlineExceeded c w
  | _ => w
  end.

(** [context.WithCancel(parent)] *)
Definition WithCancel (parent : Context) (w : World) : Context * World :=
  (WithCancelCtx (next w) parent, mkWorld (finished w) (S (next w))).

(** [context.WithTimeout(parent, d)]: a duration that is not positive
    yields a context that has already exceeded its deadline. *)
Definition WithTimeout (parent : Context) (d : Z) (w : World) : Context * World :=
  let c := WithTimeoutCtx (next w) d parent in
  let w' := mkWorld (finished w) (S (next w)) in
  (c, if d <=? 0 then finish DeadlineExceeded c w' else w').

(** Identities occurring in a context. *)
Fixpoint ids (c : Context) : list nat :=
  match c with
  | Background => []
  | WithCancelCtx id p | WithTimeoutCtx id _ p => id :: ids p
  end.

(** A context made in [w]: all its identities have been handed out. *)
Definition known (w : World) (c : Context) : Prop :=
  Forall (λ i, (i < next w)%nat) (ids c).

(** Later worlds: nothing that finished comes back to life. *)
Definition later (w w' : World) : Prop :=
  ∀ i e, finished w !! i = Some e → finished w' !! i = Some e.

(** [w'] differs from [w] only in contexts made after [w]. *)
Definition extends (w w' : World) : Prop :=
  (next w ≤ next w')%nat ∧
  ∀ i, (i < next w)%nat → finished w' !! i = finished w !! i.

End context.
Import context.

(* ===================================================================== *)
(** * package utils                                                       *)
(* ===================================================================== *)

Module utils.

(** What the goroutine started by [GoRecover] did. *)
Inductive launched (A : Type) : Type :=
| Skipped (entry : LogEntry)      (* returned before calling fn *)
| Ran (result : A).               (* called fn(ctx) *)
Arguments Skipped {A} entry.
Arguments Ran {A} result.

(** The body of the goroutine of [GoRecover(ctx, fn)], run in the
    world [w] in which the goroutine reaches its [select].  The select
    has a [default] case, so it takes [<-ctx.Done()] exactly when that
    case is ready.  (The deferred [recover] only matters when [fn]
    panics and is left out.) *)
Definition GoRecover {A : Type} (w : World) (ctx : Context)
    (fn : Context → A) : launched A :=
  if Done w ctx then
    Skipped (mkLog InfoLevel "goroutine cancelled before start"
                   "utils" "GoRecover" "" None)
  else Ran (fn ctx).

Definition invoked {A : Type} (r : launched A) : bool :=
  match r with Skipped _ => false | Ran _ => true end.

End utils.

(* ===================================================================== *)
(** * package application                                                 *)
(* ===================================================================== *)

Module application.

Definition LowestPriority : Z := 10000.
Definition LowPriority : Z := 1000.
Definition MediumPriority : Z := 500.
Definition HighPriority : Z := 100.
Definition HighestPriority : Z := 50.
Definition CriticalPriority : Z := 20.
Definition ImmediatePriority : Z := 1.

Section App.
(** What the registered closures ([func()]) act on.  A closure is a
    function on it: it returns, and it does not call back into the
    [App] whose lock is held while it runs. *)
Context {W : Type}.

(** A node of the hook list; the [next] pointer is the tail of the
    Rocq list, [linkedList.node == nil] is the empty list. *)
Record shutdown : Type := mkShutdown {
  priority : Z;
  name : string;
  shutdownFunc : W → W
}.

Record LeaderSupervisor : Type := mkSupervisor {
  sup_ctx : Context;
  Start : W → W;
  Stop : W → W;
  SupervisorName : string;
  Working : bool
}.

Record App : Type := mkApp {
  ctx : Context;
  shutdown_list : list shutdown;
  leaderSupervisors : list LeaderSupervisor
}.

(** Everything a call can touch besides the [App] itself. *)
Record Runtime : Type := mkRuntime {
  user : W;
  world : World;
  logs : list LogEntry
}.

Definition NewApp (ctx : Context) : App := mkApp ctx [] [].

(** The loop of RegisterShutdown, started at [current.next]:
    [for current.next != nil && current.next.priority <= priority]. *)
Fixpoint insert_after_current (new : shutdown) (rest : list shutdown)
    : list shutdown :=
  match rest with
  | [] => [new]
  | nxt :: rest' =>
      if priority nxt <=? priority new
      then nxt :: insert_after_current new rest'
      else new :: nxt :: rest'
  end.

(** The list manipulation of [App.RegisterShutdown]. *)
Definition insert_shutdown (new : shutdown) (l : list shutdown)
    : list shutdown :=
  match l with
  | [] => [new]
  | node :: rest =>
      if priority node >? priority new
      then new :: node :: rest
      else node :: insert_after_current new rest
  end.

Definition registered_entry (name : string) (priority : Z) : LogEntry :=
  mkLog InfoLevel
        ("Registered shutdown func " +:+ name +:+ " with priority "
           +:+ pretty priority)
        "application" "RegisterShutdown" "" None.

(** [app.RegisterShutdown(name, fn, priority)] *)
Definition RegisterShutdown (name : string) (fn : W → W) (priority : Z)
    (app : App) (rt : Runtime) : App * Runtime :=
  let new := mkShutdown priority name fn in
  (mkApp (ctx app) (insert_shutdown new (shutdown_list app))
         (leaderSupervisors app),
   mkRuntime (user rt) (world rt)
             (logs rt ++ [registered_entry name priority])).

Definition executed_entry (h : shutdown) : LogEntry :=
  mkLog InfoLevel
        ("Shutdown func " +:+ name h +:+ " executed with priority "
           +:+ pretty (priority h))
        "application" "shutdownAllAndDeleteAllCanceled" "" None.

(** The loop of shutdownAllAndDeleteAllCanceled over the chain that
    starts at [app.shutdown.node]: call the head, log it, advance. *)
Fixpoint drain (l : list shutdown) (rt : Runtime)
    : list shutdown * Runtime :=
  match l with
  | [] => ([], rt)
  | node :: rest =>
      drain rest (mkRuntime (shutdownFunc node (user rt)) (world rt)
                            (logs rt ++ [executed_entry node]))
  end.

(** [app.shutdownAllAndDeleteAllCanceled()] *)
Definition shutdownAllAndDeleteAllCanceled (app : App) (rt : Runtime)
    : App * Runtime :=
  let '(l, rt') := drain (shutdown_list app) rt in
  (mkApp (ctx app) l (leaderSupervisors app), rt').

(** [app.RegisterWatchdogsLeadership(supervisor)] for a non-nil
    supervisor: its context is derived from the application's. *)
Definition RegisterWatchdogsLeadership (sup : LeaderSupervisor)
    (app : App) (rt : Runtime) : App * Runtime :=
  let '(c, w') := WithCancel (ctx app) (world rt) in
  (mkApp (ctx app) (shutdown_list app)
         (leaderSupervisors app ++
            [mkSupervisor c (Start sup) (Stop sup) (SupervisorName sup)
                          (Working sup)]),
   mkRuntime (user rt) w' (logs rt)).

Definition supervisor_stopped_entry (s : LeaderSupervisor) : LogEntry :=
  mkLog InfoLevel
        ("Supervisor " +:+ SupervisorName s +:+ " has been stopped")
        "application" "Stop" "" None.

(** One turn of the loop over the supervisors in [App.Stop]. *)
Definition stop_supervisor (s : LeaderSupervisor) (rt : Runtime)
    : LeaderSupervisor * Runtime :=
  let w' := cancel (sup_ctx s) (world rt) in
  let u' := if Working s then Stop s (user rt) else user rt in
  (mkSupervisor (sup_ctx s) (Start s) (Stop s) (SupervisorName s) false,
   mkRuntime u' w' (logs rt ++ [supervisor_stopped_entry s])).

Fixpoint stop_supervisors (l : list LeaderSupervisor) (rt : Runtime)
    : list LeaderSupervisor * Runtime :=
  match l with
  | [] => ([], rt)
  | s :: rest =>
      let '(s', rt') := stop_supervisor s rt in
      let '(rest', rt'') := stop_supervisors rest rt' in
      (s' :: rest', rt'')
  end.

Definition stopping_entry : LogEntry :=
  mkLog InfoLevel "Stopping application" "application" "Stop" "" None.

(** [app.Stop()] *)
Definition App_Stop (app : App) (rt : Runtime) : App * Runtime :=
  let '(sups, rt1) := stop_supervisors (leaderSupervisors app) rt in
  let rt2 := mkRuntime (user rt1) (world rt1) (logs rt1 ++ [stopping_entry]) in
  shutdownAllAndDeleteAllCanceled
    (mkApp (ctx app) (shutdown_list app) sups) rt2.

(** A registration request, and a run of RegisterShutdown calls. *)
Definition register_all (regs : list shutdown) (app : App) (rt : Runtime)
    : App * Runtime :=
  fold_left (λ st h, RegisterShutdown (name h) (shutdownFunc h)
                                      (priority h) (fst st) (snd st))
            regs (app, rt).

(** The hooks a shutdown pass runs, in the order it runs them: the
    names and priorities of its "executed" log lines. *)
Definition executed (before after : Runtime) : list LogEntry :=
  filter (λ e, Method e = "shutdownAllAndDeleteAllCanceled")
         (drop (length (logs before)) (logs after)).

(** The list after a run of registrations. *)
Definition reg_list (regs l0 : list shutdown) : list shutdown :=
  fold_left (λ l h, insert_shutdown h l) regs l0.

Definition same_priority (p : Z) (l : list shutdown) : list shutdown :=
  filter (λ h, priority h = p) l.

Definition ascending (l : list shutdown) : Prop :=
  Sorted (λ a b, priority a <= priority b) l.

End App.
Arguments shutdown W : clear implicits.
Arguments LeaderSupervisor W : clear implicits.
Arguments App W : clear implicits.
Arguments Runtime W : clear implicits.

(** The hooks of the ordering scenario: each one writes its name
    into an execution-order log. *)
Definition note (n : string) : list string → list string :=
  λ order, order ++ [n].

Definition scenario_hooks : list (shutdown (list string)) :=
  [ mkShutdown 50 "p50" (note "p50");
    mkShutdown 10 "p10-first" (note "p10-first");
    mkShutdown 200 "p200" (note "p200");
    mkShutdown 10 "p10-second" (note "p10-second") ].

Definition fresh_runtime : Runtime (list string) :=
  mkRuntime [] empty_world [].

End application.

(* ===================================================================== *)
(** * package locker                                                      *)
(* ===================================================================== *)

Module locker.

(** The lock record kept by the Redis server under a key: the value
    (the holder's token) and the remaining time to live in
    milliseconds.  An expired key is an absent key. *)
Record record : Type := mkRecord { holder : string; ttl : Z }.

Abbreviation store := (gmap string record).

(** The reply of EVAL as the client reads it with [.Int()]. *)
Inductive reply : Type :=
| Integer (n : Z)
| ErrorReply (msg : string).

(** The Redis commands the scripts call. *)
Definition GET (key : string) (db : store) : option string :=
  holder <$> db !! key.

Definition DEL (key : string) (db : store) : Z * store :=
  match db !! key with
  | Some _ => (1, delete key db)
  | None => (0, db)
  end.

(** PEXPIRE with a timeout that is not positive deletes the key. *)
Definition PEXPIRE (key : string) (ms : Z) (db : store) : Z * store :=
  match db !! key with
  | Some r =>
      (1, if ms <=? 0 then delete key db
          else <[key := mkRecord (holder r) ms]> db)
  | None => (0, db)
  end.

(** SET key value NX PX ms: [Some true] for OK, [Some false] for the
    nil reply, [None] when the command is refused (expire time that
    is not positive). *)
Definition SET_NX_PX (key value : string) (ms : Z) (db : store)
    : option bool * store :=
  if ms <=? 0 then (None, db)
  else match db !! key with
       | Some _ => (Some false, db)
       | None => (Some true, <[key := mkRecord value ms]> db)
       end.

Definition lockKeyPrefix : string :=
  "github.com/PavelAgarkov/service-pkg-block-prefix-".

(** A script gets KEYS[1], ARGV[1] and ARGV[2] and runs atomically. *)
Definition script : Type := string → string → Z → store → reply * store.

(** return redis.call("SET", KEYS[1], ARGV[1], "NX", "PX", ARGV[2]) and 1 or 0 *)
Definition lockScript : script := λ key argv1 argv2 db,
  match SET_NX_PX key argv1 argv2 db with
  | (Some true, db') => (Integer 1, db')
  | (Some false, db') => (Integer 0, db')
  | (None, db') => (ErrorReply "ERR invalid expire time in 'set' command", db')
  end.

(** if redis.call("GET", KEYS[1]) == ARGV[1]
    then return redis.call("DEL", KEYS[1]) else return 0 end *)
Definition unlockScript : script := λ key argv1 _ db,
  if decide (GET key db = Some argv1)
  then let '(n, db') := DEL key db in (Integer n, db')
  else (Integer 0, db).

(** if redis.call("GET", KEYS[1]) == ARGV[1]
    then return redis.call("PEXPIRE", KEYS[1], ARGV[2]) else return 0 end *)
Definition extendTTLScript : script := λ key argv1 argv2 db,
  if decide (GET key db = Some argv1)
  then let '(n, db') := PEXPIRE key argv2 db in (Integer n, db')
  else (Integer 0, db).

(** The client and the server behind it. *)
Record Client : Type := mkClient { db : store; reachable : bool }.

Record RedisLocker : Type := mkLocker { redisClient : Client }.

Definition NewLocker (c : Client) : RedisLocker := mkLocker c.

(** [redisClient.Eval(ctx, script, keys, args...).Int()]: the command
    is not sent under a finished context or to an unreachable server.
    A reply that is lost after the server has run the script is not
    part of this model. *)
Definition Eval (w : World) (ctx : Context) (s : script)
    (key argv1 : string) (argv2 : Z) (c : Client)
    : (Z + string) * Client :=
  match Err w ctx with
  | Some e => (inr (Error e), c)
  | None =>
      if reachable c then
        match s key argv1 argv2 (db c) with
        | (Integer n, db') => (inl n, mkClient db' (reachable c))
        | (ErrorReply msg, db') => (inr msg, mkClient db' (reachable c))
        end
      else (inr "dial tcp: connection refused", c)
  end.

(** [time.Duration.Milliseconds] of a duration in nanoseconds. *)
Definition Milliseconds (d : Z) : Z := Z.quot d 1000000.

(** The common tail of the three methods. *)
Definition result_of (r : (Z + string) * Client)
    : (bool * option error) * RedisLocker :=
  match r with
  | (inl n, c) => ((n =? 1, None), mkLocker c)
  | (inr msg, c) => ((false, Some (errorString ("eval: " +:+ msg))), mkLocker c)
  end.

Definition RedisLocker_Lock (w : World) (ctx : Context)
    (key value : string) (expiration : Z) (l : RedisLocker) :=
  result_of (Eval w ctx lockScript (lockKeyPrefix +:+ key) value
                  (Milliseconds expiration) (redisClient l)).

Definition RedisLocker_Unlock (w : World) (ctx : Context)
    (key value : string) (l : RedisLocker) :=
  result_of (Eval w ctx unlockScript (lockKeyPrefix +:+ key) value 0
                  (redisClient l)).

Definition RedisLocker_ExtendLockTTL (w : World) (ctx : Context)
    (key value : string) (expiration : Z) (l : RedisLocker) :=
  result_of (Eval w ctx extendTTLScript (lockKeyPrefix +:+ key) value
                  (Milliseconds expiration) (redisClient l)).

(** The interface [Locker]. *)
Class Locker (L : Type) : Type := {
  Lock : World → Context → string → string → Z → L → (bool * option error) * L;
  Unlock : World → Context → string → string → L → (bool * option error) * L;
  ExtendLockTTL : World → Context → string → string → Z → L → (bool * option error) * L
}.

#[global] Instance RedisLocker_is_Locker : Locker RedisLocker := {
  Lock := RedisLocker_Lock;
  Unlock := RedisLocker_Unlock;
  ExtendLockTTL := RedisLocker_ExtendLockTTL
}.

(** The record stored for an election key, and the outcome of a call. *)
Definition stored (key : string) (l : RedisLocker) : option record :=
  db (redisClient l) !! (lockKeyPrefix +:+ key).

Definition ok {L : Type} (r : (bool * option error) * L) : bool := fst (fst r).
Definition after {L : Type} (r : (bool * option error) * L) : L := snd r.

End locker.


(* ===================================================================== *)
(** * package watchdog                                                    *)
(* ===================================================================== *)

Module watchdog.

(** 30 * time.Second, in nanoseconds. *)
Definition DefaultLeaderExpiration : Z := 30 * 1000000000.

Definition LostAcquire : Z := 1.
Definition TakenAcquire : Z := 2.

Record Config : Type := mkConfig {
  ElectionName : string;
  Expiration : Z
}.

(** The locker is an interface and the Redis behind it is shared with
    other processes, so the watchdog's model records the calls it makes
    and takes their boolean results from the transition label. *)
Inductive ctx_arg : Type :=
| goroutine_ctx      (* the ctx handed to the goroutine *)
| background_ctx.    (* context.Background() *)

Inductive call : Type :=
| CallLock (c : ctx_arg) (key value : string) (expiration : Z)
| CallUnlock (c : ctx_arg) (key value : string)
| CallExtendLockTTL (c : ctx_arg) (key value : string) (expiration : Z).

(** What the goroutine does that others can observe, in order. *)
Inductive obs : Type :=
| Called (c : call)       (* a locker method was called *)
| Offered (event : Z)     (* send(event) was entered *)
| Sent (event : Z)        (* [watcher <- event] went through *)
| Closed.                 (* the deferred close(watcher) ran *)

(** After [send] returns: back to the loop, or [return]. *)
Inductive cont : Type := then_loop | then_return.

(** Where the goroutine of Elect stands. *)
Inductive pc : Type :=
| Spawned                          (* go func() issued, not yet running *)
| NeverRan                         (* GoRecover returned before fn *)
| FirstLock                        (* before the Lock that precedes the loop *)
| Sending (event : Z) (k : cont)   (* blocked in the select of send(event) *)
| Selecting                        (* blocked in the select of the for loop *)
| Returned.                        (* fn returned *)

Record state : Type := mkState {
  cfg : Config;
  value : string;          (* uuid.NewString() *)
  ctx : Context;           (* rwl.ctx *)
  world : World;
  at_pc : pc;
  isLeader : bool;
  watcher : list Z;        (* the buffer of the channel, oldest first *)
  closed : bool;
  history : list obs
}.

(** make(chan int, 8) *)
Definition watcher_cap : nat := 8.

Record RedisWatchdogLeader : Type := mkLeader { rwl_ctx : Context }.

(** [NewRedisWatchdogLeader(ctx, locker)] *)
Definition NewRedisWatchdogLeader (parent : Context) (w : World)
    : RedisWatchdogLeader * World :=
  let '(c, w') := WithCancel parent w in (mkLeader c, w').

(** [rwl.Elect(cfg)] up to the point where the goroutine is issued and
    the channel is returned; [None] is the panic on an empty name. *)
Definition Elect (rwl : RedisWatchdogLeader) (cfg : Config) (value : string)
    (w : World) : option state :=
  if decide (ElectionName cfg = "") then None
  else
    let cfg' := if Expiration cfg <=? 0
                then mkConfig (ElectionName cfg) DefaultLeaderExpiration
                else cfg in
    Some (mkState cfg' value (rwl_ctx rwl) w Spawned false [] false []).

(** Transition labels: the first two belong to the environment, the
    others are moves of the goroutine. *)
Inductive label : Type :=
| stop                     (* rwl.Stop(): the context is cancelled *)
| receive                  (* the subscriber takes an event off the channel *)
| scheduled                (* the goroutine starts running; the renewal
                              period is taken as drawn, see
                              [election.renewIntervalJitter] *)
| first_lock (ok : bool)   (* the Lock before the loop returns ok *)
| select_done              (* the loop's select takes <-ctx.Done() *)
| select_tick (ok : bool)  (* it takes <-ticker.C; the locker call made
                              in that turn returns ok *)
| send_event               (* send's select takes watcher <- event *)
| send_done.               (* send's select takes <-ctx.Done() *)

Definition environment (l : label) : bool :=
  match l with stop | receive => true | _ => false end.

Definition set_world (s : state) (w : World) : state :=
  mkState (cfg s) (value s) (ctx s) w (at_pc s) (isLeader s) (watcher s)
          (closed s) (history s).

Definition set_watcher (s : state) (buf : list Z) : state :=
  mkState (cfg s) (value s) (ctx s) (world s) (at_pc s) (isLeader s) buf
          (closed s) (history s).

(** The goroutine moves to [p] with leadership flag [ldr], having done [os]. *)
Definition move (s : state) (p : pc) (ldr : bool) (os : list obs) : state :=
  mkState (cfg s) (value s) (ctx s) (world s) p ldr (watcher s)
          (closed s) (history s ++ os).

(** isLeader = true; send(TakenAcquire) *)
Definition become_leader (s : state) (c : call) : state :=
  move s (Sending TakenAcquire then_loop) true [Called c; Offered TakenAcquire].

(** What follows a [send]: the next turn of the loop, or the return
    with its deferred close(watcher). *)
Definition resume (s : state) (k : cont) (os : list obs) (buf : list Z) : state :=
  match k with
  | then_loop =>
      mkState (cfg s) (value s) (ctx s) (world s) Selecting (isLeader s) buf
              (closed s) (history s ++ os)
  | then_return =>
      mkState (cfg s) (value s) (ctx s) (world s) Returned (isLeader s) buf
              true (history s ++ os ++ [Closed])
  end.

Definition lock_call (s : state) : call :=
  CallLock goroutine_ctx (ElectionName (cfg s)) (value s) (Expiration (cfg s)).

Definition extend_call (s : state) : call :=
  CallExtendLockTTL goroutine_ctx (ElectionName (cfg s)) (value s)
                    (Expiration (cfg s)).

Definition unlock_call (s : state) : call :=
  CallUnlock background_ctx (ElectionName (cfg s)) (value s).

(** One transition; [None] when the label is not enabled in [s]. *)
Definition step (s : state) (l : label) : option state :=
  match l, at_pc s with
  | stop, _ => Some (set_world s (cancel (ctx s) (world s)))
  | receive, _ =>
      match watcher s with
      | _ :: buf => Some (set_watcher s buf)
      | [] => None
      end
  | scheduled, Spawned =>
      match utils.GoRecover (world s) (ctx s) (λ _, tt) with
      | utils.Skipped _ => Some (move s NeverRan false [])
      | utils.Ran _ => Some (move s FirstLock false [])
      end
  | first_lock ok, FirstLock =>
      if ok then Some (become_leader s (lock_call s))
      else Some (move s Selecting false [Called (lock_call s)])
  | select_done, Selecting =>
      if Done (world s) (ctx s) then
        if isLeader s then
          Some (move s (Sending LostAcquire then_return) false
                     [Called (unlock_call s); Offered LostAcquire])
        else Some s
      else None
  | select_tick ok, Selecting =>
      if negb (isLeader s) then
        if ok then Some (become_leader s (lock_call s))
        else Some (move s Selecting false [Called (lock_call s)])
      else
        if negb ok then
          Some (move s (Sending LostAcquire then_loop) false
                     [Called (extend_call s); Offered LostAcquire])
        else Some (move s Selecting true [Called (extend_call s)])
  | send_event, Sending event k =>
      if (length (watcher s) <? watcher_cap)%nat
      then Some (resume s k [Sent event] (watcher s ++ [event]))
      else None
  | send_done, Sending event k =>
      if Done (world s) (ctx s) then Some (resume s k [] (watcher s))
      else None
  | _, _ => None
  end.

Fixpoint run (tr : list label) (s : state) : option state :=
  match tr with
  | [] => Some s
  | l :: tr' =>
      match step s l with
      | Some s' => run tr' s'
      | None => None
      end
  end.

(** The events that went through the channel, and those [send] was
    called with. *)
Definition delivered (s : state) : list Z :=
  omap (λ o, match o with Sent e => Some e | _ => None end) (history s).

Definition offered (s : state) : list Z :=
  omap (λ o, match o with Offered e => Some e | _ => None end) (history s).

Definition calls (s : state) : list call :=
  omap (λ o, match o with Called c => Some c | _ => None end) (history s).

(** Acquired, Lost, Acquired, Lost, ... from [expected] on. *)
Definition flip (event : Z) : Z :=
  if event =? TakenAcquire then LostAcquire else TakenAcquire.

Fixpoint alternates_from (expected : Z) (events : list Z) : bool :=
  match events with
  | [] => true
  | e :: rest => (e =? expected) && alternates_from (flip expected) rest
  end.

Definition alternating (events : list Z) : Prop :=
  alternates_from TakenAcquire events = true.

(** The event expected after [n] alternating ones. *)
Definition turn (x : Z) (n : nat) : Z := if Nat.even n then x else flip x.

(** The event a blocked [send] is holding, if any. *)
Definition pending (s : state) : list Z :=
  match at_pc s with
  | Sending event _ => [event]
  | _ => []
  end.

Definition live (s : state) : Prop := Done (world s) (ctx s) = false.

(** What every reachable state satisfies: the offered events
    alternate, the flag tells whose turn it is, and the channel has
    seen the offered events, but for the pending one and for those
    skipped under a cancelled context. *)
Definition consistent (s : state) : Prop :=
  alternating (offered s) ∧
  isLeader s = Nat.odd (length (offered s)) ∧
  (at_pc s = Spawned ∨ at_pc s = FirstLock → isLeader s = false) ∧
  ∃ settled, offered s = settled ++ pending s ∧
             delivered s `sublist_of` settled ∧
             (live s → delivered s = settled).

(** An election on a fresh leader object under the root context, and
    the state a run of it reaches. *)
Definition cron_leader : RedisWatchdogLeader * World :=
  NewRedisWatchdogLeader Background empty_world.

Definition cron_config : Config := mkConfig "watchdog_cron" 0.

Definition cron_start : state :=
  mkState (mkConfig "watchdog_cron" DefaultLeaderExpiration) "token-1"
          (rwl_ctx (fst cron_leader)) (snd cron_leader) Spawned false [] false [].

Definition reached (tr : list label) : state :=
  default cron_start (run tr cron_start).

(** Eight events that fill the buffer behind a first one that the
    subscriber has taken: the flag ends up set, the buffer full. *)
Definition flapping : list label :=
  [scheduled; first_lock true; send_event; receive;
   select_tick false; send_event; select_tick true; send_event;
   select_tick false; send_event; select_tick true; send_event;
   select_tick false; send_event; select_tick true; send_event;
   select_tick false; send_event; select_tick true; send_event].

End watchdog.


(* ===================================================================== *)
(** * package scheduler                                                   *)
(* ===================================================================== *)

Module scheduler.

(** type StopMode int *)
Definition StopImmediate : Z := 0.
Definition StopGraceful : Z := 1.

(** How a call of a job function ends. *)
Inductive outcome : Type :=
| returns (err : option error)
| panics (r : any).

(** func(context.Context) error: what the function does may depend on
    the context it is given and on the state of the contexts. *)
Definition JobFunc : Type := Context → World → outcome.

Record JobConfiguration : Type := mkJobConfiguration {
  Name : string;
  Func : JobFunc;
  Tick : Z;
  Deadline : Z;
  StopMode : Z
}.

Record job : Type := mkJob {
  name : string;
  ctx : option Context;      (* nil until Start *)
  fn : JobFunc;
  tick : Z;
  ticker : option Z;         (* nil until Start; the period once made *)
  deadline : Z;
  wg : nat;                  (* the WaitGroup counter *)
  stopMode : Z
}.

Record JobScheduler : Type := mkScheduler {
  started : bool;
  goroutines : gmap string job;
  rate_cap : nat;            (* capacity of the channel [rate] *)
  rate_len : nat             (* slots taken *)
}.

(** [NewJobScheduler(rate)] *)
Definition NewJobScheduler (rate : Z) : JobScheduler :=
  let rate := if rate <=? 0 then 1 else rate in
  mkScheduler false ∅ (Z.to_nat rate) 0.

Definition new_job (cfg : JobConfiguration) : job :=
  mkJob (Name cfg) None (Func cfg) (Tick cfg) None (Deadline cfg) 0
        (StopMode cfg).

(** [s.Add(cfg)] *)
Definition Add (cfg : JobConfiguration) (s : JobScheduler)
    : option error * JobScheduler :=
  if started s then
    (Some (errorString ("scheduler.Add(" +:+ Name cfg +:+ "): already started")), s)
  else match goroutines s !! Name cfg with
       | Some _ =>
           (Some (errorString ("scheduler.Add(" +:+ Name cfg
                                 +:+ "): job already exists")), s)
       | None =>
           (None, mkScheduler (started s)
                              (<[Name cfg := new_job cfg]> (goroutines s))
                              (rate_cap s) (rate_len s))
       end.

(** Which ready case the first select of [exec] takes. *)
Inductive select_case : Type :=
| take_done      (* case <-j.ctx.Done() *)
| take_rate.     (* case s.rate <- struct{}{} *)

(** What one call of [exec] did. *)
Record execution : Type := mkExecution {
  err : option error;          (* the returned error *)
  passed : option Context;     (* the context given to j.fn, if called *)
  recovered : option any;      (* what recover() returned, if not nil *)
  entries : list LogEntry;     (* what it logged *)
  world_after : World;
  rate_after : nat
}.

Definition panic_entry (j : job) (r : any) : LogEntry :=
  mkLog ErrorLevel "Job panic" "scheduler" "exec" (name j)
        (Some (errorString ("panic in job " +:+ name j +:+ ": " +:+ fmt_v r))).

(** The deferred recover of [exec] applied to the outcome of [j.fn]. *)
Definition recover (j : job) (o : outcome)
    : option error * option any * list LogEntry :=
  match o with
  | returns e => (e, None, [])
  | panics r =>
      (Some (errorString ("panic in job: " +:+ fmt_v r)), Some r,
       [panic_entry j r])
  end.

(** The switch on j.stopMode: the context for the call, the call, and
    the deferred cancel.  A stop mode that is neither constant calls
    nothing. *)
Definition call_fn (j : job) (c : Context) (w : World)
    : option (Context * outcome) * World :=
  if stopMode j =? StopImmediate then
    let '(tctx, w1) := WithTimeout c (deadline j) w in
    (Some (tctx, fn j tctx w1), cancel tctx w1)
  else if stopMode j =? StopGraceful then
    let '(tctx, w1) := WithTimeout Background (deadline j) w in
    (Some (tctx, fn j tctx w1), cancel tctx w1)
  else (None, w).

(** [s.exec(j)] with the first select taking [pick]; [None] when that
    case cannot proceed (or j.ctx is still nil).  The slot taken from
    [rate] is given back by the first deferred function, whatever
    happens. *)
Definition exec (pick : select_case) (j : job) (s : JobScheduler) (w : World)
    : option execution :=
  match ctx j with
  | None => None
  | Some c =>
      match pick with
      | take_done =>
          if Done w c
          then Some (mkExecution (Err w c) None None [] w (rate_len s))
          else None
      | take_rate =>
          if (rate_len s <? rate_cap s)%nat then
            match Err w c with
            | Some e => Some (mkExecution (Some e) None None [] w (rate_len s))
            | None =>
                match call_fn j c w with
                | (Some (tctx, o), w') =>
                    let '(e, r, logs) := recover j o in
                    Some (mkExecution e (Some tctx) r logs w' (rate_len s))
                | (None, w') =>
                    Some (mkExecution None None None [] w' (rate_len s))
                end
            end
          else None
      end
  end.

(** The goroutine of a job: [s.run(name, j)]. *)
Record running : Type := mkRunning {
  alive : bool;                    (* false once run has returned *)
  sched : JobScheduler;
  now : World;
  done_wg : bool;                  (* the deferred j.wg.Done() ran *)
  executions : list execution;     (* one per observed tick *)
  log : list LogEntry
}.

Inductive run_label : Type :=
| cancel_job                       (* j.cancel(), as Stop does *)
| on_done                          (* the select takes <-ctx.Done() *)
| on_tick (pick : select_case).    (* it takes <-ticker.C, then exec *)

Definition stopped_entry (name : string) : LogEntry :=
  mkLog InfoLevel "Job stopped" "scheduler" "run" name None.

Definition failed_entry (name : string) (e : error) : LogEntry :=
  mkLog ErrorLevel "Job execution failed" "scheduler" "run" name (Some e).

(** if err := s.exec(j); err != nil && !errors.Is(err, context.Canceled) *)
Definition report (name : string) (e : option error) : list LogEntry :=
  match e with
  | Some e => if errors_Is e Canceled then [] else [failed_entry name e]
  | None => []
  end.

(** One turn of the loop of [run]. *)
Definition run_step (j : job) (st : running) (l : run_label) : option running :=
  if alive st then
    match l, ctx j with
    | cancel_job, Some c =>
        Some (mkRunning true (sched st) (cancel c (now st)) (done_wg st)
                        (executions st) (log st))
    | on_done, Some c =>
        if Done (now st) c then
          Some (mkRunning false (sched st) (now st) true (executions st)
                          (log st ++ [stopped_entry (name j)]))
        else None
    | on_tick pick, Some c =>
        match exec pick j (sched st) (now st) with
        | Some x =>
            Some (mkRunning true
                    (mkScheduler (started (sched st)) (goroutines (sched st))
                                 (rate_cap (sched st)) (rate_after x))
                    (world_after x) (done_wg st)
                    (executions st ++ [x])
                    (log st ++ entries x ++ report (name j) (err x)))
        | None => None
        end
    | _, None => None
    end
  else None.

Fixpoint run (j : job) (ls : list run_label) (st : running) : option running :=
  match ls with
  | [] => Some st
  | l :: ls' =>
      match run_step j st l with
      | Some st' => run j ls' st'
      | None => None
      end
  end.

(** What [Start] does to one job: context, ticker, WaitGroup.  The
    tick is taken to be one that time.NewTicker accepts; on a tick
    that is not positive it panics (see [lifecycle.ticking]). *)
Definition start_job (parent : Context) (j : job) (w : World) : job * World :=
  let '(c, w') := WithCancel parent w in
  (mkJob (name j) (Some c) (fn j) (tick j) (Some (tick j)) (deadline j)
         (S (wg j)) (stopMode j), w').

Fixpoint start_jobs (parent : Context) (jobs : list (string * job)) (w : World)
    : list (string * job) * World :=
  match jobs with
  | [] => ([], w)
  | (n, j) :: rest =>
      let '(j', w') := start_job parent j w in
      let '(rest', w'') := start_jobs parent rest w' in
      ((n, j') :: rest', w'')
  end.

(** The closure returned by [s.Start(ctx)]: the new scheduler, the
    world, the warning of a second start, and the goroutines handed to
    utils.GoRecover, each with the context it is handed with.  Go ranges
    over the map in no particular order; the order of [map_to_list]
    stands for it. *)
Definition Start (parent : Context) (s : JobScheduler) (w : World)
    : JobScheduler * World * list LogEntry * list (Context * job) :=
  if started s then
    (s, w, [mkLog WarnLevel "scheduler.start" "scheduler" "Start" "" None], [])
  else
    let '(jobs, w') := start_jobs parent (map_to_list (goroutines s)) w in
    (mkScheduler true (list_to_map jobs) (rate_cap s) (rate_len s), w', [],
     map (λ nj, (parent, snd nj)) jobs).

(** The goroutine [utils.GoRecover(ctx, func(ctx) { s.run(name, j) })],
    reaching its select in world [w] and then seeing the turns [ls]. *)
Definition job_goroutine (w : World) (s : JobScheduler) (ls : list run_label)
    (g : Context * job) : utils.launched (option running) :=
  utils.GoRecover w (fst g)
    (λ _, run (snd g) ls (mkRunning true s w false [] [])).

(** A job that panics on every execution, registered and started. *)
Definition faulty : JobConfiguration :=
  mkJobConfiguration "heartbeat" (λ _ _, panics (mkAny "boom"))
                     5000000000 2000000000 StopImmediate.

Definition faulty_job : job :=
  mkJob "heartbeat" (Some (WithCancelCtx 0 Background)) (Func faulty)
        5000000000 (Some 5000000000) 2000000000 1 StopImmediate.

(** The same job with the other stop mode. *)
Definition patient_job : job :=
  mkJob "heartbeat" (Some (WithCancelCtx 0 Background)) (Func faulty)
        5000000000 (Some 5000000000) 2000000000 1 StopGraceful.

Definition one_slot : JobScheduler :=
  mkScheduler true {[ "heartbeat" := faulty_job ]} 1 0.

Definition at_start : running :=
  mkRunning true one_slot (mkWorld ∅ 1) false [] [].

End scheduler.


(* ===================================================================== *)
(** * package readiness_barrier                                           *)
(* ===================================================================== *)

Module readiness_barrier.

(** type toggleSignal string *)
Definition ReadySignalToggle : string := "ready".
Definition NotReadySignalToggle : string := "not_ready".

Record ReadinessBarrierConfig : Type := mkConfig { Name : string }.

Record ReadinessBarrier : Type := mkBarrier {
  config : ReadinessBarrierConfig;
  signals : list string;         (* the buffer of the channel, oldest first *)
  readinessFlag : bool;
  parent : Context;
  running : bool;
  runCancel : option Context;    (* the context runCancel cancels; nil = None *)
  listener : option Context      (* the context of the listen goroutine
                                    while it exists (wg counter 1) *)
}.

(** make(chan toggleSignal, 4) *)
Definition signals_cap : nat := 4.

(** [NewReadinessBarrier(parent, cfg)] *)
Definition NewReadinessBarrier (parent : Context) (cfg : ReadinessBarrierConfig)
    : ReadinessBarrier :=
  mkBarrier cfg [] false parent false None None.

(** [r.Start()] as a whole call, with no other call of a method of
    the barrier in progress. *)
Definition Start (r : ReadinessBarrier) (w : World) : ReadinessBarrier * World :=
  if running r then (r, w)
  else
    let '(c, w') := WithCancel (parent r) w in
    (mkBarrier (config r) (signals r) (readinessFlag r) (parent r) true
               (Some c) (Some c), w').

(** The switch of [listen] on a received signal. *)
Definition toggle (sig : string) (flag : bool) : bool :=
  if decide (sig = ReadySignalToggle) then true
  else if decide (sig = NotReadySignalToggle) then false
  else flag.

Inductive listen_case : Type :=
| listener_done       (* case <-ctx.Done(): return *)
| listener_signal.    (* case sig := <-r.signals *)

(** One turn of the loop of [listen]; [None] when the case is not
    ready or there is no listener. *)
Definition listen (pick : listen_case) (r : ReadinessBarrier) (w : World)
    : option ReadinessBarrier :=
  match listener r with
  | None => None
  | Some c =>
      match pick with
      | listener_done =>
          if Done w c
          then Some (mkBarrier (config r) (signals r) (readinessFlag r)
                               (parent r) (running r) (runCancel r) None)
          else None
      | listener_signal =>
          match signals r with
          | sig :: rest =>
              Some (mkBarrier (config r) rest (toggle sig (readinessFlag r))
                              (parent r) (running r) (runCancel r) (listener r))
          | [] => None
          end
      end
  end.

(** The listener between the cancellation in Stop and the return of
    wg.Wait(): it may still take [k] signals before it takes
    [<-ctx.Done()]. *)
Fixpoint last_turns (k : nat) (sigs : list string) (flag : bool)
    : list string * bool :=
  match k, sigs with
  | S k', sig :: rest => last_turns k' rest (toggle sig flag)
  | _, _ => (sigs, flag)
  end.

(** The loop labelled [drop]: receive until the channel is empty. *)
Fixpoint drop_signals (sigs : list string) : list string :=
  match sigs with
  | [] => []
  | _ :: rest => drop_signals rest
  end.

(** [r.Stop()] as a whole call, with no other call of a method of
    the barrier in progress. *)
Definition Stop (k : nat) (r : ReadinessBarrier) (w : World)
    : ReadinessBarrier * World :=
  if running r then
    let w' := match runCancel r with
              | Some c => cancel c w
              | None => w
              end in
    let '(sigs, flag) :=
      match listener r with
      | Some _ => last_turns k (signals r) (readinessFlag r)
      | None => (signals r, readinessFlag r)
      end in
    (mkBarrier (config r) (drop_signals sigs) false (parent r) false None None,
     w')
  else (r, w).

(** [r.IsReady()] *)
Definition IsReady (r : ReadinessBarrier) : bool := readinessFlag r.

Inductive send_case : Type :=
| send_signal     (* case r.signals <- sig *)
| send_ctx_done.  (* case <-ctx.Done() *)

(** [r.SendSignalCtx(ctx, sig)] as a whole call, no Start or Stop
    coming between its test of [running] and its select; [None] when
    the chosen case of the select is not ready. *)
Definition SendSignalCtx (pick : send_case) (ctx : Context) (sig : string)
    (r : ReadinessBarrier) (w : World) : option (option error * ReadinessBarrier) :=
  if running r then
    match pick with
    | send_signal =>
        if (length (signals r) <? signals_cap)%nat
        then Some (None,
                   mkBarrier (config r) (signals r ++ [sig]) (readinessFlag r)
                             (parent r) (running r) (runCancel r) (listener r))
        else None
    | send_ctx_done =>
        if Done w ctx
        then Some (Some (errorString ("readiness barrier " +:+ Name (config r)
                           +:+ ": context cancelled while sending signal")), r)
        else None
    end
  else Some (Some (errorString ("readiness barrier " +:+ Name (config r)
                                  +:+ ": not running")), r).

(** What can happen to a barrier whose methods are called one at a
    time: whole calls of its methods, turns of its listener, and
    cancellations of contexts around it.  (Calls that overlap are
    taken step by step in [barrier_steps].) *)
Inductive op : Type :=
| call_Start
| call_Stop (k : nat)
| call_SendSignalCtx (pick : send_case) (ctx : Context) (sig : string)
| turn_listen (pick : listen_case)
| cancel_context (c : Context).

Definition apply (o : op) (st : ReadinessBarrier * World)
    : option (ReadinessBarrier * World) :=
  let '(r, w) := st in
  match o with
  | call_Start => Some (Start r w)
  | call_Stop k => Some (Stop k r w)
  | call_SendSignalCtx pick ctx sig =>
      match SendSignalCtx pick ctx sig r w with
      | Some (_, r') => Some (r', w)
      | None => None
      end
  | turn_listen pick =>
      match listen pick r w with
      | Some r' => Some (r', w)
      | None => None
      end
  | cancel_context c => Some (r, cancel c w)
  end.

Fixpoint history (ops : list op) (st : ReadinessBarrier * World)
    : option (ReadinessBarrier * World) :=
  match ops with
  | [] => Some st
  | o :: ops' =>
      match apply o st with
      | Some st' => history ops' st'
      | None => None
      end
  end.

(** A stopped barrier is not ready, holds no signal and has no listener. *)
Definition settled (r : ReadinessBarrier) : Prop :=
  running r = false →
  readinessFlag r = false ∧ signals r = [] ∧ listener r = None.

End readiness_barrier.


(* ===================================================================== *)
(** * package utils: slices                                               *)
(* ===================================================================== *)

Module slices.

(** The loop of [SortedDifference] on integer elements: [base] and
    [exclude] are what is left from [baseIdx] and [exclIdx] on,
    [result] is the slice built so far.  When either index reaches the
    end, the rest of [base] is appended. *)
Fixpoint difference_loop (result base exclude : list Z) {struct base} : list Z :=
  match base with
  | [] => result ++ []
  | b :: base' =>
      (fix skip (exclude : list Z) : list Z :=
         match exclude with
         | [] => result ++ b :: base'
         | e :: exclude' =>
             if b <? e then difference_loop (result ++ [b]) base' (e :: exclude')
             else if b >? e then skip exclude'
             else difference_loop result base' exclude'
         end) exclude
  end.

(** [SortedDifference(base, exclude)] *)
Definition SortedDifference (base exclude : list Z) : list Z :=
  difference_loop [] base exclude.

Section Distinct.
Context {T : Type} `{Countable T}.

(** The loop of [Distinct]: [seen] is the map used as a set, [out] the
    slice built so far. *)
Fixpoint distinct_loop (seen : gset T) (out src : list T) : list T :=
  match src with
  | [] => out
  | v :: rest =>
      if decide (v ∈ seen) then distinct_loop seen out rest
      else distinct_loop ({[v]} ∪ seen) (out ++ [v]) rest
  end.

(** [Distinct(src)] *)
Definition Distinct (src : list T) : list T := distinct_loop ∅ [] src.

End Distinct.

(** Number of occurrences of [x]. *)
Definition occurrences (x : Z) (l : list Z) : nat := count_occ Z.eq_dec l x.

Definition weakly_ascending (l : list Z) : Prop := Sorted Z.le l.

End slices.


(* ===================================================================== *)
(** * package watchdog: timing and bookkeeping of an election             *)
(* ===================================================================== *)

Module election.

(** cfg.Expiration/3 + time.Duration(rand.Int63n(int64(cfg.Expiration/10))),
    the period handed to time.NewTicker.  [draw] is what rand.Int63n
    returns, a number from 0 up to its argument; it panics when the
    argument is not positive ([None]).  Durations are nanoseconds and
    Go's division truncates. *)
Definition renewIntervalJitter (expiration draw : Z) : option Z :=
  if Z.quot expiration 10 <=? 0 then None
  else Some (Z.quot expiration 3 + draw).






End election.


(* ===================================================================== *)
(** * The Redis lock: the end of a lease                                  *)
(* ===================================================================== *)

Module lease.

(** What the server does by itself to a key set with PX once its time
    to live has run out: the record is gone. *)
Definition ran_out (key : string) (l : locker.RedisLocker)
    : locker.RedisLocker :=
  locker.mkLocker
    (locker.mkClient
       (delete (locker.lockKeyPrefix +:+ key)
               (locker.db (locker.redisClient l)))
       (locker.reachable (locker.redisClient l))).

End lease.


(* ===================================================================== *)
(** * package scheduler: stopping                                         *)
(* ===================================================================== *)

Module lifecycle.

(** What the first loop of [Stop] does to one job: [j.cancel()] (the
    ticker is stopped too; ticks are labels here). *)
Definition stop_job (j : scheduler.job) (w : World) : World :=
  match scheduler.ctx j with
  | Some c => cancel c w
  | None => w
  end.

Fixpoint stop_jobs (jobs : list (string * scheduler.job)) (w : World) : World :=
  match jobs with
  | [] => w
  | (_, j) :: rest => stop_jobs rest (stop_job j w)
  end.

(** The closure returned by [s.Stop()], up to its last loop: nothing
    when the scheduler is not started; otherwise the flag is cleared
    and every job is cancelled.  The jobs are visited in the order of
    [map_to_list], which stands for Go's. *)
Definition Stop (s : scheduler.JobScheduler) (w : World)
    : scheduler.JobScheduler * World :=
  if scheduler.started s then
    (scheduler.mkScheduler false (scheduler.goroutines s)
                           (scheduler.rate_cap s) (scheduler.rate_len s),
     stop_jobs (map_to_list (scheduler.goroutines s)) w)
  else (s, w).

(** The counter of [j.wg] once the goroutine started for [j] has done
    what [g] says: only a [run] that returned has called wg.Done(). *)
Definition counter (j : scheduler.job)
    (g : utils.launched (option scheduler.running)) : nat :=
  match g with
  | utils.Ran (Some st) =>
      if scheduler.done_wg st then pred (scheduler.wg j) else scheduler.wg j
  | _ => scheduler.wg j
  end.

(** The last loop of [Stop], [j.wg.Wait()] for every job, returns when
    every counter is zero. *)
Definition Wait_returns (counters : list nat) : bool :=
  forallb (λ n, (n =? 0)%nat) counters.

(** A scheduler as a sequence of Add calls leaves it. *)
Definition added (s : scheduler.JobScheduler) : Prop :=
  scheduler.started s = false ∧
  ∀ n j, scheduler.goroutines s !! n = Some j →
         scheduler.ctx j = None ∧ scheduler.wg j = 0%nat.

(** Every job has a tick that time.NewTicker accepts: Add does not
    look at the tick, and Start panics in time.NewTicker on the first
    job whose tick is not positive. *)
Definition ticking (s : scheduler.JobScheduler) : Prop :=
  ∀ n j, scheduler.goroutines s !! n = Some j → 0 < scheduler.tick j.

(** What Start has made of job [j]. *)
Definition started_from (parent : Context) (w w' : World)
    (j j' : scheduler.job) : Prop :=
  (∃ id, scheduler.ctx j' = Some (WithCancelCtx id parent) ∧
         (next w ≤ id < next w')%nat) ∧
  scheduler.ticker j' = Some (scheduler.tick j) ∧
  scheduler.wg j' = S (scheduler.wg j) ∧
  scheduler.name j' = scheduler.name j ∧
  scheduler.fn j' = scheduler.fn j ∧
  scheduler.tick j' = scheduler.tick j ∧
  scheduler.deadline j' = scheduler.deadline j ∧
  scheduler.stopMode j' = scheduler.stopMode j.

End lifecycle.


(* ===================================================================== *)
(** * package application: the supervisors                                *)
(* ===================================================================== *)

Module supervision.

(** Which closure of the supervisor was called. *)
Inductive closure : Type := called_Start | called_Stop.

(** What the select of a supervising goroutine takes in one turn,
    and what happens around the goroutine between its turns: the turn
    of the loop of [App.Stop] for this supervisor, which takes the same
    mutex and works on the same flag, and the cancellation of a
    context by anyone. *)
Inductive turn : Type :=
| app_done             (* case <-ctx.Done() *)
| supervisor_done      (* case <-supervisor.ctx.Done() *)
| received (res : Z)   (* case res, ok := <-supervisor.Watcher, ok *)
| watcher_closed       (* the same case with ok == false *)
| app_stops            (* App.Stop reaches this supervisor *)
| context_cancelled (c : Context).

Section Loop.
Context {W : Type}.

(** The goroutine that [StartWatchdogsLeadership] starts for one
    supervisor: the supervisor, what the closures act on, whether the
    loop is still running, and the closures called so far. *)
Record supervising : Type := mkSupervising {
  sup : application.LeaderSupervisor W;
  rt : application.Runtime W;
  looping : bool;
  trail : list closure
}.

Definition entry (msg : string) : LogEntry :=
  mkLog InfoLevel msg "application" "StartWatchdogsLeadership" "" None.

Definition set_working (s : application.LeaderSupervisor W) (b : bool)
    : application.LeaderSupervisor W :=
  application.mkSupervisor (application.sup_ctx s) (application.Start s)
    (application.Stop s) (application.SupervisorName s) b.

Definition logged (r : application.Runtime W) (msg : string)
    : application.Runtime W :=
  application.mkRuntime (application.user r) (application.world r)
                        (application.logs r ++ [entry msg]).

Definition applied (f : W → W) (r : application.Runtime W)
    : application.Runtime W :=
  application.mkRuntime (f (application.user r)) (application.world r)
                        (application.logs r).

(** if res == watchdog.LostAcquire { ... } *)
Definition on_lost (st : supervising) : supervising :=
  if application.Working (sup st) then
    mkSupervising (set_working (sup st) false)
      (logged (applied (application.Stop (sup st)) (rt st))
              ("Supervisor " +:+ application.SupervisorName (sup st)
                 +:+ " has stopped due to lost leadership"))
      (looping st) (trail st ++ [called_Stop])
  else st.

(** if res == watchdog.TakenAcquire { ... } *)
Definition on_taken (st : supervising) : supervising :=
  if application.Working (sup st) then st
  else
    mkSupervising (set_working (sup st) true)
      (logged (applied (application.Start (sup st)) (rt st))
              ("Supervisor " +:+ application.SupervisorName (sup st)
                 +:+ " has started successfully"))
      (looping st) (trail st ++ [called_Start]).

(** One turn of the loop; [None] when the case is not ready or the
    loop has ended. *)
Definition loop_turn (app_ctx : Context) (st : supervising) (t : turn)
    : option supervising :=
  if looping st then
    match t with
    | app_done =>
        if Done (application.world (rt st)) app_ctx then
          Some (mkSupervising (sup st)
                  (logged (rt st)
                     ("Stopping supervisor "
                        +:+ application.SupervisorName (sup st)
                        +:+ " due to context cancellation"))
                  false (trail st))
        else None
    | supervisor_done =>
        if Done (application.world (rt st)) (application.sup_ctx (sup st)) then
          Some (mkSupervising (set_working (sup st) false) (rt st) false
                              (trail st))
        else None
    | watcher_closed =>
        Some (mkSupervising (sup st)
                (logged (rt st)
                   ("Supervisor " +:+ application.SupervisorName (sup st)
                      +:+ " receive channel closed"))
                false (trail st))
    | received res =>
        let st1 := if res =? watchdog.LostAcquire then on_lost st else st in
        Some (if res =? watchdog.TakenAcquire then on_taken st1 else st1)
    | app_stops | context_cancelled _ => None
    end
  else None.

(** The body of the loop of [App.Stop] for this supervisor, which runs
    whether the goroutine is still in its loop or not. *)
Definition stopped_by_app (st : supervising) : supervising :=
  let '(s', rt') := application.stop_supervisor (sup st) (rt st) in
  mkSupervising s' rt' (looping st)
    (trail st ++ if application.Working (sup st) then [called_Stop] else []).

Definition cancelled (c : Context) (st : supervising) : supervising :=
  mkSupervising (sup st)
    (application.mkRuntime (application.user (rt st))
       (cancel c (application.world (rt st))) (application.logs (rt st)))
    (looping st) (trail st).

(** One turn of the goroutine or of what surrounds it. *)
Definition supervise (app_ctx : Context) (st : supervising) (t : turn)
    : option supervising :=
  match t with
  | app_stops => Some (stopped_by_app st)
  | context_cancelled c => Some (cancelled c st)
  | _ => loop_turn app_ctx st t
  end.

Fixpoint supervise_all (app_ctx : Context) (ts : list turn) (st : supervising)
    : option supervising :=
  match ts with
  | [] => Some st
  | t :: ts' =>
      match supervise app_ctx st t with
      | Some st' => supervise_all app_ctx ts' st'
      | None => None
      end
  end.

(** The goroutine as [StartWatchdogsLeadership] starts it. *)
Definition watch (s : application.LeaderSupervisor W)
    (r : application.Runtime W) : supervising :=
  mkSupervising s r true [].

(** Start, Stop, Start, ... beginning with [first]. *)
Fixpoint takes_turns (first : closure) (cs : list closure) : bool :=
  match cs with
  | [] => true
  | c :: rest =>
      match first, c with
      | called_Start, called_Start => takes_turns called_Stop rest
      | called_Stop, called_Stop => takes_turns called_Start rest
      | _, _ => false
      end
  end.

(** What the called closures have done to [u], in order. *)
Definition effect (s : application.LeaderSupervisor W) (cs : list closure)
    (u : W) : W :=
  fold_left (λ u c, match c with
                    | called_Start => application.Start s u
                    | called_Stop => application.Stop s u
                    end) cs u.

(** The closure that may be called next. *)
Definition due (first : closure) (cs : list closure) : closure :=
  match last cs with
  | None => first
  | Some called_Start => called_Stop
  | Some called_Stop => called_Start
  end.

(** What holds of a supervisor all along: the closures have been
    called in turn, and the flag says which one is due. *)
Definition in_step (s : application.LeaderSupervisor W) (u : W)
    (st : supervising) : Prop :=
  let first := if application.Working s then called_Stop else called_Start in
  takes_turns first (trail st) = true ∧
  application.user (rt st) = effect s (trail st) u ∧
  application.Start (sup st) = application.Start s ∧
  application.Stop (sup st) = application.Stop s ∧
  application.sup_ctx (sup st) = application.sup_ctx s ∧
  (application.Working (sup st) = true → due first (trail st) = called_Stop) ∧
  (looping st = true → application.Working (sup st) = false →
   due first (trail st) = called_Start).

(** An application as calls of RegisterShutdown and
    RegisterWatchdogsLeadership make it. *)
Inductive registration : Type :=
| reg_shutdown (h : application.shutdown W)
| reg_supervisor (s : application.LeaderSupervisor W).

Definition register (st : application.App W * application.Runtime W)
    (r : registration) : application.App W * application.Runtime W :=
  match r with
  | reg_shutdown h =>
      application.RegisterShutdown (application.name h)
        (application.shutdownFunc h) (application.priority h) st.1 st.2
  | reg_supervisor s => application.RegisterWatchdogsLeadership s st.1 st.2
  end.

Definition registered (c : Context) (rs : list registration)
    (r : application.Runtime W) : application.App W * application.Runtime W :=
  fold_left register rs (application.NewApp c, r).

End Loop.
Arguments supervising W : clear implicits.
Arguments registration W : clear implicits.

End supervision.


(* ===================================================================== *)
(** * package readiness_barrier: what holds of every barrier             *)
(* ===================================================================== *)

Module readiness.
Import readiness_barrier.

(** How a barrier made by [NewReadinessBarrier p cfg] is wired at any
    later moment. *)
Definition wired (p : Context) (cfg : ReadinessBarrierConfig)
    (r : ReadinessBarrier) : Prop :=
  parent r = p ∧ config r = cfg ∧
  (length (signals r) ≤ signals_cap)%nat ∧
  (running r = true ↔ is_Some (runCancel r)) ∧
  (∀ c, listener r = Some c → runCancel r = Some c) ∧
  (∀ c, runCancel r = Some c → ∃ id, c = WithCancelCtx id p).

(** The signals the switch of [listen] has a case for. *)
Definition recognised (sig : string) : Prop :=
  sig = ReadySignalToggle ∨ sig = NotReadySignalToggle.

(** The flag after the listener has taken [sigs], oldest first. *)
Definition flag_after (sigs : list string) (flag : bool) : bool :=
  fold_left (λ f sig, toggle sig f) sigs flag.

(** The listener taking everything that waits in the channel. *)
Definition take_all (r : ReadinessBarrier) : list op :=
  repeat (turn_listen listener_signal) (length (signals r)).

End readiness.


(* ===================================================================== *)
(** * package readiness_barrier: calls that overlap                       *)
(* ===================================================================== *)

(** The methods of a barrier step by step, so that calls made by
    several goroutines can overlap: between the test or the
    compare-and-swap of [running] and what follows it, anything may
    happen.  The critical sections under [r.mu] and the pair
    [wg.Add(1); go ...] are single steps. *)
Module barrier_steps.
Import readiness_barrier.

(** Where a call that has not returned yet stands. *)
Inductive stage : Type :=
| Start_won                    (* Start: the CAS set running; runCancel not yet set *)
| Start_made (c : Context)     (* Start: runCancel set; listener not yet started *)
| Stop_won                     (* Stop: the CAS cleared running; before r.mu *)
| Stop_waiting                 (* Stop: in r.wg.Wait() *)
| Stop_draining                (* Stop: in the loop labelled drop *)
| Stop_resetting               (* Stop: left the loop, before setNotReady *)
| Send_checked (ctx : Context) (sig : string).
                               (* SendSignalCtx: running was true; in the select *)

Record state : Type := mkState {
  config : ReadinessBarrierConfig;
  parent : Context;
  signals : list string;         (* the buffer of the channel, oldest first *)
  readinessFlag : bool;
  running : bool;
  runCancel : option Context;    (* the context runCancel cancels; nil = None *)
  listeners : list Context;      (* the goroutines in listen, counted by wg *)
  calls : gmap nat stage;        (* the calls in progress, by goroutine *)
  world : World
}.

(** [NewReadinessBarrier(parent, cfg)], no call in progress. *)
Definition NewReadinessBarrier (parent : Context) (cfg : ReadinessBarrierConfig)
    (w : World) : state :=
  mkState cfg parent [] false false None [] ∅ w.

Definition at_stage (s : state) (g : nat) (st : option stage) : state :=
  mkState (config s) (parent s) (signals s) (readinessFlag s) (running s)
          (runCancel s) (listeners s)
          (match st with
           | Some x => <[g := x]> (calls s)
           | None => delete g (calls s)
           end)
          (world s).

Inductive label : Type :=
| call_Start (g : nat)                   (* g enters Start *)
| Start_proceeds (g : nat)               (* g takes the next step of its Start *)
| call_Stop (g : nat)                    (* g enters Stop *)
| Stop_proceeds (g : nat)                (* g takes the next step of its Stop *)
| call_SendSignalCtx (g : nat) (ctx : Context) (sig : string)
| Send_selects (g : nat) (pick : send_case)
| listener_turn (i : nat) (pick : listen_case)
| cancel_context (c : Context).

(** One step; [None] when it cannot be taken now. *)
Definition step (s : state) (l : label) : option state :=
  match l with
  | call_Start g =>
      match calls s !! g with
      | Some _ => None
      | None =>
          (* if !r.running.CompareAndSwap(false, true) { return } *)
          if running s then Some s
          else Some (mkState (config s) (parent s) (signals s)
                             (readinessFlag s) true (runCancel s)
                             (listeners s) (<[g := Start_won]> (calls s))
                             (world s))
      end
  | Start_proceeds g =>
      match calls s !! g with
      | Some Start_won =>
          let '(c, w') := WithCancel (parent s) (world s) in
          Some (mkState (config s) (parent s) (signals s) (readinessFlag s)
                        (running s) (Some c) (listeners s)
                        (<[g := Start_made c]> (calls s)) w')
      | Some (Start_made c) =>
          Some (mkState (config s) (parent s) (signals s) (readinessFlag s)
                        (running s) (runCancel s) (listeners s ++ [c])
                        (delete g (calls s)) (world s))
      | _ => None
      end
  | call_Stop g =>
      match calls s !! g with
      | Some _ => None
      | None =>
          (* if !r.running.CompareAndSwap(true, false) { return } *)
          if running s
          then Some (mkState (config s) (parent s) (signals s)
                             (readinessFlag s) false (runCancel s)
                             (listeners s) (<[g := Stop_won]> (calls s))
                             (world s))
          else Some s
      end
  | Stop_proceeds g =>
      match calls s !! g with
      | Some Stop_won =>
          Some (mkState (config s) (parent s) (signals s) (readinessFlag s)
                        (running s) None (listeners s)
                        (<[g := Stop_waiting]> (calls s))
                        (match runCancel s with
                         | Some c => cancel c (world s)
                         | None => world s
                         end))
      | Some Stop_waiting =>
          match listeners s with
          | [] => Some (at_stage s g (Some Stop_draining))
          | _ :: _ => None
          end
      | Some Stop_draining =>
          match signals s with
          | _ :: rest =>
              Some (mkState (config s) (parent s) rest (readinessFlag s)
                            (running s) (runCancel s) (listeners s) (calls s)
                            (world s))
          | [] => Some (at_stage s g (Some Stop_resetting))
          end
      | Some Stop_resetting =>
          Some (mkState (config s) (parent s) (signals s) false (running s)
                        (runCancel s) (listeners s) (delete g (calls s))
                        (world s))
      | _ => None
      end
  | call_SendSignalCtx g ctx sig =>
      match calls s !! g with
      | Some _ => None
      | None =>
          (* if !r.running.Load() { return fmt.Errorf(...) } *)
          if running s then Some (at_stage s g (Some (Send_checked ctx sig)))
          else Some s
      end
  | Send_selects g pick =>
      match calls s !! g with
      | Some (Send_checked ctx sig) =>
          match pick with
          | send_signal =>
              if (length (signals s) <? signals_cap)%nat
              then Some (mkState (config s) (parent s) (signals s ++ [sig])
                                 (readinessFlag s) (running s) (runCancel s)
                                 (listeners s) (delete g (calls s)) (world s))
              else None
          | send_ctx_done =>
              if Done (world s) ctx then Some (at_stage s g None) else None
          end
      | _ => None
      end
  | listener_turn i pick =>
      match listeners s !! i with
      | None => None
      | Some c =>
          match pick with
          | listener_done =>
              if Done (world s) c
              then Some (mkState (config s) (parent s) (signals s)
                                 (readinessFlag s) (running s) (runCancel s)
                                 (delete i (listeners s)) (calls s) (world s))
              else None
          | listener_signal =>
              match signals s with
              | sig :: rest =>
                  Some (mkState (config s) (parent s) rest
                                (toggle sig (readinessFlag s)) (running s)
                                (runCancel s) (listeners s) (calls s) (world s))
              | [] => None
              end
          end
      end
  | cancel_context c =>
      Some (mkState (config s) (parent s) (signals s) (readinessFlag s)
                    (running s) (runCancel s) (listeners s) (calls s)
                    (cancel c (world s)))
  end.

Fixpoint run (ls : list label) (s : state) : option state :=
  match ls with
  | [] => Some s
  | l :: ls' =>
      match step s l with
      | Some s' => run ls' s'
      | None => None
      end
  end.

(** [r.IsReady()] *)
Definition IsReady (s : state) : bool := readinessFlag s.








End barrier_steps.


(* ===================================================================== *)
(** * package zap_engine: what a log entry is written as                  *)
(* ===================================================================== *)

Module zap_engine.

(** zapcore.FieldType *)
Inductive FieldType : Type :=
| UnknownType | ArrayMarshalerType | ObjectMarshalerType | BinaryType
| BoolType | ByteStringType | Complex128Type | Complex64Type
| DurationType | Float64Type | Float32Type
| Int64Type | Int32Type | Int16Type | Int8Type
| StringType | TimeType | TimeFullType
| Uint64Type | Uint32Type | Uint16Type | Uint8Type | UintptrType
| ReflectType | NamespaceType | StringerType | ErrorType | SkipType
| InlineMarshalerType.

(** What is passed to [WithField] as [val any], by its dynamic type.
    Numbers are the mathematical value of the Go number; [uint] is 64
    bits wide; a float is its IEEE 754 double bit pattern (a float32
    after widening). *)
Inductive value : Type :=
| nil_value
| string_value (s : string)
| bool_value (b : bool)
| int_value (n : Z)       (* int, int8, int16, int32, int64 *)
| uint_value (n : Z)      (* uint, uint8, uint16, uint32 *)
| uint64_value (n : Z)
| float_value (bits : Z)  (* float32, float64 *)
| duration_value (n : Z)  (* time.Duration *)
| error_value (e : error)
| other_value (a : any).  (* any other non-nil value *)

Definition MaxInt64 : Z := 2 ^ 63 - 1.

(** The conversions [int64(u)] of a uint64 and [uint64(i)] of an int64. *)
Definition to_int64 (u : Z) : Z := if u >? MaxInt64 then u - 2 ^ 64 else u.
Definition to_uint64 (i : Z) : Z := i mod 2 ^ 64.

(** The struct [Field]; its zero value is [Field{}]. *)
Record Field : Type := mkField {
  Key : string;
  Type_ : FieldType;
  String_ : string;
  Integer : Z;
  Interface : option any
}.

Definition zero_Field : Field := mkField "" UnknownType "" 0 None.

(** [WithField(key, val)] *)
Definition WithField (key : string) (val : value) : Field :=
  match val with
  | string_value v => mkField key StringType v 0 None
  | bool_value v =>
      if v then mkField key BoolType "" 1 None
      else mkField key BoolType "" 0 None
  | int_value v => mkField key Int64Type "" v None
  | uint_value v => mkField key Uint64Type "" (to_int64 v) None
  | uint64_value u =>
      if u >? MaxInt64
      then mkField key Uint64Type "" 0 (Some (mkAny (pretty u)))
      else mkField key Uint64Type "" (to_int64 u) None
  | float_value bits => mkField key Float64Type "" (to_int64 bits) None
  | duration_value v => mkField key DurationType "" v None
  | error_value e => mkField key ErrorType "" 0 (Some (mkAny (Error e)))
  | other_value a => mkField key ReflectType "" 0 (Some a)
  | nil_value => mkField key ReflectType "" 0 None
  end.

(** [WithError(err)] *)
Definition WithError (err : option error) : Field :=
  match err with
  | None => zero_Field
  | Some e => mkField "error" ErrorType "" 0 (Some (mkAny (Error e)))
  end.

(** strconv.FormatBool *)
Definition FormatBool (b : bool) : string := if b then "true" else "false".

Section Rendering.
(** [strconv.FormatFloat(math.Float64frombits(bits), 'f', -1, 64)] and
    [time.Duration(n).String()]. *)
Variable FormatFloat : Z → string.
Variable DurationString : Z → string.

(** [kv(f)] *)
Definition kv (f : Field) : string * string * bool :=
  match Type_ f with
  | StringType =>
      if String.eqb (String_ f) "" then ("", "", false)
      else (Key f, String_ f, true)
  | BoolType => (Key f, FormatBool (Integer f =? 1), true)
  | Int64Type | Int32Type | Int16Type | Int8Type =>
      (Key f, pretty (Integer f), true)
  | Uint64Type | Uint32Type | Uint16Type | Uint8Type =>
      match Interface f with
      | Some a => (Key f, fmt_v a, true)
      | None => (Key f, pretty (Integer f), true)
      end
  | Float64Type => (Key f, FormatFloat (to_uint64 (Integer f)), true)
  | DurationType => (Key f, DurationString (Integer f), true)
  | ErrorType | ReflectType | StringerType =>
      match Interface f with
      | None => ("", "", false)
      | Some a => (Key f, fmt_v a, true)
      end
  | _ =>
      match Interface f with
      | Some a => (Key f, fmt_v a, true)
      | None =>
          if negb (String.eqb (String_ f) "") then (Key f, String_ f, true)
          else if negb (Integer f =? 0) then (Key f, pretty (Integer f), true)
          else ("", "", false)
      end
  end.

(** The loop of [buildMessage]: the builder [sb] and the flag [first]. *)
Fixpoint write_fields (fields : list Field) (sb : string) (first : bool)
    : string * bool :=
  match fields with
  | [] => (sb, first)
  | f :: rest =>
      let '(k, v, ok) := kv f in
      if ok then
        let sb1 := if first then sb +:+ " | {" else sb +:+ ", " in
        let sb2 := if negb (String.eqb k "") then (sb1 +:+ k) +:+ "="
                   else sb1 in
        write_fields rest (sb2 +:+ v) false
      else write_fields rest sb first
  end.

(** [buildMessage(msg, level, fields)] *)
Definition buildMessage (msg level : string) (fields : list Field) : string :=
  match fields with
  | [] => msg
  | _ =>
      let '(sb, first) := write_fields fields msg true in
      let sb' := (sb +:+ ", level->") +:+ level in
      if first then sb' else sb' +:+ "}"
  end.

(** What one field contributes to the line, if anything. *)
Definition shown (f : Field) : option string :=
  let '(k, v, ok) := kv f in
  if ok then Some (if String.eqb k "" then v else k +:+ "=" +:+ v)
  else None.

End Rendering.

(** strings.Join *)
Fixpoint Join (elems : list string) (sep : string) : string :=
  match elems with
  | [] => ""
  | [e] => e
  | e :: rest => e +:+ sep +:+ Join rest sep
  end.

(** logger_wrapper.LogEntry as the caller fills it in; [Start] is
    the instant it points to, in nanoseconds. *)
Record Entry : Type := mkEntry {
  entry_Msg : string;
  entry_Args : value;
  entry_Result : value;
  entry_Error : option error;
  entry_Component : string;
  entry_Method : string;
  entry_Start : option Z
}.

(** The smallest and the largest time.Duration, in nanoseconds. *)
Definition minDuration : Z := - 2 ^ 63.
Definition maxDuration : Z := 2 ^ 63 - 1.

(** [t.Sub(u)] for two instants in nanoseconds: their difference, or
    the largest (smallest) Duration when the difference does not fit
    into one. *)
Definition Sub (t u : Z) : Z :=
  if t - u >? maxDuration then maxDuration
  else if t - u <? minDuration then minDuration
  else t - u.

(** [time.Since(start).Milliseconds()] at the instant [now]. *)
Definition Milliseconds_since (start now : Z) : Z :=
  Z.quot (Sub now start) 1000000.

(** [unpack(entry)], called at the instant [now]. *)
Definition unpack (entry : Entry) (now : Z) : string * list Field :=
  match entry_Start entry with
  | None =>
      (entry_Msg entry,
       [WithField "component" (string_value (entry_Component entry));
        WithField "method" (string_value (entry_Method entry));
        WithField "args" (entry_Args entry);
        WithField "result" (entry_Result entry);
        WithField "latency" (string_value "");
        WithError (entry_Error entry)])
  | Some start =>
      (entry_Msg entry,
       [WithField "component" (string_value (entry_Component entry));
        WithField "method" (string_value (entry_Method entry));
        WithField "args" (entry_Args entry);
        WithField "result" (entry_Result entry);
        WithField "latency"
          (string_value (pretty (Milliseconds_since start now) +:+ " ms"));
        WithError (entry_Error entry)])
  end.

(** What [WriteInfoLog] and its siblings hand to zap, [level] being
    "info", "debug", "warn", "error", "panic" or "fatal". *)
Definition written (FormatFloat DurationString : Z → string)
    (level : string) (entry : Entry) (now : Z) : string :=
  let '(msg, fields) := unpack entry now in
  buildMessage FormatFloat DurationString msg level fields.

End zap_engine.


(* ===================================================================== *)
(** * package application: signals and recovered panics                   *)
(* ===================================================================== *)

Module signals.

Definition SIGTERM : Z := 15.

(** make(chan os.Signal, 1) *)
Definition sig_cap : nat := 1.

(** The part of an [App] that [Start] and [RegisterRecovers] use:
    the buffer of [app.sig], whether the goroutine of [Start] waits
    at [<-app.sig], and whether signal.Notify is in force. *)
Record shell : Type := mkShell {
  sig : list Z;
  reading : bool;
  notified : bool;
  world : World;
  logs : list LogEntry
}.

(** [app.Start(cancel)]: the goroutine reaches the select of GoRecover
    in the world [w]. *)
Definition Start (app_ctx : Context) (w : World) : shell :=
  match utils.GoRecover w app_ctx (λ _, tt) with
  | utils.Skipped entry => mkShell [] false true w [entry]
  | utils.Ran _ => mkShell [] true true w []
  end.

Inductive event : Type :=
| os_signal (s : Z)         (* the runtime delivers a signal *)
| recovered (r : any)       (* the closure of RegisterRecovers, r != nil *)
| goroutine_receives        (* <-app.sig in the goroutine of Start *)
| context_cancelled (c : Context).

Definition panic_entry (r : any) : LogEntry :=
  mkLog ErrorLevel "Panic happened in application" "application"
        "RegisterRecovers" "" (Some (errorString (fmt_v r))).

Definition signal_entry : LogEntry :=
  mkLog InfoLevel "Signal received. Shutting down application..."
        "application" "Start" "" None.

(** One step; [c] is the context that the [cancel] given to Start
    cancels.  [None]: the event cannot happen now (the send or the
    receive has to wait). *)
Definition step (c : Context) (st : shell) (ev : event) : option shell :=
  match ev with
  | os_signal s =>
      (* signal.Notify never blocks: a signal that finds the channel
         full is dropped *)
      if notified st && (length (sig st) <? sig_cap)%nat
      then Some (mkShell (sig st ++ [s]) (reading st) (notified st)
                         (world st) (logs st))
      else Some st
  | recovered r =>
      if (length (sig st) <? sig_cap)%nat
      then Some (mkShell (sig st ++ [SIGTERM]) (reading st) (notified st)
                         (world st) (logs st ++ [panic_entry r]))
      else None
  | goroutine_receives =>
      if reading st then
        match sig st with
        | _ :: rest =>
            Some (mkShell rest false false (cancel c (world st))
                          (logs st ++ [signal_entry]))
        | [] => None
        end
      else None
  | context_cancelled c' =>
      Some (mkShell (sig st) (reading st) (notified st)
                    (cancel c' (world st)) (logs st))
  end.

Fixpoint run (c : Context) (evs : list event) (st : shell) : option shell :=
  match evs with
  | [] => Some st
  | ev :: evs' =>
      match step c st ev with
      | Some st' => run c evs' st'
      | None => None
      end
  end.

Definition is_recovered (ev : event) : bool :=
  match ev with recovered _ => true | _ => false end.

(** How many closures of RegisterRecovers have returned in [evs]. *)
Definition panics_handled (evs : list event) : nat :=
  length (filter (λ ev, is_recovered ev = true) evs).

Definition shutdowns (st : shell) : nat :=
  length (filter (λ e, Method e = "Start") (logs st)).

End signals.

(* ===================================================================== *)
(** * Properties: the shutdown hook list                                  *)
(* ===================================================================== *)

Section ShutdownFacts.
Import application.
Context {W : Type}.
Implicit Types (l regs : list (shutdown W)) (h new : shutdown W).
Implicit Types (app : App W) (rt : Runtime W).

(** The head test of RegisterShutdown is the first turn of its loop. *)
Lemma insert_shutdown_loop new l :
  insert_shutdown new l = insert_after_current new l.
Proof.
  destruct l as [|node rest]; simpl; [reflexivity|].
  destruct (Z.gtb_spec (priority node) (priority new)),
           (Z.leb_spec (priority node) (priority new)); try lia; reflexivity.
Qed.

Lemma ascending_strong l :
  ascending l → StronglySorted (λ a b, priority a <= priority b) l.
Proof.
  apply Sorted_StronglySorted. intros a b c; lia.
Qed.

(** Where the new node lands in an ascending list: behind every node
    of priority at most its own, before every node of greater one. *)
Lemma insert_shutdown_split new l :
  ascending l →
  ∃ l1 l2, l = l1 ++ l2 ∧ insert_shutdown new l = l1 ++ new :: l2 ∧
           Forall (λ h, priority h <= priority new) l1 ∧
           Forall (λ h, priority new < priority h) l2.
Proof.
  rewrite insert_shutdown_loop. intros Hs%ascending_strong.
  induction Hs as [|a l Hs IH Ha]; simpl.
  - exists [], []. repeat split; constructor.
  - destruct (Z.leb_spec (priority a) (priority new)) as [Hle|Hgt].
    + destruct IH as (l1 & l2 & -> & -> & H1 & H2).
      exists (a :: l1), l2. repeat split; auto.
    + exists [], (a :: l). repeat split; auto.
      constructor; [lia|].
      eapply Forall_impl; [exact Ha|]. simpl; intros; lia.
Qed.

Lemma ascending_app_cons l1 l2 new :
  ascending (l1 ++ l2) →
  Forall (λ h, priority h <= priority new) l1 →
  Forall (λ h, priority new < priority h) l2 →
  ascending (l1 ++ new :: l2).
Proof.
  intros Hs H1 H2.
  apply StronglySorted_Sorted.
  apply ascending_strong in Hs.
  induction l1 as [|a l1 IH]; simpl in *.
  - constructor; [exact Hs|].
    eapply Forall_impl; [exact H2|]. simpl; intros; lia.
  - inversion Hs as [|? ? Hs' Ha]; subst.
    inversion H1 as [|? ? Hle H1']; subst.
    constructor; [apply IH; assumption|].
    apply Forall_app in Ha as [Ha1 Ha2].
    apply Forall_app; split; [exact Ha1|].
    constructor; [lia | exact Ha2].
Qed.

Lemma insert_shutdown_ascending new l :
  ascending l → ascending (insert_shutdown new l).
Proof.
  intros Hs. destruct (insert_shutdown_split new l Hs)
    as (l1 & l2 & -> & -> & H1 & H2).
  by apply ascending_app_cons.
Qed.

Lemma insert_shutdown_perm new l :
  ascending l → insert_shutdown new l ≡ₚ l ++ [new].
Proof.
  intros Hs. destruct (insert_shutdown_split new l Hs)
    as (l1 & l2 & -> & -> & _ & _).
  rewrite <- app_assoc. apply Permutation_app_head.
  rewrite <- Permutation_cons_append. reflexivity.
Qed.

Lemma same_priority_none p l :
  Forall (λ h, p < priority h) l → same_priority p l = [].
Proof.
  unfold same_priority. induction 1 as [|a l Ha _ IH]; [reflexivity|].
  rewrite filter_cons_False by lia. exact IH.
Qed.

(** Ties keep their registration order. *)
Lemma insert_shutdown_stable new l p :
  ascending l →
  same_priority p (insert_shutdown new l) = same_priority p (l ++ [new]).
Proof.
  intros Hs. destruct (insert_shutdown_split new l Hs)
    as (l1 & l2 & -> & -> & H1 & H2).
  unfold same_priority.
  rewrite !filter_app, !filter_cons, filter_nil.
  destruct (decide (priority new = p)) as [<-|Hne].
  - fold (same_priority (priority new) l2).
    rewrite (same_priority_none _ _ H2). by rewrite app_nil_r.
  - by rewrite !app_nil_r.
Qed.

Lemma register_all_list regs app rt :
  shutdown_list (fst (register_all regs app rt))
  = reg_list regs (shutdown_list app).
Proof.
  unfold register_all, reg_list.
  change (shutdown_list app) with (shutdown_list (fst (app, rt))).
  generalize (app, rt). clear app rt.
  induction regs as [|h regs IH]; intros st; [reflexivity|].
  simpl. rewrite IH. simpl. destruct h; reflexivity.
Qed.

Lemma register_all_supervisors regs app rt :
  leaderSupervisors (fst (register_all regs app rt)) = leaderSupervisors app.
Proof.
  unfold register_all.
  change (leaderSupervisors app) with (leaderSupervisors (fst (app, rt))).
  generalize (app, rt). clear app rt.
  induction regs as [|h regs IH]; intros st; [reflexivity|].
  simpl. rewrite IH. reflexivity.
Qed.

Lemma reg_list_snoc regs h l0 :
  reg_list (regs ++ [h]) l0 = insert_shutdown h (reg_list regs l0).
Proof. unfold reg_list. by rewrite fold_left_app. Qed.

Lemma reg_list_sorted_stable regs :
  ascending (reg_list regs []) ∧
  reg_list regs [] ≡ₚ regs ∧
  ∀ p, same_priority p (reg_list regs []) = same_priority p regs.
Proof.
  induction regs as [|h regs (Hs & Hp & Hst)] using rev_ind.
  - repeat split; [constructor | reflexivity].
  - rewrite reg_list_snoc. split; [|split].
    + by apply insert_shutdown_ascending.
    + rewrite insert_shutdown_perm by done. by rewrite Hp.
    + intros p. rewrite insert_shutdown_stable by done.
      unfold same_priority in *. by rewrite !filter_app, Hst.
Qed.

(** What a shutdown pass does to the runtime. *)
Lemma drain_spec l (rt : Runtime W) :
  drain l rt =
  ([], mkRuntime (fold_left (λ u h, shutdownFunc h u) l (user rt))
                 (world rt)
                 (logs rt ++ map executed_entry l)).
Proof.
  revert rt. induction l as [|h l IH]; intros rt; simpl.
  - destruct rt; simpl. by rewrite app_nil_r.
  - rewrite IH. simpl. by rewrite <- app_assoc.
Qed.

Lemma stop_supervisors_logs (sups : list (LeaderSupervisor W)) (rt : Runtime W) :
  logs (snd (stop_supervisors sups rt))
  = logs rt ++ map supervisor_stopped_entry sups.
Proof.
  revert rt. induction sups as [|s sups IH]; intros rt.
  - simpl. by rewrite app_nil_r.
  - cbn [stop_supervisors map].
    destruct (stop_supervisor s rt) as [s' rt'] eqn:E1.
    specialize (IH rt').
    destruct (stop_supervisors sups rt') as [r' rt''] eqn:E2.
    simpl in *. rewrite IH.
    unfold stop_supervisor in E1. inversion E1; subst; simpl.
    by rewrite <- app_assoc.
Qed.

Lemma filter_executed_entries l :
  filter (λ e, Method e = "shutdownAllAndDeleteAllCanceled")
         (map (@executed_entry W) l) = map executed_entry l.
Proof.
  induction l as [|h l IH]; [reflexivity|].
  simpl. rewrite filter_cons_True by reflexivity. by rewrite IH.
Qed.

Lemma filter_supervisor_entries (sups : list (LeaderSupervisor W)) :
  filter (λ e, Method e = "shutdownAllAndDeleteAllCanceled")
         (map supervisor_stopped_entry sups) = [].
Proof.
  induction sups as [|s sups IH]; [reflexivity|].
  simpl. rewrite filter_cons_False by (simpl; discriminate). exact IH.
Qed.

(** Stop runs exactly the hooks of the list, head first. *)
Lemma App_Stop_spec (app : App W) (rt : Runtime W) :
  let rt1 := snd (stop_supervisors (leaderSupervisors app) rt) in
  let res := App_Stop app rt in
  shutdown_list (fst res) = [] ∧
  user (snd res) = fold_left (λ u h, shutdownFunc h u) (shutdown_list app) (user rt1) ∧
  executed rt (snd res) = map executed_entry (shutdown_list app).
Proof.
  simpl. unfold App_Stop, shutdownAllAndDeleteAllCanceled, executed.
  pose proof (stop_supervisors_logs (leaderSupervisors app) rt) as Hl.
  destruct (stop_supervisors (leaderSupervisors app) rt) as [sups rt1].
  simpl in *. rewrite drain_spec. simpl. repeat split.
  rewrite Hl, <- !app_assoc, drop_app_length.
  rewrite !filter_app, filter_supervisor_entries, filter_executed_entries.
  rewrite filter_cons_False by (simpl; discriminate).
  reflexivity.
Qed.

Lemma stop_supervisors_idle (sups : list (LeaderSupervisor W)) rt :
  Forall (λ s, Working s = false) (fst (stop_supervisors sups rt)) ∧
  (Forall (λ s, Working s = false) sups →
   user (snd (stop_supervisors sups rt)) = user rt).
Proof.
  revert rt. induction sups as [|s sups IH]; intros rt.
  - simpl. split; [constructor | reflexivity].
  - cbn [stop_supervisors].
    destruct (stop_supervisor s rt) as [s' rt'] eqn:E1.
    specialize (IH rt').
    destruct (stop_supervisors sups rt') as [r' rt''] eqn:E2.
    unfold stop_supervisor in E1. inversion E1; subst; clear E1.
    simpl in *. destruct IH as [IH1 IH2]. split.
    + constructor; [reflexivity | exact IH1].
    + intros Hw. inversion Hw as [|? ? Hs Hrest]; subst.
      rewrite IH2 by assumption. by rewrite Hs.
Qed.

End ShutdownFacts.

(** C2. Whatever hooks are registered, in whatever order, the hook list
    is ascending in priority, holds exactly the registered hooks, and
    keeps hooks of equal priority in registration order; [Stop] then
    runs the hooks in the order of the list (its "executed" log lines and
    the composition of the closures both follow the list).  For the
    priorities 50, 10, 200, 10 the order of execution is: first
    priority-10 hook, second priority-10 hook, priority 50, priority
    200. *)
Theorem shutdown_hooks_run_in_priority_order :
  (∀ (W : Type) (regs : list (application.shutdown W)) (c : Context)
     (sups : list (application.LeaderSupervisor W))
     (rt rt' : application.Runtime W),
     let app := fst (application.register_all regs
                       (application.mkApp c [] sups) rt) in
     let hooks := application.shutdown_list app in
     let stopped := snd (application.App_Stop app rt') in
     application.ascending hooks ∧
     hooks ≡ₚ regs ∧
     (∀ p, application.same_priority p hooks = application.same_priority p regs) ∧
     application.executed rt' stopped = map application.executed_entry hooks ∧
     application.user stopped =
       fold_left (λ u h, application.shutdownFunc h u) hooks
                 (application.user (snd (application.stop_supervisors sups rt'))))
  ∧
  (let app := fst (application.register_all application.scenario_hooks
                     (application.NewApp Background)
                     application.fresh_runtime) in
   map application.priority (application.shutdown_list app) = [10; 10; 50; 200] ∧
   application.user (snd (application.App_Stop app application.fresh_runtime))
   = ["p10-first"; "p10-second"; "p50"; "p200"]).
Proof.
  split.
  - intros W regs c sups rt rt' app hooks stopped.
    assert (Hhooks : hooks = application.reg_list regs []).
    { subst hooks app. by rewrite register_all_list. }
    assert (Hsups : application.leaderSupervisors app = sups).
    { subst app. by rewrite register_all_supervisors. }
    destruct (reg_list_sorted_stable regs) as (Hs & Hp & Hst).
    destruct (App_Stop_spec app rt') as (_ & Hu & He).
    rewrite Hsups in Hu. rewrite Hhooks.
    repeat split; try assumption.
    + subst stopped. rewrite He. by rewrite <- Hhooks.
    + subst stopped. rewrite Hu. by rewrite <- Hhooks.
  - vm_compute. split; reflexivity.
Qed.

(** C8. One run of the shutdown sequence leaves the hook list empty; a
    second run, directly or through [Stop], executes no hook and leaves
    what the hooks act on as it was. *)
Theorem shutdown_sequence_drains_the_list :
  ∀ (W : Type) (app : application.App W) (rt rt2 : application.Runtime W),
    let app1 := fst (application.shutdownAllAndDeleteAllCanceled app rt) in
    let app2 := fst (application.App_Stop app rt) in
    application.shutdown_list app1 = [] ∧
    application.shutdownAllAndDeleteAllCanceled app1 rt2 = (app1, rt2) ∧
    application.shutdown_list app2 = [] ∧
    application.executed rt2 (snd (application.App_Stop app2 rt2)) = [] ∧
    application.user (snd (application.App_Stop app2 rt2)) = application.user rt2.
Proof.
  intros W app rt rt2 app1 app2.
  assert (H1 : application.shutdown_list app1 = []).
  { subst app1. unfold application.shutdownAllAndDeleteAllCanceled.
    rewrite drain_spec. reflexivity. }
  assert (H2 : application.shutdown_list app2 = []).
  { subst app2. apply (App_Stop_spec app rt). }
  assert (Hidle : Forall (λ s, application.Working s = false)
                         (application.leaderSupervisors app2)).
  { subst app2. unfold application.App_Stop,
      application.shutdownAllAndDeleteAllCanceled.
    pose proof (proj1 (stop_supervisors_idle
                         (application.leaderSupervisors app) rt)) as Hi.
    destruct (application.stop_supervisors
                (application.leaderSupervisors app) rt) as [sups rt1].
    rewrite drain_spec. exact Hi. }
  repeat split; try assumption.
  - unfold application.shutdownAllAndDeleteAllCanceled.
    rewrite H1. simpl. destruct app1; simpl in *; subst. reflexivity.
  - destruct (App_Stop_spec app2 rt2) as (_ & _ & He).
    rewrite He, H2. reflexivity.
  - destruct (App_Stop_spec app2 rt2) as (_ & Hu & _).
    rewrite Hu, H2. simpl.
    by apply stop_supervisors_idle.
Qed.

(* ===================================================================== *)
(** * Properties: the Redis lock                                          *)
(* ===================================================================== *)

Section LockFacts.
Import locker.

Lemma eval_unlock_mismatch w ctx key token c :
  GET key (db c) ≠ Some token →
  ∃ r, Eval w ctx unlockScript key token 0 c = (r, c) ∧ r ≠ inl 1.
Proof.
  intros Hne. unfold Eval.
  destruct (Err w ctx); [eexists; split; [reflexivity | discriminate]|].
  destruct (reachable c) eqn:Hr;
    [|eexists; split; [reflexivity | discriminate]].
  unfold unlockScript. rewrite decide_False by exact Hne.
  exists (inl 0). split; [|discriminate].
  destruct c; simpl in *; by subst.
Qed.

Lemma eval_extend_mismatch w ctx key token ms c :
  GET key (db c) ≠ Some token →
  ∃ r, Eval w ctx extendTTLScript key token ms c = (r, c) ∧ r ≠ inl 1.
Proof.
  intros Hne. unfold Eval.
  destruct (Err w ctx); [eexists; split; [reflexivity | discriminate]|].
  destruct (reachable c) eqn:Hr;
    [|eexists; split; [reflexivity | discriminate]].
  unfold extendTTLScript. rewrite decide_False by exact Hne.
  exists (inl 0). split; [|discriminate].
  destruct c; simpl in *; by subst.
Qed.

Lemma result_of_not_one r c :
  r ≠ inl 1 → ok (result_of (r, c)) = false ∧ after (result_of (r, c)) = mkLocker c.
Proof.
  intros Hr. destruct r as [n|msg]; simpl; [|done].
  split; [|done]. unfold ok; simpl.
  apply Z.eqb_neq. congruence.
Qed.

End LockFacts.

(** C4. Unlock and ExtendLockTTL called with a token that is not the
    value stored under the key (another holder's record, or no record)
    return false and leave the locker's store exactly as it was, record
    and time to live included.  Hence a call that returns true, or that
    changes the store, was made with the stored token: the matching
    case is the only one that deletes or extends the record. *)
Theorem unlock_and_extend_are_fenced :
  ∀ (w : World) (ctx : Context) (key token : string) (expiration : Z)
    (l : locker.RedisLocker),
    let unlocked := locker.Unlock w ctx key token l in
    let extended := locker.ExtendLockTTL w ctx key token expiration l in
    ((locker.holder <$> locker.stored key l) ≠ Some token →
     locker.ok unlocked = false ∧ locker.after unlocked = l ∧
     locker.ok extended = false ∧ locker.after extended = l) ∧
    (locker.ok unlocked = true ∨ locker.after unlocked ≠ l →
     (locker.holder <$> locker.stored key l) = Some token) ∧
    (locker.ok extended = true ∨ locker.after extended ≠ l →
     (locker.holder <$> locker.stored key l) = Some token).
Proof.
  intros w ctx key token expiration l unlocked extended.
  assert (Hfenced : (locker.holder <$> locker.stored key l) ≠ Some token →
     locker.ok unlocked = false ∧ locker.after unlocked = l ∧
     locker.ok extended = false ∧ locker.after extended = l).
  { subst unlocked extended. destruct l as [c]. intros Hne.
    unfold locker.stored in Hne. simpl in Hne.
    unfold locker.Unlock, locker.ExtendLockTTL, locker.RedisLocker_is_Locker,
      locker.RedisLocker_Unlock, locker.RedisLocker_ExtendLockTTL.
    cbn [locker.redisClient].
    destruct (eval_unlock_mismatch w ctx (locker.lockKeyPrefix +:+ key)
                token c Hne) as (r1 & -> & Hr1).
    destruct (eval_extend_mismatch w ctx (locker.lockKeyPrefix +:+ key) token
                (locker.Milliseconds expiration) c Hne) as (r2 & -> & Hr2).
    destruct (result_of_not_one r1 c Hr1) as [-> ->].
    destruct (result_of_not_one r2 c Hr2) as [-> ->].
    done. }
  split; [exact Hfenced|].
  split; intros Hchg;
    destruct (decide ((locker.holder <$> locker.stored key l) = Some token))
      as [Heq|Hne]; try exact Heq;
    destruct (Hfenced Hne) as (H1 & H2 & H3 & H4);
    destruct Hchg as [Hok|Hst]; congruence.
Qed.

(** A stale holder ("old") against the record of the current holder
    ("new"): both calls are refused and the record stays. *)
Lemma unlock_and_extend_are_fenced_witness :
  let l := locker.mkLocker (locker.mkClient
             {[ locker.lockKeyPrefix +:+ "watchdog_cron" := locker.mkRecord "new" 30000 ]}
             true) in
  locker.ok (locker.Unlock empty_world Background "watchdog_cron" "old" l) = false ∧
  locker.after (locker.Unlock empty_world Background "watchdog_cron" "old" l) = l ∧
  locker.ok (locker.ExtendLockTTL empty_world Background "watchdog_cron" "old" 30000000000 l) = false ∧
  locker.after (locker.ExtendLockTTL empty_world Background "watchdog_cron" "old" 30000000000 l) = l.
Proof.
  intros l.
  apply (proj1 (unlock_and_extend_are_fenced empty_world Background
                  "watchdog_cron" "old" 30000000000 l)).
  vm_compute. discriminate.
Defined.


(* ===================================================================== *)
(** * Properties: contexts                                                *)
(* ===================================================================== *)

Section ContextFacts.

Lemma Done_later w w' c : later w w' → Done w c = true → Done w' c = true.
Proof.
  intros Hl. unfold Done. induction c as [|id p IH|id d p IH]; simpl; [done| |].
  all: destruct (finished w !! id) as [e|] eqn:E;
    [by rewrite (Hl _ _ E)|].
  all: intros H; destruct (finished w' !! id); [done | by apply IH].
Qed.

Lemma later_finish e c w : later w (finish e c w).
Proof.
  unfold finish, later. destruct c as [|id p|id d p]; simpl; [done| |].
  all: destruct (Done w _) eqn:HD; [done|]; simpl.
  all: intros i e' Hi; destruct (decide (id = i)) as [->|Hne];
    [|by rewrite lookup_insert_ne].
  all: unfold Done in HD; simpl in HD; by rewrite Hi in HD.
Qed.

Lemma Done_cancel_mono c c' w : Done w c' = true → Done (cancel c w) c' = true.
Proof. apply Done_later, later_finish. Qed.

(** Calling the cancel function finishes the context. *)
Lemma Done_cancel_self id p w : Done (cancel (WithCancelCtx id p) w) (WithCancelCtx id p) = true.
Proof.
  unfold cancel, finish. simpl.
  destruct (Done w (WithCancelCtx id p)) eqn:HD; [exact HD|].
  unfold Done. simpl. by rewrite lookup_insert_eq.
Qed.

Lemma extends_refl w : extends w w.
Proof. by split. Qed.

Lemma extends_trans w1 w2 w3 : extends w1 w2 → extends w2 w3 → extends w1 w3.
Proof.
  intros [H1 H1'] [H2 H2']. split; [lia|].
  intros i Hi. rewrite H2' by lia. by apply H1'.
Qed.

(** A context made in [w] does not see what happens to later ones. *)
Lemma Err_extends w w' c : known w c → extends w w' → Err w' c = Err w c.
Proof.
  intros Hk [_ He]. induction c as [|id p IH|id d p IH]; simpl; [done| |].
  all: inversion Hk as [|? ? Hid Hk']; subst.
  all: rewrite (He _ Hid), IH by exact Hk'; done.
Qed.

Lemma known_extends w w' c : known w c → extends w w' → known w' c.
Proof.
  intros Hk [Hn _]. unfold known in *.
  eapply Forall_impl; [exact Hk|]. simpl. intros; lia.
Qed.

Lemma finish_other e c w i :
  ctx_id c ≠ Some i → finished (finish e c w) !! i = finished w !! i.
Proof.
  unfold finish. destruct (ctx_id c) as [id|]; [|done].
  intros Hne. destruct (Done w c); [done|]. simpl.
  apply lookup_insert_ne. congruence.
Qed.

Lemma next_finish e c w : next (finish e c w) = next w.
Proof.
  unfold finish. destruct (ctx_id c); [|done]. by destruct (Done w c).
Qed.

(** Making a timeout context and cancelling it again touches nothing
    that existed before. *)
Lemma WithTimeout_extends p d w :
  extends w (cancel (WithTimeout p d w).1 (WithTimeout p d w).2).
Proof.
  unfold WithTimeout, cancel. cbn [fst snd]. split.
  - destruct (d <=? 0); rewrite ?next_finish; simpl; lia.
  - intros i Hi. rewrite finish_other by (simpl; intros [= Heq]; lia).
    destruct (d <=? 0); [|done].
    rewrite finish_other by (simpl; intros [= Heq]; lia). done.
Qed.

End ContextFacts.

(* ===================================================================== *)
(** * Properties: the leader-election watchdog                            *)
(* ===================================================================== *)

Section WatchdogFacts.
Import watchdog.

Lemma flip_flip x : x = TakenAcquire ∨ x = LostAcquire → flip (flip x) = x.
Proof. by intros [-> | ->]. Qed.

Lemma flip_event x :
  x = TakenAcquire ∨ x = LostAcquire → flip x = TakenAcquire ∨ flip x = LostAcquire.
Proof. intros [-> | ->]; [by right | by left]. Qed.

Lemma alternates_snoc x l e :
  x = TakenAcquire ∨ x = LostAcquire →
  alternates_from x (l ++ [e]) = alternates_from x l && (e =? turn x (length l)).
Proof.
  revert x. induction l as [|a l IH]; intros x Hx; simpl.
  - unfold turn. simpl. by rewrite andb_true_r.
  - rewrite IH by by apply flip_event. rewrite andb_assoc. f_equal. f_equal.
    unfold turn. rewrite Nat.even_succ, <- Nat.negb_even.
    destruct (Nat.even (length l)); simpl; [done | by rewrite flip_flip].
Qed.

Lemma alternates_prefix x l1 l2 :
  alternates_from x (l1 ++ l2) = true → alternates_from x l1 = true.
Proof.
  revert x. induction l1 as [|a l1 IH]; intros x; simpl; [done|].
  intros [-> H]%andb_true_iff. by rewrite (IH _ H).
Qed.


Lemma step_still_done s l s' :
  step s l = Some s' → Done (world s) (ctx s) = true → Done (world s') (ctx s') = true.
Proof.
  unfold step, become_leader, resume, move, set_world, set_watcher.
  intros H HD. destruct l, (at_pc s); simpl in H;
    repeat case_match; simplify_eq; simpl; try done.
  all: by apply Done_cancel_mono.
Qed.

Lemma step_live s l s' : step s l = Some s' → live s' → live s.
Proof.
  unfold live. intros H Hl. destruct (Done (world s) (ctx s)) eqn:HD; [|done].
  by rewrite (step_still_done _ _ _ H HD) in Hl.
Qed.

Lemma offered_move s p ldr os :
  offered (move s p ldr os)
  = offered s ++ omap (λ o, match o with Offered e => Some e | _ => None end) os.
Proof. unfold offered, move. simpl. by rewrite omap_app. Qed.

Lemma delivered_move s p ldr os :
  delivered (move s p ldr os)
  = delivered s ++ omap (λ o, match o with Sent e => Some e | _ => None end) os.
Proof. unfold delivered, move. simpl. by rewrite omap_app. Qed.

Lemma offered_resume s k os buf :
  offered (resume s k os buf)
  = offered s ++ omap (λ o, match o with Offered e => Some e | _ => None end) os.
Proof.
  unfold offered, resume. destruct k; simpl; rewrite !omap_app; simpl;
    by rewrite ?app_nil_r.
Qed.

Lemma delivered_resume s k os buf :
  delivered (resume s k os buf)
  = delivered s ++ omap (λ o, match o with Sent e => Some e | _ => None end) os.
Proof.
  unfold delivered, resume. destruct k; simpl; rewrite !omap_app; simpl;
    by rewrite ?app_nil_r.
Qed.

Lemma pending_resume s k os buf : pending (resume s k os buf) = [].
Proof. by destruct k. Qed.

Lemma resume_not_starting s k os buf :
  ¬ (at_pc (resume s k os buf) = Spawned ∨ at_pc (resume s k os buf) = FirstLock).
Proof. destruct k; simpl; intros [?|?]; discriminate. Qed.

Lemma live_resume s k os buf : live (resume s k os buf) ↔ live s.
Proof. by destruct k. Qed.

End WatchdogFacts.

Section WatchdogInvariant.
Import watchdog.

(** Environment moves leave the goroutine's record alone. *)
Lemma consistent_same_history s s' :
  history s' = history s → at_pc s' = at_pc s → isLeader s' = isLeader s →
  (live s' → live s) → consistent s → consistent s'.
Proof.
  intros Hh Hpc Hl Hlive (Halt & Hldr & Hstart & settled & Hoff & Hsub & Hdel).
  unfold consistent, offered, delivered, pending in *.
  rewrite Hh, Hpc, Hl. repeat split; try done.
  exists settled. repeat split; auto.
Qed.

(** A move that offers nothing and keeps the flag. *)
Lemma consistent_quiet s p ldr os :
  omap (λ o, match o with Offered e => Some e | _ => None end) os = [] →
  omap (λ o, match o with Sent e => Some e | _ => None end) os = [] →
  pending s = [] → (∀ e k, p ≠ Sending e k) →
  ldr = isLeader s → (p = Spawned ∨ p = FirstLock → ldr = false) →
  consistent s → consistent (move s p ldr os).
Proof.
  intros Ho Hs Hp Hnp -> Hst (Halt & Hldr & Hstart & settled & Hoff & Hsub & Hdel).
  unfold consistent.
  rewrite offered_move, delivered_move, Ho, Hs, !app_nil_r.
  assert (Hpend : pending (move s p (isLeader s) os) = []).
  { unfold pending; simpl. destruct p; try done. by destruct (Hnp event k). }
  rewrite Hpend. rewrite Hp in Hoff. simpl.
  repeat split; try done.
  exists settled. repeat split; auto.
Qed.

(** Flipping the flag and offering the matching event. *)
Lemma consistent_offer s ldr c k :
  pending s = [] → isLeader s = negb ldr →
  consistent s →
  consistent (move s (Sending (if ldr then TakenAcquire else LostAcquire) k) ldr
                   [Called c; Offered (if ldr then TakenAcquire else LostAcquire)]).
Proof.
  intros Hp Hflag (Halt & Hldr & Hstart & settled & Hoff & Hsub & Hdel).
  unfold consistent. rewrite offered_move, delivered_move. simpl.
  rewrite app_nil_r. rewrite Hp, app_nil_r in Hoff.
  split; [|split; [|split]].
  - unfold alternating in *. rewrite alternates_snoc by by left.
    rewrite Halt. simpl. unfold turn. rewrite <- Nat.negb_odd, <- Hldr, Hflag.
    by destruct ldr.
  - rewrite length_app. simpl. rewrite Nat.add_1_r, Nat.odd_succ, <- Nat.negb_odd.
    rewrite <- Hldr, Hflag. by destruct ldr.
  - intros [?|?]; discriminate.
  - exists (offered s). unfold pending; simpl. rewrite Hoff.
    repeat split; auto.
Qed.

(** The pending event goes through. *)
Lemma consistent_sent s event k :
  at_pc s = Sending event k → consistent s →
  consistent (resume s k [Sent event] (watcher s ++ [event])).
Proof.
  intros Hpc (Halt & Hldr & Hstart & settled & Hoff & Hsub & Hdel).
  unfold consistent.
  rewrite offered_resume, delivered_resume, pending_resume. simpl.
  rewrite !app_nil_r. unfold pending in Hoff. rewrite Hpc in Hoff.
  split; [exact Halt|]. split; [destruct k; exact Hldr|].
  split; [intros Hs; by destruct (resume_not_starting _ _ _ _ Hs)|].
  exists (settled ++ [event]). split; [by rewrite app_nil_r|]. split.
  - by apply sublist_app.
  - intros Hl%live_resume. by rewrite Hdel.
Qed.

(** The pending event is skipped under a finished context. *)
Lemma consistent_skipped s event k :
  at_pc s = Sending event k → Done (world s) (ctx s) = true → consistent s →
  consistent (resume s k [] (watcher s)).
Proof.
  intros Hpc HD (Halt & Hldr & Hstart & settled & Hoff & Hsub & Hdel).
  unfold consistent.
  rewrite offered_resume, delivered_resume, pending_resume. simpl.
  rewrite !app_nil_r. unfold pending in Hoff. rewrite Hpc in Hoff.
  split; [exact Halt|]. split; [destruct k; exact Hldr|].
  split; [intros Hs; by destruct (resume_not_starting _ _ _ _ Hs)|].
  exists (settled ++ [event]). split; [by rewrite app_nil_r|]. split.
  - by apply sublist_inserts_r.
  - intros Hl%live_resume. unfold live in Hl. congruence.
Qed.

Lemma step_consistent s l s' : consistent s → step s l = Some s' → consistent s'.
Proof.
  intros Hc H.
  assert (Hlive : live s' → live s) by apply (step_live _ _ _ H).
  pose proof Hc as (_ & Hldr & Hstart & _).
  unfold step in H.
  destruct l; [| |destruct (at_pc s) eqn:Hpc; simpl in H; try discriminate..].
  - (* stop *)
    assert (s' = set_world s (cancel (ctx s) (world s)))
      by (destruct (at_pc s); congruence).
    subst s'. by apply (consistent_same_history s).
  - (* receive *)
    assert (∃ buf, s' = set_watcher s buf) as [buf ->].
    { destruct (at_pc s), (watcher s) as [|e buf]; simplify_eq; by eexists. }
    by apply (consistent_same_history s).
  - (* scheduled *)
    assert (Hp : pending s = []) by (unfold pending; by rewrite Hpc).
    assert (Hf : false = isLeader s) by (symmetry; auto).
    destruct (utils.GoRecover _ _ _); simplify_eq;
      apply consistent_quiet; try done.
  - (* first_lock *)
    assert (Hp : pending s = []) by (unfold pending; by rewrite Hpc).
    assert (Hf : isLeader s = false) by auto.
    destruct ok; simplify_eq.
    + by apply (consistent_offer s true).
    + apply consistent_quiet; try done; intros [?|?]; discriminate.
  - (* select_done *)
    assert (Hp : pending s = []) by (unfold pending; by rewrite Hpc).
    destruct (Done (world s) (ctx s)); [|discriminate].
    destruct (isLeader s) eqn:Hl; simplify_eq; [|done].
    by apply (consistent_offer s false).
  - (* select_tick *)
    assert (Hp : pending s = []) by (unfold pending; by rewrite Hpc).
    destruct (isLeader s) eqn:Hl, ok; simpl in H; simplify_eq.
    + apply consistent_quiet; try done; intros [?|?]; discriminate.
    + by apply (consistent_offer s false).
    + by apply (consistent_offer s true).
    + apply consistent_quiet; try done; intros [?|?]; discriminate.
  - (* send_event *)
    destruct (_ <? _)%nat; simplify_eq. by apply consistent_sent.
  - (* send_done *)
    destruct (Done (world s) (ctx s)) eqn:HD; simplify_eq.
    by apply (consistent_skipped s event).
Qed.

Lemma Elect_consistent rwl c v w s : Elect rwl c v w = Some s → consistent s.
Proof.
  unfold Elect. destruct (decide _); [discriminate|].
  intros [= <-]. unfold consistent, offered, delivered, pending, alternating. simpl.
  repeat split; try done. exists []. repeat split; done.
Qed.

Lemma run_consistent tr s s' : consistent s → run tr s = Some s' → consistent s'.
Proof.
  revert s. induction tr as [|l tr IH]; intros s Hc; simpl.
  - by intros [= <-].
  - destruct (step s l) as [s1|] eqn:Hs; [|discriminate].
    apply IH. by apply (step_consistent s l).
Qed.

End WatchdogInvariant.

Section WatchdogRuns.
Import watchdog.

Lemma run_app t1 t2 s : run (t1 ++ t2) s = run t1 s ≫= run t2.
Proof.
  revert s. induction t1 as [|l t1 IH]; intros s; simpl; [done|].
  destruct (step s l); simpl; [apply IH | done].
Qed.

(** The environment does not touch what the goroutine owns. *)
Lemma environment_run env s s' :
  forallb environment env = true → run env s = Some s' →
  at_pc s' = at_pc s ∧ isLeader s' = isLeader s ∧ history s' = history s ∧
  closed s' = closed s ∧ cfg s' = cfg s ∧ value s' = value s.
Proof.
  revert s. induction env as [|l env IH]; intros s; simpl.
  - by intros _ [= <-].
  - intros [Hl Henv]%andb_true_iff.
    destruct (step s l) as [s1|] eqn:Hs; [|discriminate].
    intros Hrun. destruct (IH _ Henv Hrun) as (-> & -> & -> & -> & -> & ->).
    unfold step in Hs. destruct l; try discriminate.
    + destruct (at_pc s) eqn:E; simplify_eq; by repeat split.
    + destruct (at_pc s) eqn:E, (watcher s); simplify_eq; by repeat split.
Qed.

End WatchdogRuns.

(** C1 (as the code has it).  When the loop's select takes the
    cancellation branch while the flag is set, the goroutine calls
    Unlock with a background context, clears the flag and offers a
    final LostAcquire; whichever way that send ends, the goroutine then
    returns and the channel is closed.  The event is put on the channel
    only if the send's select takes the channel case, which needs room
    in the buffer; under the cancelled context the send can always be
    skipped, and with a full buffer it can only be skipped. *)
Theorem cancelled_leader_unlocks_offers_and_closes :
  ∀ s : watchdog.state,
    watchdog.at_pc s = watchdog.Selecting → watchdog.isLeader s = true →
    (∀ (env : list watchdog.label) (l : watchdog.label) (s' : watchdog.state),
       forallb watchdog.environment env = true →
       watchdog.environment l = false →
       watchdog.run (watchdog.select_done :: env ++ [l]) s = Some s' →
       watchdog.at_pc s' = watchdog.Returned ∧
       watchdog.closed s' = true ∧
       watchdog.isLeader s' = false ∧
       ((l = watchdog.send_event ∧
         watchdog.history s' = watchdog.history s ++
           [watchdog.Called (watchdog.unlock_call s);
            watchdog.Offered watchdog.LostAcquire;
            watchdog.Sent watchdog.LostAcquire; watchdog.Closed]) ∨
        (l = watchdog.send_done ∧
         watchdog.history s' = watchdog.history s ++
           [watchdog.Called (watchdog.unlock_call s);
            watchdog.Offered watchdog.LostAcquire; watchdog.Closed]))) ∧
    (Done (watchdog.world s) (watchdog.ctx s) = true →
     is_Some (watchdog.run [watchdog.select_done; watchdog.send_done] s)) ∧
    (length (watchdog.watcher s) = watchdog.watcher_cap →
     watchdog.run [watchdog.select_done; watchdog.send_event] s = None).
Proof.
  intros s Hpc Hldr. split; [|split].
  - intros env l s' Henv Hl Hrun.
    cbn [watchdog.run] in Hrun. unfold watchdog.step in Hrun at 1.
    rewrite Hpc, Hldr in Hrun.
    destruct (Done (watchdog.world s) (watchdog.ctx s)); [|discriminate].
    set (s1 := watchdog.move s _ _ _) in Hrun.
    rewrite run_app in Hrun.
    destruct (watchdog.run env s1) as [s2|] eqn:Henvrun; [|discriminate].
    cbn [mbind option_bind watchdog.run] in Hrun.
    destruct (environment_run env s1 s2 Henv Henvrun)
      as (Hpc2 & Hldr2 & Hh2 & Hcl2 & Hcfg2 & Hv2).
    destruct (watchdog.step s2 l) as [s3|] eqn:Hs; [|discriminate].
    injection Hrun as <-.
    unfold watchdog.step in Hs. rewrite Hpc2 in Hs. subst s1. simpl in Hs.
    destruct l; try discriminate.
    + destruct (_ <? _)%nat; [|discriminate]. injection Hs as <-. simpl.
      rewrite Hldr2, Hh2. simpl. repeat split.
      left. split; [done|]. by rewrite <- app_assoc.
    + destruct (Done _ _); [|discriminate]. injection Hs as <-. simpl.
      rewrite Hldr2, Hh2. simpl. repeat split.
      right. split; [done|]. by rewrite <- app_assoc.
  - intros HD. cbn [watchdog.run]. unfold watchdog.step at 1.
    rewrite Hpc, Hldr, HD.
    unfold watchdog.step. simpl. rewrite HD. by eexists.
  - intros Hfull. cbn [watchdog.run]. unfold watchdog.step at 1.
    rewrite Hpc, Hldr.
    destruct (Done _ _); [|done].
    unfold watchdog.step. simpl. rewrite Hfull. done.
Qed.

(** The leader of the cron election is stopped with one event still in
    the buffer; the subscriber takes it, and the final event goes
    through before the channel is closed. *)
Lemma cancelled_leader_unlocks_offers_and_closes_witness :
  let s := watchdog.reached [watchdog.scheduled; watchdog.first_lock true;
                             watchdog.send_event; watchdog.stop] in
  let s' := watchdog.reached [watchdog.scheduled; watchdog.first_lock true;
                              watchdog.send_event; watchdog.stop;
                              watchdog.select_done; watchdog.receive;
                              watchdog.send_event] in
  watchdog.at_pc s' = watchdog.Returned ∧
  watchdog.closed s' = true ∧
  watchdog.isLeader s' = false ∧
  ((watchdog.send_event = watchdog.send_event ∧
    watchdog.history s' = watchdog.history s ++
      [watchdog.Called (watchdog.unlock_call s);
       watchdog.Offered watchdog.LostAcquire;
       watchdog.Sent watchdog.LostAcquire; watchdog.Closed]) ∨
   (watchdog.send_event = watchdog.send_done ∧
    watchdog.history s' = watchdog.history s ++
      [watchdog.Called (watchdog.unlock_call s);
       watchdog.Offered watchdog.LostAcquire; watchdog.Closed])).
Proof.
  intros s s'.
  refine (proj1 (cancelled_leader_unlocks_offers_and_closes s _ _)
                [watchdog.receive] watchdog.send_event s' _ _ _);
    reflexivity.
Defined.

(** C1 (as stated) fails: the election below is cancelled while it
    leads; the goroutine unlocks, returns and closes the channel, and no
    LostAcquire was ever put on the channel.  In the second run the
    buffer is full at that moment, so the final send cannot go through
    at all. *)
Lemma final_lost_event_can_be_skipped :
  let s := watchdog.reached [watchdog.scheduled; watchdog.first_lock true;
                             watchdog.send_event; watchdog.stop;
                             watchdog.select_done; watchdog.send_done] in
  let full := watchdog.reached (watchdog.flapping ++ [watchdog.stop]) in
  watchdog.Elect (fst watchdog.cron_leader) watchdog.cron_config "token-1"
                 (snd watchdog.cron_leader) = Some watchdog.cron_start ∧
  (watchdog.at_pc s = watchdog.Returned ∧ watchdog.closed s = true ∧
   watchdog.calls s = [watchdog.lock_call s; watchdog.unlock_call s] ∧
   watchdog.delivered s = [watchdog.TakenAcquire]) ∧
  (watchdog.at_pc full = watchdog.Selecting ∧ watchdog.isLeader full = true ∧
   Done (watchdog.world full) (watchdog.ctx full) = true ∧
   watchdog.run [watchdog.select_done; watchdog.send_event] full = None ∧
   (watchdog.delivered <$>
      watchdog.run [watchdog.select_done; watchdog.send_done] full)
   = Some (watchdog.delivered full) ∧
   last (watchdog.delivered full) = Some watchdog.TakenAcquire).
Proof. vm_compute. repeat split; reflexivity. Qed.

(** C3 (as the code has it).  In every run of an election the events
    the goroutine offers to the channel alternate TakenAcquire,
    LostAcquire, TakenAcquire, ... from TakenAcquire on, and what went
    through the channel is a subsequence of them.  As long as the
    election's context is not cancelled nothing is skipped: the
    delivered events are the offered ones up to the one a blocked send
    still holds, so they alternate too. *)
Theorem offered_events_alternate :
  ∀ (rwl : watchdog.RedisWatchdogLeader) (cfg : watchdog.Config)
    (value : string) (w : World) (s0 s : watchdog.state)
    (tr : list watchdog.label),
    watchdog.Elect rwl cfg value w = Some s0 →
    watchdog.run tr s0 = Some s →
    watchdog.alternating (watchdog.offered s) ∧
    watchdog.delivered s `sublist_of` watchdog.offered s ∧
    (watchdog.live s →
     watchdog.offered s = watchdog.delivered s ++ watchdog.pending s ∧
     watchdog.alternating (watchdog.delivered s)).
Proof.
  intros rwl cfg value w s0 s tr Hel Hrun.
  assert (Hc : watchdog.consistent s).
  { eapply run_consistent; [|exact Hrun]. by eapply Elect_consistent. }
  destruct Hc as (Halt & _ & _ & settled & Hoff & Hsub & Hdel).
  split; [exact Halt|]. split.
  - rewrite Hoff. by apply sublist_inserts_r.
  - intros Hl. rewrite (Hdel Hl). split; [exact Hoff|].
    unfold watchdog.alternating in *. rewrite Hoff in Halt.
    by apply alternates_prefix in Halt.
Qed.

(** A leader that loses the lease and is trying to report it. *)
Lemma offered_events_alternate_witness :
  let s := watchdog.reached [watchdog.scheduled; watchdog.first_lock true;
                             watchdog.send_event; watchdog.select_tick false] in
  watchdog.alternating (watchdog.offered s) ∧
  watchdog.delivered s `sublist_of` watchdog.offered s ∧
  (watchdog.live s →
   watchdog.offered s = watchdog.delivered s ++ watchdog.pending s ∧
   watchdog.alternating (watchdog.delivered s)).
Proof.
  intros s.
  refine (offered_events_alternate (fst watchdog.cron_leader)
            watchdog.cron_config "token-1" (snd watchdog.cron_leader)
            watchdog.cron_start s
            [watchdog.scheduled; watchdog.first_lock true;
             watchdog.send_event; watchdog.select_tick false] _ _);
    reflexivity.
Defined.

(** C3 (as stated) fails for the delivered events.  First run: the
    election is cancelled between the successful Lock and the send of
    TakenAcquire; that send is skipped, the final LostAcquire goes
    through, and the subscriber sees LostAcquire alone.  Second run:
    after Taken, Lost the lease is taken again, that TakenAcquire is
    skipped under the cancelled context and the final LostAcquire goes
    through: two LostAcquire in a row. *)
Lemma delivered_events_can_repeat :
  let s1 := watchdog.reached [watchdog.scheduled; watchdog.first_lock true;
                              watchdog.stop; watchdog.send_done;
                              watchdog.select_done; watchdog.send_event] in
  let s2 := watchdog.reached [watchdog.scheduled; watchdog.first_lock true;
                              watchdog.send_event; watchdog.select_tick false;
                              watchdog.send_event; watchdog.select_tick true;
                              watchdog.stop; watchdog.send_done;
                              watchdog.select_done; watchdog.send_event] in
  watchdog.Elect (fst watchdog.cron_leader) watchdog.cron_config "token-1"
                 (snd watchdog.cron_leader) = Some watchdog.cron_start ∧
  watchdog.at_pc s1 = watchdog.Returned ∧
  watchdog.delivered s1 = [watchdog.LostAcquire] ∧
  ¬ watchdog.alternating (watchdog.delivered s1) ∧
  watchdog.at_pc s2 = watchdog.Returned ∧
  watchdog.delivered s2 = [watchdog.TakenAcquire; watchdog.LostAcquire;
                           watchdog.LostAcquire] ∧
  ¬ watchdog.alternating (watchdog.delivered s2).
Proof. vm_compute. repeat split; try reflexivity; discriminate. Qed.

(* ===================================================================== *)
(** * Properties: the job scheduler                                       *)
(* ===================================================================== *)

(** C7. Add fails exactly when the scheduler has started or the name is
    taken, and then leaves the scheduler as it was; otherwise it
    returns nil and the job map is the old one with the new job put
    under the (so far unused) name. *)
Theorem Add_rejects_late_and_duplicate :
  ∀ (cfg : scheduler.JobConfiguration) (s : scheduler.JobScheduler),
    let e := fst (scheduler.Add cfg s) in
    let s' := snd (scheduler.Add cfg s) in
    (is_Some e ↔
     scheduler.started s = true ∨
     is_Some (scheduler.goroutines s !! scheduler.Name cfg)) ∧
    (is_Some e → s' = s) ∧
    (e = None →
     scheduler.goroutines s !! scheduler.Name cfg = None ∧
     scheduler.goroutines s' =
       <[scheduler.Name cfg := scheduler.new_job cfg]> (scheduler.goroutines s) ∧
     (∀ n, n ≠ scheduler.Name cfg →
           scheduler.goroutines s' !! n = scheduler.goroutines s !! n) ∧
     scheduler.goroutines s' !! scheduler.Name cfg = Some (scheduler.new_job cfg) ∧
     scheduler.started s' = false).
Proof.
  intros cfg s. unfold scheduler.Add.
  destruct (scheduler.started s) eqn:Hst; simpl.
  - split; [|split]; [|done|by intros [=]].
    split; [by left | by eexists].
  - destruct (scheduler.goroutines s !! scheduler.Name cfg) as [j|] eqn:Hj; simpl.
    + split; [|split]; [|done|by intros [=]].
      split; [right; by eexists | by eexists].
    + split; [|split].
      * split; [by intros [? [=]] | intros [[=]|[? [=]]]].
      * by intros [? [=]].
      * intros _. repeat split; try done.
        -- intros n Hn. by apply lookup_insert_ne.
        -- apply lookup_insert_eq.
Qed.

(** A second job named "heartbeat" is refused; the first one was taken. *)
Lemma Add_rejects_late_and_duplicate_witness :
  snd (scheduler.Add scheduler.faulty
         (snd (scheduler.Add scheduler.faulty (scheduler.NewJobScheduler 1))))
  = snd (scheduler.Add scheduler.faulty (scheduler.NewJobScheduler 1)) ∧
  scheduler.goroutines
    (snd (scheduler.Add scheduler.faulty (scheduler.NewJobScheduler 1)))
    !! "heartbeat" = Some (scheduler.new_job scheduler.faulty).
Proof.
  split.
  - apply (Add_rejects_late_and_duplicate scheduler.faulty
             (snd (scheduler.Add scheduler.faulty (scheduler.NewJobScheduler 1)))).
    vm_compute. by eexists.
  - apply (Add_rejects_late_and_duplicate scheduler.faulty
             (scheduler.NewJobScheduler 1)).
    reflexivity.
Defined.

Section SchedulerFacts.
Import scheduler.

Lemma call_fn_extends j c w : extends w (call_fn j c w).2.
Proof.
  unfold call_fn.
  destruct (stopMode j =? StopImmediate).
  - pose proof (WithTimeout_extends c (deadline j) w) as H.
    by destruct (WithTimeout c (deadline j) w).
  - destruct (stopMode j =? StopGraceful); [|apply extends_refl].
    pose proof (WithTimeout_extends Background (deadline j) w) as H.
    by destruct (WithTimeout Background (deadline j) w).
Qed.

(** The context a job function is called with, by stop mode. *)
Lemma call_fn_context j c w :
  (stopMode j = StopImmediate →
   (call_fn j c w).1 =
     Some (WithTimeoutCtx (next w) (deadline j) c,
           fn j (WithTimeoutCtx (next w) (deadline j) c) (WithTimeout c (deadline j) w).2)) ∧
  (stopMode j = StopGraceful →
   (call_fn j c w).1 =
     Some (WithTimeoutCtx (next w) (deadline j) Background,
           fn j (WithTimeoutCtx (next w) (deadline j) Background)
              (WithTimeout Background (deadline j) w).2)).
Proof.
  unfold call_fn. split; intros ->; reflexivity.
Qed.

(** Whether the job function is called depends on the stop mode only. *)
Lemma call_fn_called j c w :
  is_Some (call_fn j c w).1 ↔
  stopMode j = StopImmediate ∨ stopMode j = StopGraceful.
Proof.
  unfold call_fn.
  destruct (Z.eqb_spec (stopMode j) StopImmediate) as [Hi|Hi].
  - destruct (WithTimeout c (deadline j) w). simpl.
    split; [by left | by eexists].
  - destruct (Z.eqb_spec (stopMode j) StopGraceful) as [Hg|Hg].
    + destruct (WithTimeout Background (deadline j) w). simpl.
      split; [by right | by eexists].
    + simpl. split; [by intros [? [=]] | by intros [?|?]].
Qed.

(** [exec] on a live job with a free slot. *)
Lemma exec_calls j c s w :
  ctx j = Some c → Err w c = None → (rate_len s < rate_cap s)%nat →
  exec take_rate j s w =
    match call_fn j c w with
    | (Some (tctx, o), w') =>
        Some (mkExecution (recover j o).1.1 (Some tctx) (recover j o).1.2
                          (recover j o).2 w' (rate_len s))
    | (None, w') => Some (mkExecution None None None [] w' (rate_len s))
    end.
Proof.
  intros Hc Herr Hroom. unfold exec. rewrite Hc.
  apply Nat.ltb_lt in Hroom. rewrite Hroom, Herr.
  destruct (call_fn j c w) as [[[tctx o]|] w']; [|done].
  by destruct (recover j o) as [[e r] logs].
Qed.

(** One tick in which the job function panics: the loop is still alive
    and as ready for the next tick as it was for this one. *)
Lemma panic_tick j c r st tctx w' :
  ctx j = Some c →
  alive st = true → known (now st) c → Err (now st) c = None →
  (rate_len (sched st) < rate_cap (sched st))%nat →
  call_fn j c (now st) = (Some (tctx, panics r), w') →
  let x := mkExecution (Some (errorString ("panic in job: " +:+ fmt_v r)))
                       (Some tctx) (Some r) [panic_entry j r] w'
                       (rate_len (sched st)) in
  let st' := mkRunning true (sched st) w' (done_wg st) (executions st ++ [x])
               (log st ++ [panic_entry j r;
                           failed_entry (name j)
                             (errorString ("panic in job: " +:+ fmt_v r))]) in
  exec take_rate j (sched st) (now st) = Some x ∧
  run_step j st (on_tick take_rate) = Some st' ∧
  known w' c ∧ Err w' c = None.
Proof.
  intros Hc Halive Hk Herr Hroom Hcall x st'.
  pose proof (call_fn_extends j c (now st)) as Hext. rewrite Hcall in Hext.
  pose proof (exec_calls j c (sched st) (now st) Hc Herr Hroom) as Hexec.
  rewrite Hcall in Hexec. simpl in Hexec, Hext.
  split; [exact Hexec|]. split; [|split].
  - unfold run_step. rewrite Halive, Hc, Hexec. subst st'. simpl.
    by destruct (sched st).
  - by eapply known_extends.
  - by rewrite (Err_extends _ _ _ Hk Hext).
Qed.

End SchedulerFacts.

(** C5 (as the code has it).  When the job function panics, exec
    recovers, gives the slot of the rate limiter back and returns the
    error "panic in job: <value>": it carries the recovered value but
    not the job's name.  The name is in the entry exec logs
    ("panic in job <name>: <value>", Args = name) and in the Args of
    the entry run logs.  The loop of run goes on: the goroutine has not
    returned and the next tick calls the function again; for a function
    that panics every time, any number of consecutive ticks are each
    executed. *)
Theorem panic_is_recovered_and_the_job_ticks_on :
  ∀ (j : scheduler.job) (c : Context) (r : any) (st : scheduler.running),
    scheduler.ctx j = Some c →
    scheduler.alive st = true →
    known (scheduler.now st) c → Err (scheduler.now st) c = None →
    (scheduler.rate_len (scheduler.sched st)
       < scheduler.rate_cap (scheduler.sched st))%nat →
    let perr := errorString ("panic in job: " +:+ fmt_v r) in
    (∀ (tctx : Context) (w' : World),
       scheduler.call_fn j c (scheduler.now st)
         = (Some (tctx, scheduler.panics r), w') →
       ∃ x st',
         scheduler.exec scheduler.take_rate j (scheduler.sched st)
           (scheduler.now st) = Some x ∧
         scheduler.err x = Some perr ∧
         scheduler.recovered x = Some r ∧
         scheduler.passed x = Some tctx ∧
         scheduler.entries x =
           [mkLog ErrorLevel "Job panic" "scheduler" "exec" (scheduler.name j)
                  (Some (errorString ("panic in job " +:+ scheduler.name j
                                        +:+ ": " +:+ fmt_v r)))] ∧
         scheduler.rate_after x = scheduler.rate_len (scheduler.sched st) ∧
         scheduler.run_step j st (scheduler.on_tick scheduler.take_rate)
           = Some st' ∧
         scheduler.alive st' = true ∧
         scheduler.done_wg st' = scheduler.done_wg st ∧
         scheduler.executions st' = scheduler.executions st ++ [x] ∧
         scheduler.log st' = scheduler.log st ++
           [scheduler.panic_entry j r;
            scheduler.failed_entry (scheduler.name j) perr] ∧
         ∃ x', scheduler.exec scheduler.take_rate j (scheduler.sched st')
                 (scheduler.now st') = Some x' ∧
               is_Some (scheduler.passed x')) ∧
    (∀ n : nat,
       scheduler.stopMode j = scheduler.StopImmediate ∨
       scheduler.stopMode j = scheduler.StopGraceful →
       (∀ tctx w, scheduler.fn j tctx w = scheduler.panics r) →
       ∃ st', scheduler.run j (replicate n (scheduler.on_tick scheduler.take_rate)) st
              = Some st' ∧
              scheduler.alive st' = true ∧
              scheduler.done_wg st' = scheduler.done_wg st ∧
              (∃ xs, scheduler.executions st' = scheduler.executions st ++ xs ∧
                     length xs = n ∧
                     Forall (λ x, scheduler.err x = Some perr ∧
                                  scheduler.recovered x = Some r) xs) ∧
              scheduler.log st' = scheduler.log st ++
                concat (replicate n [scheduler.panic_entry j r;
                                     scheduler.failed_entry (scheduler.name j) perr])).
Proof.
  intros j c r st Hc Halive Hk Herr Hroom perr. split.
  - intros tctx w' Hcall.
    destruct (panic_tick j c r st tctx w' Hc Halive Hk Herr Hroom Hcall)
      as (Hexec & Hstep & Hk' & Herr').
    eexists _, _. split; [exact Hexec|].
    do 5 (split; [reflexivity|]). split; [exact Hstep|].
    do 4 (split; [reflexivity|]). cbn [scheduler.sched scheduler.now].
    rewrite (exec_calls j c _ _ Hc Herr' Hroom).
    assert (Hcalled : is_Some (scheduler.call_fn j c w').1).
    { apply call_fn_called. apply (call_fn_called j c (scheduler.now st)).
      rewrite Hcall. by eexists. }
    destruct (scheduler.call_fn j c w') as [[[t2 o2]|] w2]; simpl in *.
    + eexists. split; [reflexivity|]. by eexists.
    + by destruct Hcalled.
  - intros n Hmode Hfn. revert st Halive Hk Herr Hroom.
    induction n as [|n IH]; intros st Halive Hk Herr Hroom.
    + exists st. simpl. rewrite app_nil_r. repeat split; try done.
      exists []. by rewrite app_nil_r.
    + assert (∃ tctx w', scheduler.call_fn j c (scheduler.now st)
                         = (Some (tctx, scheduler.panics r), w'))
        as (tctx & w' & Hcall).
      { pose proof (proj2 (call_fn_called j c (scheduler.now st)) Hmode) as Hs.
        destruct (call_fn_context j c (scheduler.now st)) as [Hi Hg].
        destruct (scheduler.call_fn j c (scheduler.now st))
          as [[[tctx o]|] w'] eqn:E; simpl in *; [|by destruct Hs].
        exists tctx, w'. do 3 f_equal.
        destruct Hmode as [Hm|Hm]; [specialize (Hi Hm)|specialize (Hg Hm)];
          simplify_eq; apply Hfn. }
      destruct (panic_tick j c r st tctx w' Hc Halive Hk Herr Hroom Hcall)
        as (Hexec & Hstep & Hk' & Herr').
      match type of Hstep with _ = Some ?s => set (st1 := s) in * end.
      destruct (IH st1 eq_refl Hk' Herr' Hroom)
        as (st' & Hrun & Ha' & Hwg' & (xs & Hxs & Hlen & Hall) & Hlog').
      exists st'. cbn [replicate scheduler.run]. rewrite Hstep.
      split; [exact Hrun|]. split; [exact Ha'|].
      split; [exact Hwg'|]. split.
      * eexists (_ :: xs). subst st1. simpl in Hxs.
        rewrite Hxs, <- app_assoc. simpl.
        repeat split; [by rewrite Hlen|]. by constructor.
      * rewrite Hlog'. subst st1. simpl. by rewrite <- app_assoc.
Qed.

(** Three ticks of the "heartbeat" job, whose function panics with
    "boom". *)
Lemma panic_is_recovered_and_the_job_ticks_on_witness :
  let j := scheduler.faulty_job in
  let st := scheduler.at_start in
  let r := mkAny "boom" in
  let perr := errorString ("panic in job: " +:+ fmt_v r) in
  ∃ st', scheduler.run j (replicate 3 (scheduler.on_tick scheduler.take_rate)) st
         = Some st' ∧
         scheduler.alive st' = true ∧
         scheduler.done_wg st' = scheduler.done_wg st ∧
         (∃ xs, scheduler.executions st' = scheduler.executions st ++ xs ∧
                length xs = 3%nat ∧
                Forall (λ x, scheduler.err x = Some perr ∧
                             scheduler.recovered x = Some r) xs) ∧
         scheduler.log st' = scheduler.log st ++
           concat (replicate 3 [scheduler.panic_entry j r;
                                scheduler.failed_entry (scheduler.name j) perr]).
Proof.
  intros j st r perr.
  refine (proj2 (panic_is_recovered_and_the_job_ticks_on j
                   (WithCancelCtx 0 Background) r st _ _ _ _ _) 3%nat _ _).
  - reflexivity.
  - reflexivity.
  - repeat constructor.
  - reflexivity.
  - vm_compute. lia.
  - by left.
  - reflexivity.
Defined.

(** C5 (as stated) fails: the job "heartbeat" panics with "boom"; the
    error exec returns reads "panic in job: boom", in which the name of
    the job does not occur. *)
Lemma returned_panic_error_lacks_the_job_name :
  ∃ x e,
    scheduler.exec scheduler.take_rate scheduler.faulty_job
      scheduler.one_slot (mkWorld ∅ 1) = Some x ∧
    scheduler.recovered x = Some (mkAny "boom") ∧
    scheduler.err x = Some e ∧
    Error e = "panic in job: boom" ∧
    Contains (Error e) "boom" = true ∧
    Contains (Error e) (scheduler.name scheduler.faulty_job) = false.
Proof. eexists _, _. vm_compute. repeat split; reflexivity. Qed.

(** C6. With a free slot and a live job context [c], exec calls the job
    function with a timeout context of the job's deadline whose parent
    is [c] in mode StopImmediate and context.Background() in mode
    StopGraceful: what the execution returns, recovers and logs is what
    the job function did when called with that context, in the world
    in which the context has just been made, and the deferred cancel
    of that context has run.  In the first case the execution's
    context is done whenever [c] is, in particular once the job's
    cancel function has been called.  In the second it is done only
    through its own timer or its own deferred cancel, and cancelling
    [c] changes nothing for it. *)
Theorem stop_mode_selects_the_parent_context :
  ∀ (j : scheduler.job) (id : nat) (p : Context) (s : scheduler.JobScheduler)
    (w : World),
    let c := WithCancelCtx id p in
    scheduler.ctx j = Some c → known w c → Err w c = None →
    (scheduler.rate_len s < scheduler.rate_cap s)%nat →
    (scheduler.stopMode j = scheduler.StopImmediate →
     let tctx := WithTimeoutCtx (next w) (scheduler.deadline j) c in
     let w1 := (WithTimeout c (scheduler.deadline j) w).2 in
     let did := scheduler.recover j (scheduler.fn j tctx w1) in
     scheduler.exec scheduler.take_rate j s w
       = Some (scheduler.mkExecution did.1.1 (Some tctx) did.1.2 did.2
                 (cancel tctx w1) (scheduler.rate_len s)) ∧
     (scheduler.passed <$> scheduler.exec scheduler.take_rate j s w)
       = Some (Some tctx) ∧
     (∀ w', Done w' c = true → Done w' tctx = true) ∧
     (∀ w', Done (cancel c w') tctx = true)) ∧
    (scheduler.stopMode j = scheduler.StopGraceful →
     let tctx := WithTimeoutCtx (next w) (scheduler.deadline j) Background in
     let w1 := (WithTimeout Background (scheduler.deadline j) w).2 in
     let did := scheduler.recover j (scheduler.fn j tctx w1) in
     scheduler.exec scheduler.take_rate j s w
       = Some (scheduler.mkExecution did.1.1 (Some tctx) did.1.2 did.2
                 (cancel tctx w1) (scheduler.rate_len s)) ∧
     (scheduler.passed <$> scheduler.exec scheduler.take_rate j s w)
       = Some (Some tctx) ∧
     (∀ w', Done w' tctx = true ↔ is_Some (finished w' !! next w)) ∧
     (∀ w', Done (cancel c w') tctx = Done w' tctx)).
Proof.
  intros j id p s w c Hc Hk Herr Hroom.
  pose proof (exec_calls j c s w Hc Herr Hroom) as Hexec.
  assert (Hdone : ∀ w' par d, Done w' par = true →
                    Done w' (WithTimeoutCtx (next w) d par) = true).
  { intros w' par d. unfold Done. simpl. by destruct (finished w' !! next w). }
  split; intros Hm; cbn zeta.
  - assert (Hcall : scheduler.exec scheduler.take_rate j s w
              = Some (scheduler.mkExecution
                        (scheduler.recover j
                           (scheduler.fn j
                              (WithTimeoutCtx (next w) (scheduler.deadline j) c)
                              (WithTimeout c (scheduler.deadline j) w).2)).1.1
                        (Some (WithTimeoutCtx (next w) (scheduler.deadline j) c))
                        (scheduler.recover j
                           (scheduler.fn j
                              (WithTimeoutCtx (next w) (scheduler.deadline j) c)
                              (WithTimeout c (scheduler.deadline j) w).2)).1.2
                        (scheduler.recover j
                           (scheduler.fn j
                              (WithTimeoutCtx (next w) (scheduler.deadline j) c)
                              (WithTimeout c (scheduler.deadline j) w).2)).2
                        (cancel (WithTimeoutCtx (next w) (scheduler.deadline j) c)
                                (WithTimeout c (scheduler.deadline j) w).2)
                        (scheduler.rate_len s))).
    { rewrite Hexec. unfold scheduler.call_fn. rewrite Hm.
      cbn [Z.eqb scheduler.StopImmediate]. reflexivity. }
    split; [exact Hcall|]. split; [by rewrite Hcall|]. split.
    + intros w'. apply Hdone.
    + intros w'. apply Hdone. apply Done_cancel_self.
  - assert (Hcall : scheduler.exec scheduler.take_rate j s w
              = Some (scheduler.mkExecution
                        (scheduler.recover j
                           (scheduler.fn j
                              (WithTimeoutCtx (next w) (scheduler.deadline j)
                                              Background)
                              (WithTimeout Background (scheduler.deadline j) w).2)).1.1
                        (Some (WithTimeoutCtx (next w) (scheduler.deadline j)
                                              Background))
                        (scheduler.recover j
                           (scheduler.fn j
                              (WithTimeoutCtx (next w) (scheduler.deadline j)
                                              Background)
                              (WithTimeout Background (scheduler.deadline j) w).2)).1.2
                        (scheduler.recover j
                           (scheduler.fn j
                              (WithTimeoutCtx (next w) (scheduler.deadline j)
                                              Background)
                              (WithTimeout Background (scheduler.deadline j) w).2)).2
                        (cancel (WithTimeoutCtx (next w) (scheduler.deadline j)
                                                Background)
                                (WithTimeout Background (scheduler.deadline j) w).2)
                        (scheduler.rate_len s))).
    { rewrite Hexec. unfold scheduler.call_fn. rewrite Hm.
      cbn [Z.eqb scheduler.StopImmediate scheduler.StopGraceful Pos.eqb].
      reflexivity. }
    split; [exact Hcall|]. split; [by rewrite Hcall|]. split.
    + intros w'. unfold Done. simpl.
      destruct (finished w' !! next w) eqn:E.
      * split; [by eexists | done].
      * split; [done | by intros [? ?]].
    + intros w'. unfold Done, cancel. simpl.
      rewrite finish_other; [done|].
      simpl. intros [= ->]. inversion Hk; lia.
Qed.

(** The "heartbeat" job at its first tick, in either stop mode: its
    function panics with "boom", under a context derived from the
    job's own or from Background. *)
Lemma stop_mode_selects_the_parent_context_witness :
  let c := WithCancelCtx 0 Background in
  let w := mkWorld ∅ 1 in
  (let j := scheduler.faulty_job in
   let tctx := WithTimeoutCtx (next w) (scheduler.deadline j) c in
   (scheduler.err <$> scheduler.exec scheduler.take_rate j scheduler.one_slot w)
     = Some (Some (errorString "panic in job: boom")) ∧
   (scheduler.passed <$> scheduler.exec scheduler.take_rate j scheduler.one_slot w)
     = Some (Some tctx) ∧
   (∀ w', Done w' c = true → Done w' tctx = true) ∧
   (∀ w', Done (cancel c w') tctx = true)) ∧
  (let j := scheduler.patient_job in
   let tctx := WithTimeoutCtx (next w) (scheduler.deadline j) Background in
   (scheduler.err <$> scheduler.exec scheduler.take_rate j scheduler.one_slot w)
     = Some (Some (errorString "panic in job: boom")) ∧
   (scheduler.passed <$> scheduler.exec scheduler.take_rate j scheduler.one_slot w)
     = Some (Some tctx) ∧
   (∀ w', Done w' tctx = true ↔ is_Some (finished w' !! next w)) ∧
   (∀ w', Done (cancel c w') tctx = Done w' tctx)).
Proof.
  intros c w. split.
  - assert (Hk : known w c) by repeat constructor.
    assert (Hroom : (scheduler.rate_len scheduler.one_slot
                     < scheduler.rate_cap scheduler.one_slot)%nat)
      by (vm_compute; lia).
    destruct (proj1 (stop_mode_selects_the_parent_context scheduler.faulty_job
                       0%nat Background scheduler.one_slot w eq_refl Hk eq_refl
                       Hroom) eq_refl) as (Hx & Hp & H1 & H2).
    cbn zeta. split; [by rewrite Hx|]. split; [exact Hp|].
    split; [exact H1 | exact H2].
  - assert (Hk : known w c) by repeat constructor.
    assert (Hroom : (scheduler.rate_len scheduler.one_slot
                     < scheduler.rate_cap scheduler.one_slot)%nat)
      by (vm_compute; lia).
    destruct (proj2 (stop_mode_selects_the_parent_context scheduler.patient_job
                       0%nat Background scheduler.one_slot w eq_refl Hk eq_refl
                       Hroom) eq_refl) as (Hx & Hp & H1 & H2).
    cbn zeta. split; [by rewrite Hx|]. split; [exact Hp|].
    split; [exact H1 | exact H2].
Defined.

(* ===================================================================== *)
(** * Properties: GoRecover                                               *)
(* ===================================================================== *)

Section GoRecoverFacts.
Import scheduler.

Lemma start_jobs_names parent jobs w :
  map fst (start_jobs parent jobs w).1 = map fst jobs.
Proof.
  revert w. induction jobs as [|[n j] jobs IH]; intros w; [done|].
  cbn [start_jobs]. destruct (start_job parent j w) as [j' w'].
  specialize (IH w'). destruct (start_jobs parent jobs w') as [rest w''].
  simpl in *. by rewrite IH.
Qed.

(** Every goroutine of Start is handed the context Start was given. *)
Lemma Start_contexts parent s w g :
  g ∈ (Start parent s w).2 → fst g = parent.
Proof.
  unfold Start. destruct (started s); simpl; [by intros ?%elem_of_nil|].
  destruct (start_jobs parent (map_to_list (goroutines s)) w) as [jobs w'].
  simpl. intros (nj & -> & _)%list_elem_of_fmap. done.
Qed.

End GoRecoverFacts.

(** C10. If the context is already done when GoRecover is called, the
    goroutine it starts, whenever it gets to run, takes the
    [<-ctx.Done()] case of its select, logs "goroutine cancelled before
    start" and returns without calling [fn].  So none of the job
    goroutines of a scheduler started under a done context enters
    [run], and the goroutine of an election made under one never gets
    to its first Lock. *)
Theorem GoRecover_never_calls_fn_under_a_done_context :
  ∀ (w0 w : World) (ctx : Context),
    Done w0 ctx = true → later w0 w →
    (∀ (A : Type) (fn : Context → A),
       utils.GoRecover w ctx fn =
         utils.Skipped (mkLog InfoLevel "goroutine cancelled before start"
                              "utils" "GoRecover" "" None) ∧
       utils.invoked (utils.GoRecover w ctx fn) = false) ∧
    (∀ (s s' : scheduler.JobScheduler) (ls : list scheduler.run_label)
       (g : Context * scheduler.job),
       g ∈ (scheduler.Start ctx s w0).2 →
       utils.invoked (scheduler.job_goroutine w s' ls g) = false) ∧
    (∀ e : watchdog.state,
       watchdog.at_pc e = watchdog.Spawned →
       watchdog.ctx e = ctx → watchdog.world e = w →
       watchdog.step e watchdog.scheduled
         = Some (watchdog.move e watchdog.NeverRan false [])).
Proof.
  intros w0 w ctx HD Hl.
  assert (HDw : Done w ctx = true) by by eapply Done_later.
  assert (Hgo : ∀ (A : Type) (fn : Context → A),
            utils.GoRecover w ctx fn =
              utils.Skipped (mkLog InfoLevel "goroutine cancelled before start"
                                   "utils" "GoRecover" "" None)).
  { intros A fn. unfold utils.GoRecover. by rewrite HDw. }
  split; [|split].
  - intros A fn. by rewrite Hgo.
  - intros s s' ls g Hg. unfold scheduler.job_goroutine.
    rewrite (Start_contexts _ _ _ _ Hg). by rewrite Hgo.
  - intros e Hpc <- <-. unfold watchdog.step. rewrite Hpc.
    by rewrite Hgo.
Qed.

(** The scheduler of the "heartbeat" job, stopped once and started
    again under the application context, which has been cancelled in
    the meantime. *)
Lemma GoRecover_never_calls_fn_under_a_done_context_witness :
  let ctx := WithCancelCtx 0 Background in
  let w0 := cancel ctx (mkWorld ∅ 1) in
  let s := scheduler.mkScheduler false {[ "heartbeat" := scheduler.faulty_job ]} 1 0 in
  length (scheduler.Start ctx s w0).2 = 1%nat ∧
  ∀ g, g ∈ (scheduler.Start ctx s w0).2 →
       utils.invoked
         (scheduler.job_goroutine w0 s [scheduler.on_tick scheduler.take_rate] g)
       = false.
Proof.
  intros ctx w0 s. split; [reflexivity|].
  intros g Hg.
  refine (proj1 (proj2 (GoRecover_never_calls_fn_under_a_done_context
                          w0 w0 ctx _ _)) s s _ g Hg).
  - reflexivity.
  - intros i e He. exact He.
Defined.

(* ===================================================================== *)
(** * Properties: the readiness barrier                                   *)
(* ===================================================================== *)

Section BarrierFacts.
Import readiness_barrier.

Lemma drop_signals_empty sigs : drop_signals sigs = [].
Proof. induction sigs; [done | exact IHsigs]. Qed.

Lemma Stop_running k r w :
  running r = true →
  signals (Stop k r w).1 = [] ∧ IsReady (Stop k r w).1 = false ∧
  running (Stop k r w).1 = false ∧ listener (Stop k r w).1 = None.
Proof.
  intros Hr. unfold Stop. rewrite Hr.
  destruct (listener r);
    [destruct (last_turns k (signals r) (readinessFlag r)) as [sigs flag]|];
    simpl; by rewrite drop_signals_empty.
Qed.

Lemma Stop_stopped k r w : running r = false → Stop k r w = (r, w).
Proof. intros Hr. unfold Stop. by rewrite Hr. Qed.

Lemma apply_settled o r w r' w' :
  settled r → apply o (r, w) = Some (r', w') → settled r'.
Proof.
  intros Hs. unfold apply. destruct o as [|k|pick ctx sig|pick|c].
  - unfold Start. destruct (running r) eqn:Hr.
    + by intros [= <- <-].
    + destruct (WithCancel (parent r) w). intros [= <- <-]. by intros [=].
  - destruct (running r) eqn:Hr.
    + destruct (Stop_running k r w Hr) as (H1 & H2 & H3 & H4).
      intros [= Heq]. rewrite Heq in *. simpl in *. by intros _.
    + rewrite Stop_stopped by done. by intros [= <- <-].
  - unfold SendSignalCtx. destruct (running r) eqn:Hr.
    + destruct pick.
      * destruct (_ <? _)%nat; [|done]. intros [= <- <-].
        unfold settled. simpl. intros ?. congruence.
      * destruct (Done w ctx); [|done]. by intros [= <- <-].
    + by intros [= <- <-].
  - unfold listen. destruct (listener r) as [c|] eqn:Hl; [|done].
    destruct (running r) eqn:Hr.
    + destruct pick.
      * destruct (Done w c); [|done]. intros [= <- <-].
        unfold settled. simpl. intros ?. congruence.
      * destruct (signals r); [done|]. intros [= <- <-].
        unfold settled. simpl. intros ?. congruence.
    + destruct (Hs Hr) as (_ & _ & Hnone). congruence.
  - by intros [= <- <-].
Qed.

Lemma history_settled ops st st' :
  settled st.1 → history ops st = Some st' → settled st'.1.
Proof.
  revert st. induction ops as [|o ops IH]; intros [r w] Hs; cbn [history].
  - intros [= <-]. exact Hs.
  - destruct (apply o (r, w)) as [[r1 w1]|] eqn:Ha; [|discriminate].
    apply IH. simpl. by eapply apply_settled.
Qed.

End BarrierFacts.

Section OverlappingCalls.
Import readiness_barrier barrier_steps.













End OverlappingCalls.




(* ===================================================================== *)
(** * Properties: slice helpers                                           *)
(* ===================================================================== *)

Section SliceFacts.
Import slices.

Lemma difference_loop_result result base exclude :
  difference_loop result base exclude = result ++ SortedDifference base exclude.
Proof.
  unfold SortedDifference. revert result exclude.
  induction base as [|b base IH]; intros result exclude; simpl.
  - by rewrite app_nil_r.
  - induction exclude as [|e exclude IHe]; [done|].
    destruct (b <? e).
    + rewrite (IH (result ++ [b])), (IH [b]). by rewrite <- app_assoc.
    + destruct (b >? e); [exact IHe|]. by rewrite (IH result).
Qed.

Lemma SortedDifference_nil_l exclude : SortedDifference [] exclude = [].
Proof. done. Qed.

Lemma SortedDifference_nil_r base : SortedDifference base [] = base.
Proof. by destruct base. Qed.

Lemma SortedDifference_cons b base e exclude :
  SortedDifference (b :: base) (e :: exclude) =
    if b <? e then b :: SortedDifference base (e :: exclude)
    else if b >? e then SortedDifference (b :: base) exclude
    else SortedDifference base exclude.
Proof.
  unfold SortedDifference at 1. cbn [difference_loop].
  destruct (b <? e); [by rewrite difference_loop_result|].
  by destruct (b >? e).
Qed.

End SliceFacts.

(** X1. Whatever the two slices hold, sorted or not, SortedDifference
    returns elements of [base] in the order they have in [base]: the
    result is a subsequence of [base].  With nothing to exclude it is
    [base] itself. *)
Theorem SortedDifference_is_a_subsequence_of_base :
  ∀ base exclude : list Z,
    slices.SortedDifference base exclude `sublist_of` base ∧
    slices.SortedDifference base [] = base ∧
    slices.SortedDifference [] exclude = [].
Proof.
  intros base exclude. split; [|split].
  - revert exclude. induction base as [|b base IH]; intros exclude.
    + rewrite SortedDifference_nil_l. constructor.
    + induction exclude as [|e exclude IHe].
      * by rewrite SortedDifference_nil_r.
      * rewrite SortedDifference_cons.
        destruct (b <? e); [by apply sublist_skip|].
        destruct (b >? e); [exact IHe|]. by apply sublist_cons.
  - apply SortedDifference_nil_r.
  - apply SortedDifference_nil_l.
Qed.

Section SortedDifferenceFacts.
Import slices.

Lemma StronglySorted_sublist (l1 l2 : list Z) :
  l1 `sublist_of` l2 → StronglySorted Z.le l2 → StronglySorted Z.le l1.
Proof.
  induction 1 as [|x l1 l2 Hsub IH|x l1 l2 Hsub IH]; intros Hs.
  - constructor.
  - inversion Hs as [|? ? Hs' Hx]; subst. constructor; [by apply IH|].
    apply Forall_forall. intros y Hy.
    rewrite Forall_forall in Hx. apply Hx.
    by eapply sublist_subseteq.
  - inversion Hs; subst. by apply IH.
Qed.

Lemma occurrences_above x l : Forall (λ y, x < y) l → occurrences x l = 0%nat.
Proof.
  unfold occurrences. induction 1 as [|y l Hy _ IH]; [done|].
  simpl. destruct (Z.eq_dec y x); [lia | exact IH].
Qed.

Lemma occurrences_cons x y l :
  occurrences x (y :: l) = ((if decide (y = x) then 1 else 0) + occurrences x l)%nat.
Proof.
  unfold occurrences. simpl.
  destruct (Z.eq_dec y x), (decide (y = x)); done.
Qed.

Lemma above_head a l x :
  StronglySorted Z.le (a :: l) → x < a → Forall (λ y, x < y) (a :: l).
Proof.
  intros Hs Hx. inversion Hs as [|? ? _ Ha]; subst.
  constructor; [done|]. eapply Forall_impl; [exact Ha|]. simpl. intros; lia.
Qed.

Lemma occurrences_elem x l : (0 < occurrences x l)%nat ↔ x ∈ l.
Proof.
  unfold occurrences. rewrite list_elem_of_In.
  rewrite (count_occ_In Z.eq_dec). lia.
Qed.

Lemma occurrences_NoDup x l : NoDup l → (occurrences x l ≤ 1)%nat.
Proof.
  intros Hn%NoDup_ListNoDup. unfold occurrences.
  by apply NoDup_count_occ.
Qed.

End SortedDifferenceFacts.

(** X2. On ascending slices (repetitions allowed) SortedDifference is
    the difference of multisets: every value occurs in the result as
    often as in [base] minus as often as in [exclude], and the result
    is ascending again.  So for a [base] without repetitions the result
    holds exactly the elements of [base] that are not in [exclude]. *)
Theorem SortedDifference_subtracts_occurrences :
  ∀ base exclude : list Z,
    slices.weakly_ascending base → slices.weakly_ascending exclude →
    slices.weakly_ascending (slices.SortedDifference base exclude) ∧
    (∀ x, slices.occurrences x (slices.SortedDifference base exclude)
          = (slices.occurrences x base - slices.occurrences x exclude)%nat) ∧
    (NoDup base →
     ∀ x, x ∈ slices.SortedDifference base exclude ↔ x ∈ base ∧ x ∉ exclude).
Proof.
  intros base exclude Hb He.
  assert (Hocc : ∀ x, slices.occurrences x (slices.SortedDifference base exclude)
          = (slices.occurrences x base - slices.occurrences x exclude)%nat).
  { apply Sorted_StronglySorted in Hb; [|intros ? ? ?; lia].
    apply Sorted_StronglySorted in He; [|intros ? ? ?; lia].
    revert exclude He. induction base as [|b base IH]; intros exclude He x.
    - by rewrite SortedDifference_nil_l.
    - assert (Hb' : StronglySorted Z.le base) by by inversion Hb.
      induction exclude as [|e exclude IHe].
      + rewrite SortedDifference_nil_r. unfold slices.occurrences. simpl. lia.
      + assert (He' : StronglySorted Z.le exclude) by by inversion He.
        rewrite SortedDifference_cons.
        destruct (Z.ltb_spec b e) as [Hlt|Hge].
        * rewrite occurrences_cons, (IH Hb' _ He), (occurrences_cons x b).
          destruct (decide (b = x)) as [->|Hne]; [|done].
          rewrite (occurrences_above x (e :: exclude)); [lia|].
          by apply above_head.
        * destruct (Z.gtb_spec b e) as [Hgt|Hle].
          -- rewrite (IHe He'), (occurrences_cons x e).
             destruct (decide (e = x)) as [->|Hne]; [|done].
             rewrite (occurrences_above x (b :: base)); [lia|].
             apply above_head; [done | lia].
          -- assert (b = e) as -> by lia.
             rewrite (IH Hb' _ He'), !occurrences_cons. lia. }
  split; [|split].
  - apply StronglySorted_Sorted.
    eapply StronglySorted_sublist;
      [apply SortedDifference_is_a_subsequence_of_base|].
    apply Sorted_StronglySorted; [intros ? ? ?; lia | exact Hb].
  - exact Hocc.
  - intros Hnd x. rewrite <- !occurrences_elem, Hocc.
    pose proof (occurrences_NoDup x base Hnd). lia.
Qed.

(** Two ascending slices with repetitions. *)
Lemma SortedDifference_subtracts_occurrences_witness :
  slices.SortedDifference [1; 2; 2; 5; 8] [2; 3; 5; 5] = [1; 2; 8] ∧
  slices.weakly_ascending (slices.SortedDifference [1; 2; 2; 5; 8] [2; 3; 5; 5]) ∧
  (∀ x, slices.occurrences x (slices.SortedDifference [1; 2; 2; 5; 8] [2; 3; 5; 5])
        = Nat.sub (slices.occurrences x [1; 2; 2; 5; 8])
                  (slices.occurrences x [2; 3; 5; 5])).
Proof.
  split; [reflexivity|].
  destruct (SortedDifference_subtracts_occurrences [1; 2; 2; 5; 8] [2; 3; 5; 5])
    as (Hs & Ho & _).
  - repeat (constructor; try lia).
  - repeat (constructor; try lia).
  - by split.
Defined.

Section DistinctFacts.
Import slices.
Context {T : Type} `{Countable T}.
Implicit Types (seen : gset T) (src out : list T).

Lemma distinct_loop_out seen out src :
  distinct_loop seen out src = out ++ distinct_loop seen [] src.
Proof.
  revert seen out. induction src as [|v src IH]; intros seen out; simpl.
  - by rewrite app_nil_r.
  - destruct (decide (v ∈ seen)); [apply IH|].
    rewrite (IH _ (out ++ [v])), (IH _ [v]). by rewrite <- app_assoc.
Qed.

Lemma distinct_loop_cons seen v src :
  distinct_loop seen [] (v :: src) =
    if decide (v ∈ seen) then distinct_loop seen [] src
    else v :: distinct_loop ({[v]} ∪ seen) [] src.
Proof.
  simpl. destruct (decide (v ∈ seen)); [done|].
  by rewrite distinct_loop_out.
Qed.

Lemma distinct_loop_elem seen src x :
  x ∈ distinct_loop seen [] src ↔ x ∈ src ∧ x ∉ seen.
Proof.
  revert seen. induction src as [|v src IH]; intros seen.
  - simpl. rewrite !elem_of_nil. tauto.
  - rewrite distinct_loop_cons. destruct (decide (v ∈ seen)).
    + rewrite IH, elem_of_cons. naive_solver.
    + rewrite !elem_of_cons, IH, elem_of_union, elem_of_singleton.
      destruct (decide (x = v)); naive_solver.
Qed.

Lemma distinct_loop_NoDup seen src : NoDup (distinct_loop seen [] src).
Proof.
  revert seen. induction src as [|v src IH]; intros seen.
  - constructor.
  - rewrite distinct_loop_cons. destruct (decide (v ∈ seen)); [apply IH|].
    constructor; [|apply IH]. rewrite distinct_loop_elem. set_solver.
Qed.

Lemma distinct_loop_sublist seen src : distinct_loop seen [] src `sublist_of` src.
Proof.
  revert seen. induction src as [|v src IH]; intros seen.
  - constructor.
  - rewrite distinct_loop_cons. destruct (decide (v ∈ seen)).
    + by apply sublist_cons.
    + by apply sublist_skip.
Qed.

Lemma distinct_loop_snoc seen src x :
  distinct_loop seen [] (src ++ [x]) =
    distinct_loop seen [] src ++
    (if decide (x ∈ seen ∨ x ∈ src) then [] else [x]).
Proof.
  revert seen. induction src as [|v src IH]; intros seen.
  - simpl. destruct (decide (x ∈ seen)).
    + rewrite decide_True by by left. done.
    + rewrite decide_False; [done|]. rewrite elem_of_nil. tauto.
  - rewrite <- app_comm_cons, !distinct_loop_cons.
    destruct (decide (v ∈ seen)).
    + rewrite IH. f_equal.
      destruct (decide (x ∈ seen ∨ x ∈ src)), (decide (x ∈ seen ∨ x ∈ v :: src));
        set_solver.
    + rewrite IH. simpl. f_equal.
      destruct (decide (x ∈ {[v]} ∪ seen ∨ x ∈ src)),
               (decide (x ∈ seen ∨ x ∈ v :: src)); set_solver.
Qed.

Lemma distinct_loop_fixes seen src :
  NoDup src → (∀ x, x ∈ src → x ∉ seen) → distinct_loop seen [] src = src.
Proof.
  revert seen. induction src as [|v src IH]; intros seen Hnd Hfresh; [done|].
  rewrite distinct_loop_cons. rewrite decide_False by set_solver.
  apply NoDup_cons in Hnd as [Hv Hnd]. f_equal. apply IH; set_solver.
Qed.

End DistinctFacts.

(** X3. Distinct returns every value of its argument exactly once: the
    result has no repetition, holds the same values as the argument,
    and is a subsequence of it (so it is never longer). *)
Theorem Distinct_keeps_each_value_once :
  ∀ (T : Type) `{Countable T} (src : list T),
    NoDup (slices.Distinct src) ∧
    (∀ x, x ∈ slices.Distinct src ↔ x ∈ src) ∧
    slices.Distinct src `sublist_of` src ∧
    (length (slices.Distinct src) ≤ length src)%nat.
Proof.
  intros T ? ? src. unfold slices.Distinct. split; [|split; [|split]].
  - apply distinct_loop_NoDup.
  - intros x. rewrite distinct_loop_elem. set_solver.
  - apply distinct_loop_sublist.
  - apply sublist_length, distinct_loop_sublist.
Qed.

(** X4. Distinct keeps the first occurrence of every value, in the
    order of first occurrence: a value appended to the argument is
    appended to the result if it is new and dropped if it occurred
    before.  A slice without repetitions is returned unchanged, so
    applying Distinct twice gives the same as applying it once. *)
Theorem Distinct_keeps_first_occurrences :
  ∀ (T : Type) `{Countable T} (src : list T) (x : T),
    slices.Distinct (src ++ [x]) =
      (if decide (x ∈ src) then slices.Distinct src
       else slices.Distinct src ++ [x]) ∧
    (NoDup src → slices.Distinct src = src) ∧
    slices.Distinct (slices.Distinct src) = slices.Distinct src.
Proof.
  intros T ? ? src x. unfold slices.Distinct. split; [|split].
  - rewrite distinct_loop_snoc.
    destruct (decide (x ∈ ∅ ∨ x ∈ src)) as [Hin|Hout], (decide (x ∈ src));
      try set_solver. by rewrite app_nil_r.
  - intros Hnd. apply distinct_loop_fixes; set_solver.
  - apply distinct_loop_fixes; [apply distinct_loop_NoDup | set_solver].
Qed.

(** A slice of names with repetitions. *)
Lemma Distinct_keeps_first_occurrences_witness :
  slices.Distinct ["b"; "a"; "b"; "c"; "a"] = ["b"; "a"; "c"] ∧
  slices.Distinct ["b"; "a"; "c"] = ["b"; "a"; "c"].
Proof.
  split; [reflexivity|].
  apply (Distinct_keeps_first_occurrences string ["b"; "a"; "c"] "z").
  repeat (constructor; [set_solver|]). constructor.
Defined.

(* ===================================================================== *)
(** * Properties: more on the Redis lock                                  *)
(* ===================================================================== *)

Section LockProtocol.
Import locker.

(** What a successful Lock tells about the call and does to the store. *)
Lemma Lock_ok_inv w ctx key token expiration c :
  ok (Lock w ctx key token expiration (mkLocker c)) = true →
  Err w ctx = None ∧ reachable c = true ∧ 0 < Milliseconds expiration ∧
  db c !! (lockKeyPrefix +:+ key) = None ∧
  Lock w ctx key token expiration (mkLocker c) =
    ((true, None),
     mkLocker (mkClient (<[lockKeyPrefix +:+ key :=
                            mkRecord token (Milliseconds expiration)]> (db c))
                        true)).
Proof.
  unfold ok, Lock, RedisLocker_is_Locker, RedisLocker_Lock, Eval. simpl.
  destruct (Err w ctx); [done|].
  destruct (reachable c) eqn:Hr; [|done].
  unfold lockScript, SET_NX_PX.
  destruct (Z.leb_spec (Milliseconds expiration) 0); [done|].
  destruct (db c !! (lockKeyPrefix +:+ key)); [done|].
  simpl. intros _. repeat split; try done.
Qed.

Lemma unlock_and_extend_fenced_absent w ctx key token c :
  db c !! (lockKeyPrefix +:+ key) = None →
  ok (Unlock w ctx key token (mkLocker (mkClient (db c) true))) = false ∧
  after (Unlock w ctx key token (mkLocker (mkClient (db c) true)))
    = mkLocker (mkClient (db c) true).
Proof.
  intros Hfree.
  unfold ok, after, Unlock, RedisLocker_is_Locker, RedisLocker_Unlock, Eval.
  simpl. destruct (Err w ctx); [done|].
  unfold unlockScript, GET. rewrite Hfree.
  cbn [fmap option_fmap option_map]. by rewrite decide_False.
Qed.

Lemma Unlock_by_holder w ctx key token t c :
  Err w ctx = None → reachable c = true →
  db c !! (lockKeyPrefix +:+ key) = Some (mkRecord token t) →
  Unlock w ctx key token (mkLocker c) =
    ((true, None),
     mkLocker (mkClient (delete (lockKeyPrefix +:+ key) (db c)) true)).
Proof.
  intros Hctx Hr Hrec.
  unfold Unlock, RedisLocker_is_Locker, RedisLocker_Unlock, Eval. simpl.
  rewrite Hctx, Hr. unfold unlockScript, GET, DEL. rewrite Hrec.
  cbn [fmap option_fmap option_map holder]. by rewrite decide_True.
Qed.

Lemma ExtendLockTTL_by_holder w ctx key token t expiration c :
  Err w ctx = None → reachable c = true →
  db c !! (lockKeyPrefix +:+ key) = Some (mkRecord token t) →
  ExtendLockTTL w ctx key token expiration (mkLocker c) =
    ((true, None),
     mkLocker (mkClient
       (if Milliseconds expiration <=? 0
        then delete (lockKeyPrefix +:+ key) (db c)
        else <[lockKeyPrefix +:+ key := mkRecord token (Milliseconds expiration)]>
               (db c))
       true)).
Proof.
  intros Hctx Hr Hrec.
  unfold ExtendLockTTL, RedisLocker_is_Locker, RedisLocker_ExtendLockTTL, Eval.
  simpl. rewrite Hctx, Hr. unfold extendTTLScript, GET, PEXPIRE.
  rewrite Hrec. cbn [fmap option_fmap option_map holder].
  by rewrite decide_True.
Qed.

End LockProtocol.

(** X5. Mutual exclusion, for as long as the record is stored.  A
    Lock that returns true found no record under the key and has
    stored the caller's token with the lease in milliseconds, touching
    no other key.  While a record is stored under the key, whoever
    holds it, every Lock on that key, with whatever token, context or
    lease, returns false and leaves the store as it is; so it is for
    the store the successful Lock left.  The exclusion ends with the
    record: once the lease has run out and the server has dropped the
    key, or on a key that was never taken, a Lock on a reachable
    server, under a live context and with a lease of at least one
    millisecond, returns true, for any token. *)
Theorem Lock_is_exclusive :
  ∀ (w : World) (ctx : Context) (key token : string) (expiration : Z)
    (l : locker.RedisLocker),
    let held := locker.after (locker.Lock w ctx key token expiration l) in
    (locker.ok (locker.Lock w ctx key token expiration l) = true →
     locker.stored key l = None ∧
     locker.stored key held
       = Some (locker.mkRecord token (locker.Milliseconds expiration)) ∧
     (∀ k, k ≠ locker.lockKeyPrefix +:+ key →
           locker.db (locker.redisClient held) !! k
           = locker.db (locker.redisClient l) !! k) ∧
     (∀ w' ctx' token' expiration',
        locker.ok (locker.Lock w' ctx' key token' expiration' held) = false ∧
        locker.after (locker.Lock w' ctx' key token' expiration' held) = held) ∧
     (∀ w' ctx' token' expiration',
        Err w' ctx' = None → 0 < locker.Milliseconds expiration' →
        locker.ok (locker.Lock w' ctx' key token' expiration'
                     (lease.ran_out key held)) = true)) ∧
    (is_Some (locker.stored key l) →
     locker.ok (locker.Lock w ctx key token expiration l) = false ∧
     locker.after (locker.Lock w ctx key token expiration l) = l) ∧
    (Err w ctx = None → locker.reachable (locker.redisClient l) = true →
     0 < locker.Milliseconds expiration → locker.stored key l = None →
     locker.ok (locker.Lock w ctx key token expiration l) = true).
Proof.
  intros w ctx key token expiration [c] held.
  assert (Hfree : ∀ w ctx token expiration c,
            Err w ctx = None → locker.reachable c = true →
            0 < locker.Milliseconds expiration →
            locker.db c !! (locker.lockKeyPrefix +:+ key) = None →
            locker.ok (locker.Lock w ctx key token expiration
                         (locker.mkLocker c)) = true).
  { clear. intros w ctx token expiration c Hctx Hr Hms Hfree.
    unfold locker.ok, locker.Lock, locker.RedisLocker_is_Locker,
      locker.RedisLocker_Lock, locker.Eval. simpl.
    rewrite Hctx, Hr. unfold locker.lockScript, locker.SET_NX_PX.
    destruct (Z.leb_spec (locker.Milliseconds expiration) 0); [lia|].
    by rewrite Hfree. }
  assert (Hheld : ∀ w ctx token expiration c,
            is_Some (locker.db c !! (locker.lockKeyPrefix +:+ key)) →
            locker.ok (locker.Lock w ctx key token expiration
                         (locker.mkLocker c)) = false ∧
            locker.after (locker.Lock w ctx key token expiration
                            (locker.mkLocker c)) = locker.mkLocker c).
  { clear. intros w ctx token expiration [d r] [rec Hrec].
    unfold locker.ok, locker.after, locker.Lock, locker.RedisLocker_is_Locker,
      locker.RedisLocker_Lock, locker.Eval. simpl in *.
    destruct (Err w ctx); [done|]. destruct r; [|done].
    unfold locker.lockScript, locker.SET_NX_PX.
    destruct (locker.Milliseconds expiration <=? 0); [done|].
    by rewrite Hrec. }
  split; [|split].
  - intros Hok.
    destruct (Lock_ok_inv w ctx key token expiration c Hok)
      as (Hctx & Hr & Hms & Hnone & Heq).
    subst held. rewrite Heq. unfold locker.after, locker.stored. simpl.
    split; [done|]. split; [by rewrite lookup_insert_eq|].
    split; [intros k Hk; by rewrite lookup_insert_ne|]. split.
    + intros w' ctx' token' expiration'. apply Hheld. simpl.
      rewrite lookup_insert_eq. by eexists.
    + intros w' ctx' token' expiration' Hctx' Hms'.
      unfold lease.ran_out. simpl. apply Hfree; try done. simpl.
      apply lookup_delete_eq.
  - intros Hrec. by apply Hheld.
  - intros Hctx Hr Hms Hnone. by apply Hfree.
Qed.

(** Two processes race for the cron election on an empty store; the
    second gets the lock only when the lease of the first has run
    out. *)
Lemma Lock_is_exclusive_witness :
  let l := locker.mkLocker (locker.mkClient ∅ true) in
  let held := locker.after (locker.Lock empty_world Background "watchdog_cron"
                              "first" 30000000000 l) in
  locker.ok (locker.Lock empty_world Background "watchdog_cron" "first"
               30000000000 l) = true ∧
  locker.stored "watchdog_cron" held = Some (locker.mkRecord "first" 30000) ∧
  locker.ok (locker.Lock empty_world Background "watchdog_cron" "second"
               30000000000 held) = false ∧
  locker.ok (locker.Lock empty_world Background "watchdog_cron" "second"
               30000000000 (lease.ran_out "watchdog_cron" held)) = true.
Proof.
  intros l held.
  assert (Hok : locker.ok (locker.Lock empty_world Background "watchdog_cron"
                             "first" 30000000000 l) = true).
  { apply (Lock_is_exclusive empty_world Background "watchdog_cron" "first"
             30000000000 l); reflexivity. }
  split; [exact Hok|].
  destruct (proj1 (Lock_is_exclusive empty_world Background "watchdog_cron"
                     "first" 30000000000 l) Hok)
    as (_ & Hst & _ & Hnext & Hout).
  split; [exact Hst|]. split.
  - apply (Hnext empty_world Background "second" 30000000000).
  - apply (Hout empty_world Background "second" 30000000000); reflexivity.
Defined.

(** X6. Lock and Unlock are inverse for the holder: after a Lock that
    returned true, Unlock with the same token (live context) returns
    true and puts the store back exactly as it was before the Lock; a
    second Unlock then returns false.  ExtendLockTTL with the same token
    instead returns true, keeps the holder and replaces the lease by the
    new one (of at least one millisecond). *)
Theorem Lock_then_Unlock_restores_the_store :
  ∀ (w w' : World) (ctx ctx' : Context) (key token : string)
    (expiration expiration' : Z) (l : locker.RedisLocker),
    locker.ok (locker.Lock w ctx key token expiration l) = true →
    Err w' ctx' = None →
    let held := locker.after (locker.Lock w ctx key token expiration l) in
    let released := locker.after (locker.Unlock w' ctx' key token held) in
    let extended :=
      locker.after (locker.ExtendLockTTL w' ctx' key token expiration' held) in
    locker.ok (locker.Unlock w' ctx' key token held) = true ∧
    released = l ∧
    locker.ok (locker.Unlock w' ctx' key token released) = false ∧
    locker.ok (locker.ExtendLockTTL w' ctx' key token expiration' held) = true ∧
    (0 < locker.Milliseconds expiration' →
     locker.stored key extended
       = Some (locker.mkRecord token (locker.Milliseconds expiration'))).
Proof.
  intros w w' ctx ctx' key token expiration expiration' [c] Hok Hctx'.
  destruct (Lock_ok_inv w ctx key token expiration c Hok)
    as (Hctx & Hr & Hms & Hfree & Heq).
  cbn zeta. rewrite Heq. unfold locker.after. cbn [snd].
  set (k := locker.lockKeyPrefix +:+ key) in *.
  set (c1 := locker.mkClient _ true).
  assert (Hrec : locker.db c1 !! k
                 = Some (locker.mkRecord token (locker.Milliseconds expiration)))
    by apply lookup_insert_eq.
  rewrite (Unlock_by_holder w' ctx' key token _ c1 Hctx' eq_refl Hrec).
  rewrite (ExtendLockTTL_by_holder w' ctx' key token _ expiration' c1
             Hctx' eq_refl Hrec).
  assert (Hback : delete k (locker.db c1) = locker.db c).
  { subst c1. simpl. by apply delete_insert_id. }
  fold k. rewrite Hback. cbn [snd].
  split; [done|]. split; [destruct c; simpl in *; by subst|]. split.
  - destruct (unlock_and_extend_fenced_absent w' ctx' key token c Hfree)
      as [-> _]. done.
  - split; [done|]. intros Hms'. unfold locker.stored. simpl.
    destruct (Z.leb_spec (locker.Milliseconds expiration') 0); [lia|].
    fold k. by rewrite lookup_insert_eq.
Qed.

(** The cron election is taken, renewed for a minute, and given back. *)
Lemma Lock_then_Unlock_restores_the_store_witness :
  let l := locker.mkLocker (locker.mkClient ∅ true) in
  let held := locker.after (locker.Lock empty_world Background "watchdog_cron"
                              "first" 30000000000 l) in
  locker.ok (locker.Unlock empty_world Background "watchdog_cron" "first" held)
    = true ∧
  locker.after (locker.Unlock empty_world Background "watchdog_cron" "first" held)
    = l ∧
  locker.stored "watchdog_cron"
    (locker.after (locker.ExtendLockTTL empty_world Background "watchdog_cron"
                     "first" 60000000000 held))
    = Some (locker.mkRecord "first" 60000).
Proof.
  intros l held.
  destruct (Lock_then_Unlock_restores_the_store empty_world empty_world
              Background Background "watchdog_cron" "first"
              30000000000 60000000000 l eq_refl eq_refl)
    as (H1 & H2 & _ & _ & H5).
  split; [exact H1|]. split; [exact H2|]. apply H5. reflexivity.
Defined.

(** X7. An error is never a success, and a refusal is not an error.
    Whenever one of the three methods returns a non-nil error, its
    boolean is false.  When the context is finished or the server
    cannot be reached the command is not sent: each method returns an
    error and the store stays as it is.  A Lock that reaches the
    server and finds the key held is refused with false and a nil
    error; a Lock with a lease under one millisecond is turned down by
    the server with an error and stores nothing. *)
Theorem locker_errors_are_not_refusals :
  ∀ (w : World) (ctx : Context) (key token : string) (expiration : Z)
    (l : locker.RedisLocker),
    let locked := locker.Lock w ctx key token expiration l in
    let unlocked := locker.Unlock w ctx key token l in
    let extended := locker.ExtendLockTTL w ctx key token expiration l in
    (is_Some locked.1.2 → locker.ok locked = false) ∧
    (is_Some unlocked.1.2 → locker.ok unlocked = false) ∧
    (is_Some extended.1.2 → locker.ok extended = false) ∧
    (Done w ctx = true ∨ locker.reachable (locker.redisClient l) = false →
     (is_Some locked.1.2 ∧ locker.after locked = l) ∧
     (is_Some unlocked.1.2 ∧ locker.after unlocked = l) ∧
     (is_Some extended.1.2 ∧ locker.after extended = l)) ∧
    (Done w ctx = false → locker.reachable (locker.redisClient l) = true →
     0 < locker.Milliseconds expiration → is_Some (locker.stored key l) →
     locked = ((false, None), l)) ∧
    (Done w ctx = false → locker.reachable (locker.redisClient l) = true →
     locker.Milliseconds expiration ≤ 0 →
     is_Some locked.1.2 ∧ locker.ok locked = false ∧ locker.after locked = l).
Proof.
  intros w ctx key token expiration [[d r]].
  unfold locker.ok, locker.after, locker.Lock, locker.Unlock,
    locker.ExtendLockTTL, locker.RedisLocker_is_Locker, locker.RedisLocker_Lock,
    locker.RedisLocker_Unlock, locker.RedisLocker_ExtendLockTTL, locker.Eval,
    locker.stored, Done.
  cbn [locker.redisClient locker.db locker.reachable].
  destruct (Err w ctx) as [e|]; cbn zeta.
  { repeat split; try done; by eexists. }
  destruct r.
  2:{ repeat split; try done; try by eexists. all: by intros [?|?]. }
  unfold locker.lockScript, locker.unlockScript, locker.extendTTLScript,
    locker.SET_NX_PX, locker.GET, locker.DEL, locker.PEXPIRE.
  split; [|split; [|split; [|split; [|split]]]].
  - destruct (locker.Milliseconds expiration <=? 0); [done|].
    destruct (d !! _); simpl; by intros [? [=]].
  - destruct (decide _); [destruct (d !! _)|]; simpl; by intros [? [=]].
  - destruct (decide _); [destruct (d !! _)|]; simpl; by intros [? [=]].
  - by intros [?|?].
  - intros _ _ Hms [rec Hrec].
    destruct (Z.leb_spec (locker.Milliseconds expiration) 0); [lia|].
    by rewrite Hrec.
  - intros _ _ Hms.
    destruct (Z.leb_spec (locker.Milliseconds expiration) 0); [|lia].
    simpl. repeat split. by eexists.
Qed.

(** The server is down: the three calls fail with an error and leave
    the record of the holder where it is. *)
Lemma locker_errors_are_not_refusals_witness :
  let l := locker.mkLocker (locker.mkClient
             {[ locker.lockKeyPrefix +:+ "watchdog_cron"
                := locker.mkRecord "first" 30000 ]} false) in
  (is_Some (locker.Lock empty_world Background "watchdog_cron" "first"
              30000000000 l).1.2 ∧
   locker.after (locker.Lock empty_world Background "watchdog_cron" "first"
                   30000000000 l) = l) ∧
  (is_Some (locker.Unlock empty_world Background "watchdog_cron" "first" l).1.2 ∧
   locker.after (locker.Unlock empty_world Background "watchdog_cron" "first" l)
   = l) ∧
  (is_Some (locker.ExtendLockTTL empty_world Background "watchdog_cron" "first"
              30000000000 l).1.2 ∧
   locker.after (locker.ExtendLockTTL empty_world Background "watchdog_cron"
                   "first" 30000000000 l) = l).
Proof.
  intros l.
  apply (locker_errors_are_not_refusals empty_world Background "watchdog_cron"
           "first" 30000000000 l).
  by right.
Defined.

(* ===================================================================== *)
(** * Properties: more on the leader-election watchdog                    *)
(* ===================================================================== *)

(** X8. Elect panics exactly on an empty election name.  Otherwise the
    election starts not leading, with an empty open channel, and with
    the configured expiration, or 30 seconds when that is not positive.
    The renewal period drawn for it is positive, at least a third and
    less than half of the expiration, so a lease is renewed at least
    twice before it runs out; only for an expiration under 10
    nanoseconds rand.Int63n panics instead. *)
Theorem Elect_defaults_and_renewal_period :
  ∀ (rwl : watchdog.RedisWatchdogLeader) (cfg : watchdog.Config)
    (value : string) (w : World),
    (watchdog.Elect rwl cfg value w = None ↔ watchdog.ElectionName cfg = "") ∧
    (∀ s, watchdog.Elect rwl cfg value w = Some s →
       let expiration := watchdog.Expiration (watchdog.cfg s) in
       watchdog.at_pc s = watchdog.Spawned ∧
       watchdog.isLeader s = false ∧ watchdog.watcher s = [] ∧
       watchdog.closed s = false ∧
       watchdog.ElectionName (watchdog.cfg s) = watchdog.ElectionName cfg ∧
       expiration = (if watchdog.Expiration cfg <=? 0
                     then 30 * 1000000000 else watchdog.Expiration cfg) ∧
       0 < expiration ∧
       (expiration < 10 → ∀ draw,
          election.renewIntervalJitter expiration draw = None) ∧
       (10 ≤ expiration → ∀ draw, 0 ≤ draw < Z.quot expiration 10 →
          ∃ period, election.renewIntervalJitter expiration draw = Some period ∧
                    0 < period ∧ Z.quot expiration 3 ≤ period ∧
                    2 * period < expiration)).
Proof.
  intros rwl cfg value w. unfold watchdog.Elect. split.
  - destruct (decide (watchdog.ElectionName cfg = "")); split; done.
  - intros s. destruct (decide (watchdog.ElectionName cfg = "")); [done|].
    intros [= <-]. cbn zeta. simpl.
    assert (Hpos : 0 < watchdog.Expiration
                     (if watchdog.Expiration cfg <=? 0
                      then watchdog.mkConfig (watchdog.ElectionName cfg)
                             watchdog.DefaultLeaderExpiration
                      else cfg)).
    { destruct (Z.leb_spec (watchdog.Expiration cfg) 0); simpl; [|done].
      unfold watchdog.DefaultLeaderExpiration. lia. }
    set (expiration := watchdog.Expiration _) in *.
    repeat split; try done.
    + by destruct (watchdog.Expiration cfg <=? 0).
    + subst expiration. by destruct (watchdog.Expiration cfg <=? 0).
    + intros Hsmall draw. unfold election.renewIntervalJitter.
      assert (Z.quot expiration 10 = 0) as -> by (apply Z.quot_small; lia).
      done.
    + intros Hbig draw Hdraw. unfold election.renewIntervalJitter.
      pose proof (Z.quot_pos expiration 10 ltac:(lia) ltac:(lia)).
      assert (Hq10 : 0 < Z.quot expiration 10).
      { apply Z.quot_str_pos; lia. }
      destruct (Z.leb_spec (Z.quot expiration 10) 0); [lia|].
      eexists. split; [reflexivity|].
      rewrite !Z.quot_div_nonneg in * by lia.
      pose proof (Z.mul_div_le expiration 3 ltac:(lia)).
      pose proof (Z.mul_div_le expiration 10 ltac:(lia)).
      assert (3 ≤ expiration `div` 3).
      { apply Z.div_le_lower_bound; lia. }
      lia.
Qed.

(** The cron election with its default of 30 seconds: the period lies
    between 10 and 13 seconds. *)
Lemma Elect_defaults_and_renewal_period_witness :
  ∃ period,
    election.renewIntervalJitter (30 * 1000000000) 1234567890 = Some period ∧
    0 < period ∧ Z.quot (30 * 1000000000) 3 ≤ period ∧
    2 * period < 30 * 1000000000.
Proof.
  destruct (Elect_defaults_and_renewal_period
              (fst watchdog.cron_leader) watchdog.cron_config "token-1"
              (snd watchdog.cron_leader)) as [_ Hstart].
  destruct (Hstart watchdog.cron_start eq_refl)
    as (_ & _ & _ & _ & _ & _ & _ & _ & Hperiod).
  apply Hperiod.
  - vm_compute. discriminate.
  - vm_compute. split; [discriminate | reflexivity].
Defined.

Section ElectionBookkeeping.
Import watchdog election.








End ElectionBookkeeping.



(** X10. A watchdog that is in its loop and not leading stays there
    until a Lock succeeds: whatever else happens (ticks whose Lock
    fails, cancellation, the subscriber reading) it does not return,
    does not close the channel and delivers nothing.  In particular
    after cancellation the [<-ctx.Done()] branch does nothing for it
    and can be taken again and again. *)
Theorem idle_watchdog_does_not_return_on_cancellation :
  ∀ (s s' : watchdog.state) (tr : list watchdog.label),
    watchdog.at_pc s = watchdog.Selecting → watchdog.isLeader s = false →
    Forall (λ l, l ≠ watchdog.select_tick true) tr →
    watchdog.run tr s = Some s' →
    watchdog.at_pc s' = watchdog.Selecting ∧
    watchdog.isLeader s' = false ∧
    watchdog.closed s' = watchdog.closed s ∧
    watchdog.delivered s' = watchdog.delivered s ∧
    (Done (watchdog.world s) (watchdog.ctx s) = true →
     Done (watchdog.world s') (watchdog.ctx s') = true ∧
     watchdog.step s' watchdog.select_done = Some s').
Proof.
  intros s s' tr Hpc Hl Htr. revert s Hpc Hl.
  induction Htr as [|l tr Hne _ IH]; intros s Hpc Hl; cbn [watchdog.run].
  - intros [= <-]. repeat split; try done.
    unfold watchdog.step. by rewrite Hpc, H, Hl.
  - destruct (watchdog.step s l) as [s1|] eqn:Hs; [|discriminate].
    intros Hrun.
    assert (Hs1 : watchdog.at_pc s1 = watchdog.Selecting ∧
                  watchdog.isLeader s1 = false ∧
                  watchdog.closed s1 = watchdog.closed s ∧
                  watchdog.delivered s1 = watchdog.delivered s).
    { unfold watchdog.step in Hs. rewrite Hpc in Hs.
      destruct l as [| | |ok| |ok| |]; try discriminate.
      - simplify_eq. by repeat split.
      - destruct (watchdog.watcher s); simplify_eq. by repeat split.
      - destruct (Done (watchdog.world s) (watchdog.ctx s)) eqn:HD;
          [|discriminate].
        rewrite Hl in Hs. simplify_eq. by repeat split.
      - rewrite Hl in Hs. simpl in Hs. destruct ok; [done|]. simplify_eq.
        repeat split; try done.
        rewrite delivered_move. simpl. by rewrite app_nil_r. }
    destruct Hs1 as (Hpc1 & Hl1 & Hc1 & Hd1).
    destruct (IH s1 Hpc1 Hl1 Hrun) as (? & ? & ? & ? & Hdone).
    repeat split; try congruence.
    + apply Hdone. by eapply step_still_done.
    + apply Hdone. by eapply step_still_done.
Qed.

(** The cron election is stopped before it ever got the lock. *)
Lemma idle_watchdog_does_not_return_on_cancellation_witness :
  let s := watchdog.reached [watchdog.scheduled; watchdog.first_lock false;
                             watchdog.stop] in
  let s' := watchdog.reached [watchdog.scheduled; watchdog.first_lock false;
                              watchdog.stop; watchdog.select_done;
                              watchdog.select_tick false; watchdog.select_done] in
  watchdog.at_pc s' = watchdog.Selecting ∧
  watchdog.isLeader s' = false ∧
  watchdog.closed s' = watchdog.closed s ∧
  watchdog.delivered s' = watchdog.delivered s ∧
  (Done (watchdog.world s) (watchdog.ctx s) = true →
   Done (watchdog.world s') (watchdog.ctx s') = true ∧
   watchdog.step s' watchdog.select_done = Some s').
Proof.
  intros s s'.
  apply (idle_watchdog_does_not_return_on_cancellation s s'
           [watchdog.select_done; watchdog.select_tick false;
            watchdog.select_done]).
  - reflexivity.
  - reflexivity.
  - repeat constructor; discriminate.
  - reflexivity.
Defined.

(* ===================================================================== *)
(** * Properties: starting and stopping the scheduler                     *)
(* ===================================================================== *)

Section StartFacts.
Import scheduler lifecycle.

Lemma start_jobs_spec parent jobs w :
  let r := start_jobs parent jobs w in
  (next w ≤ next r.2)%nat ∧ finished r.2 = finished w ∧
  Forall2 (λ nj nj', nj'.1 = nj.1 ∧ started_from parent w r.2 nj.2 nj'.2)
          jobs r.1.
Proof.
  revert w. induction jobs as [|[n j] jobs IH]; intros w.
  - simpl. split; [lia|]. split; [done | constructor].
  - cbn zeta. cbn [start_jobs]. unfold start_job, WithCancel.
    specialize (IH (mkWorld (finished w) (S (next w)))).
    destruct (start_jobs parent jobs (mkWorld (finished w) (S (next w))))
      as [rest w''] eqn:E.
    cbn zeta in IH. simpl in IH. destruct IH as (Hn & Hf & Hall). simpl.
    split; [lia|]. split; [exact Hf|].
    constructor.
    + split; [done|]. unfold started_from. simpl.
      split; [|by repeat split].
      exists (next w). split; [done|]. clear -Hn. lia.
    + eapply Forall2_impl; [exact Hall|]. simpl.
      intros nj nj' (Hk & (id & Hc & Hid) & Hrest).
      split; [exact Hk|]. split; [|exact Hrest].
      exists id. split; [exact Hc | simpl in Hid; lia].
Qed.

End StartFacts.

Section StartMap.
Import scheduler lifecycle.

(** The job map after Start, job by job. *)
Lemma Start_jobs parent s w :
  started s = false →
  let r := Start parent s w in
  let s' := r.1.1.1 in
  let w' := r.1.1.2 in
  started s' = true ∧ rate_cap s' = rate_cap s ∧ rate_len s' = rate_len s ∧
  (∀ n j', goroutines s' !! n = Some j' →
           ∃ j, goroutines s !! n = Some j ∧ started_from parent w w' j j') ∧
  (∀ n j, goroutines s !! n = Some j →
          ∃ j', goroutines s' !! n = Some j' ∧ started_from parent w w' j j') ∧
  length r.2 = size (goroutines s) ∧
  (∀ g, g ∈ r.2 → g.1 = parent ∧ ∃ n, goroutines s' !! n = Some g.2).
Proof.
  intros Hst. unfold Start. rewrite Hst.
  pose proof (start_jobs_spec parent (map_to_list (goroutines s)) w) as Hspec.
  pose proof (start_jobs_names parent (map_to_list (goroutines s)) w) as Hnames.
  destruct (start_jobs parent (map_to_list (goroutines s)) w) as [jobs w'].
  cbn zeta in Hspec. simpl in Hspec, Hnames. destruct Hspec as (_ & _ & Hall).
  cbn zeta. simpl.
  assert (Hnd : NoDup jobs.*1).
  { change (jobs.*1) with (map fst jobs). rewrite Hnames.
    apply NoDup_fst_map_to_list. }
  split; [done|]. split; [done|]. split; [done|].
  split; [|split; [|split]].
  - intros n j' Hj'. apply elem_of_list_to_map in Hj'; [|exact Hnd].
    apply list_elem_of_lookup in Hj' as [i Hi].
    destruct (Forall2_lookup_r _ _ _ _ _ Hall Hi) as ([n0 j] & Hi0 & Hk & Hrel).
    simpl in *. subst n0. exists j. split; [|exact Hrel].
    apply elem_of_map_to_list, list_elem_of_lookup. by exists i.
  - intros n j Hj. apply elem_of_map_to_list, list_elem_of_lookup in Hj as [i Hi].
    destruct (Forall2_lookup_l _ _ _ _ _ Hall Hi) as ([n0 j'] & Hi0 & Hk & Hrel).
    simpl in *. subst n0. exists j'. split; [|exact Hrel].
    apply elem_of_list_to_map; [exact Hnd|].
    apply list_elem_of_lookup. by exists i.
  - rewrite length_map, <- (Forall2_length _ _ _ Hall). apply length_map_to_list.
  - intros g (nj & -> & Hnj)%list_elem_of_fmap. simpl. split; [done|].
    exists nj.1. apply elem_of_list_to_map; [exact Hnd|]. by destruct nj.
Qed.

End StartMap.

Section TickFacts.
Import scheduler lifecycle.

Lemma NewJobScheduler_ticking rate : ticking (NewJobScheduler rate).
Proof.
  intros n j Hj. unfold NewJobScheduler in Hj.
  cbn [goroutines] in Hj. by apply lookup_empty_Some in Hj.
Qed.

Lemma Add_ticking cfg s : 0 < Tick cfg → ticking s → ticking (Add cfg s).2.
Proof.
  intros Hpos Hjobs. unfold Add. destruct (started s); [done|].
  destruct (goroutines s !! Name cfg) eqn:Hn; cbn [snd]; [done|].
  intros n j Hj. cbn [goroutines] in Hj.
  destruct (decide (Name cfg = n)) as [<-|Hne].
  - rewrite lookup_insert_eq in Hj. by injection Hj as <-.
  - rewrite lookup_insert_ne in Hj by done. by eapply Hjobs.
Qed.

End TickFacts.

(** X11. Start on a scheduler that is not started and whose jobs all
    have a positive tick (on any other tick time.NewTicker panics in
    the middle of Start) sets the flag and
    gives every registered job, and no other, a cancellable context
    derived from the context Start was given, a ticker of the job's
    tick and one more on its WaitGroup, leaving the rest of the job as
    it was; it hands one goroutine per job to GoRecover.  After that
    Add fails for every configuration and changes nothing, and a second
    Start only logs a warning: no context is made, no goroutine
    started. *)
Theorem Start_arms_every_job_once :
  ∀ (parent : Context) (s : scheduler.JobScheduler) (w : World),
    scheduler.started s = false → lifecycle.ticking s →
    let r := scheduler.Start parent s w in
    let s' := r.1.1.1 in
    let w' := r.1.1.2 in
    scheduler.started s' = true ∧
    (∀ n j', scheduler.goroutines s' !! n = Some j' →
       ∃ j, scheduler.goroutines s !! n = Some j ∧
            lifecycle.started_from parent w w' j j') ∧
    (∀ n j, scheduler.goroutines s !! n = Some j →
       ∃ j', scheduler.goroutines s' !! n = Some j' ∧
             lifecycle.started_from parent w w' j j') ∧
    length r.2 = size (scheduler.goroutines s) ∧
    (∀ g, g ∈ r.2 →
       g.1 = parent ∧ ∃ n, scheduler.goroutines s' !! n = Some g.2) ∧
    (∀ cfg, is_Some (scheduler.Add cfg s').1 ∧ (scheduler.Add cfg s').2 = s') ∧
    (∀ parent2 w2,
       scheduler.Start parent2 s' w2 =
         (s', w2,
          [mkLog WarnLevel "scheduler.start" "scheduler" "Start" "" None], [])).
Proof.
  intros parent s w Hst _ r s' w'.
  destruct (Start_jobs parent s w Hst) as (H1 & _ & _ & H2 & H3 & H4 & H5).
  fold r in H1, H2, H3, H4, H5. fold s' in H1, H2, H3, H5. fold w' in H2, H3.
  split; [exact H1|]. split; [exact H2|]. split; [exact H3|].
  split; [exact H4|]. split; [exact H5|]. split.
  - intros cfg. unfold scheduler.Add. rewrite H1. simpl. split; [by eexists|done].
  - intros parent2 w2. unfold scheduler.Start at 1. by rewrite H1.
Qed.

(** The scheduler of the quick start: one job, started under the root
    context. *)
Lemma Start_arms_every_job_once_witness :
  let s := (scheduler.Add scheduler.faulty (scheduler.NewJobScheduler 1)).2 in
  let r := scheduler.Start Background s empty_world in
  scheduler.started r.1.1.1 = true ∧
  length r.2 = 1%nat ∧
  (∀ cfg, is_Some (scheduler.Add cfg r.1.1.1).1 ∧
          (scheduler.Add cfg r.1.1.1).2 = r.1.1.1).
Proof.
  intros s r.
  assert (Ht : lifecycle.ticking s).
  { apply Add_ticking; [reflexivity | apply NewJobScheduler_ticking]. }
  destruct (Start_arms_every_job_once Background s empty_world eq_refl Ht)
    as (H1 & _ & _ & H4 & _ & H6 & _).
  split; [exact H1|]. split; [exact H4|]. exact H6.
Defined.

(** X12. Once the job's context is finished, exec does not call the job
    function, whichever case its select takes: it returns the context's
    error, logs nothing and leaves the contexts alone; run reports that
    error only if it is not context.Canceled.  The loop can then take
    its [<-ctx.Done()] case, which logs "Job stopped", calls wg.Done()
    and ends the goroutine for good. *)
Theorem finished_job_context_stops_the_job :
  ∀ (j : scheduler.job) (c : Context) (st : scheduler.running),
    scheduler.ctx j = Some c → scheduler.alive st = true →
    Done (scheduler.now st) c = true →
    (∀ pick st',
       scheduler.run_step j st (scheduler.on_tick pick) = Some st' →
       ∃ x, scheduler.executions st' = scheduler.executions st ++ [x] ∧
            scheduler.passed x = None ∧
            scheduler.err x = Err (scheduler.now st) c ∧
            scheduler.entries x = [] ∧
            scheduler.now st' = scheduler.now st ∧
            scheduler.alive st' = true ∧
            scheduler.log st' = scheduler.log st ++
              scheduler.report (scheduler.name j) (Err (scheduler.now st) c) ∧
            (Err (scheduler.now st) c = Some Canceled →
             scheduler.log st' = scheduler.log st)) ∧
    (∃ st', scheduler.run_step j st scheduler.on_done = Some st' ∧
            scheduler.alive st' = false ∧ scheduler.done_wg st' = true ∧
            scheduler.log st' = scheduler.log st
                                ++ [scheduler.stopped_entry (scheduler.name j)] ∧
            ∀ l, scheduler.run_step j st' l = None).
Proof.
  intros j c st Hc Halive HD. split.
  - intros pick st'. unfold scheduler.run_step. rewrite Halive, Hc.
    unfold scheduler.exec. rewrite Hc.
    assert (He : ∃ e, Err (scheduler.now st) c = Some e).
    { unfold Done in HD. destruct (Err (scheduler.now st) c); [by eexists|done]. }
    destruct He as [e He]. rewrite He.
    destruct pick.
    + rewrite HD. intros [= <-]. eexists. simpl.
      repeat split; try done. intros [= ->]. simpl. by rewrite app_nil_r.
    + destruct (_ <? _)%nat; [|done]. intros [= <-]. eexists. simpl.
      repeat split; try done. intros [= ->]. simpl. by rewrite app_nil_r.
  - unfold scheduler.run_step. rewrite Halive, Hc, HD.
    eexists. split; [reflexivity|]. by repeat split.
Qed.

(** The "heartbeat" job after its scheduler was stopped. *)
Lemma finished_job_context_stops_the_job_witness :
  let c := WithCancelCtx 0 Background in
  let st := scheduler.mkRunning true scheduler.one_slot
              (cancel c (mkWorld ∅ 1)) false [] [] in
  ∃ st', scheduler.run_step scheduler.faulty_job st scheduler.on_done = Some st' ∧
         scheduler.alive st' = false ∧ scheduler.done_wg st' = true ∧
         scheduler.log st' = scheduler.log st ++ [scheduler.stopped_entry "heartbeat"] ∧
         ∀ l, scheduler.run_step scheduler.faulty_job st' l = None.
Proof.
  intros c st.
  apply (finished_job_context_stops_the_job scheduler.faulty_job c st);
    reflexivity.
Defined.

Section StopFacts.
Import scheduler lifecycle.




End StopFacts.



Section AddedFacts.
Import scheduler lifecycle.

Lemma NewJobScheduler_added rate : added (NewJobScheduler rate).
Proof.
  split; [done|]. intros n j Hj. unfold NewJobScheduler in Hj.
  cbn [goroutines] in Hj. by apply lookup_empty_Some in Hj.
Qed.

Lemma Add_added cfg s : added s → added (Add cfg s).2.
Proof.
  intros [Hst Hjobs]. unfold Add. rewrite Hst.
  destruct (goroutines s !! Name cfg) eqn:Hn; cbn [snd]; [done|].
  split; [done|]. cbn [goroutines]. intros n j Hj.
  destruct (decide (Name cfg = n)) as [<-|Hne].
  - rewrite lookup_insert_eq in Hj. by injection Hj as <-.
  - rewrite lookup_insert_ne in Hj by done. by eapply Hjobs.
Qed.

End AddedFacts.

(** X14. The WaitGroup of a job is only ever released by a [run] that
    returns.  The jobs are as Add left them, each with a positive tick
    (on any other tick Start panics in time.NewTicker before it
    reaches the WaitGroup).  If Start is called under a context that
    is already done,
    it still adds one to every job's WaitGroup, but GoRecover starts no
    [run]: the counters stay at one whatever happens later, and the
    wait at the end of Stop has nothing that could end it.  Under a
    live context the goroutine of a job does enter [run], and once the
    job is cancelled and the loop takes its [<-ctx.Done()] case the
    counter is back at zero. *)
Theorem Stop_cannot_return_after_Start_under_a_done_context :
  ∀ (parent : Context) (s : scheduler.JobScheduler) (w0 w : World)
    (ls : list scheduler.run_label),
    lifecycle.added s → lifecycle.ticking s → later w0 w →
    let r := scheduler.Start parent s w0 in
    let s' := r.1.1.1 in
    let counters := map (λ g, lifecycle.counter g.2
                                (scheduler.job_goroutine w s' ls g)) r.2 in
    (Done w0 parent = true →
     Forall (λ n, n = 1%nat) counters ∧
     (scheduler.goroutines s ≠ ∅ → lifecycle.Wait_returns counters = false)) ∧
    (Done w parent = false →
     Forall (λ g, lifecycle.counter g.2
                    (scheduler.job_goroutine w s'
                       [scheduler.cancel_job; scheduler.on_done] g) = 0%nat)
            r.2).
Proof.
  intros parent s w0 w ls [Hst Hadded] _ Hl r s' counters.
  destruct (Start_jobs parent s w0 Hst) as (_ & _ & _ & H2 & _ & H4 & H5).
  fold r in H2, H4, H5. fold s' in H2, H5.
  assert (Hwg : ∀ g, g ∈ r.2 →
            scheduler.wg g.2 = 1%nat ∧ g.1 = parent ∧
            ∃ id, scheduler.ctx g.2 = Some (WithCancelCtx id parent)).
  { intros g Hg. destruct (H5 g Hg) as (Hp & n & Hn).
    destruct (H2 n _ Hn) as (j & Hj & (id & Hc & _) & _ & Hw & _).
    destruct (Hadded n j Hj) as [_ Hz]. split; [lia|]. split; [done|].
    by exists id. }
  split.
  - intros HD.
    assert (Hall : Forall (λ n, n = 1%nat) counters).
    { subst counters. apply Forall_fmap, Forall_forall. intros g Hg. simpl.
      destruct (Hwg g Hg) as (Hone & Hp & _).
      unfold scheduler.job_goroutine, utils.GoRecover.
      rewrite Hp, (Done_later _ _ _ Hl HD). exact Hone. }
    split; [exact Hall|]. intros Hne.
    assert (Hlen : length counters = size (scheduler.goroutines s)).
    { subst counters. by rewrite length_map. }
    destruct counters as [|n counters].
    + simpl in Hlen. symmetry in Hlen. by apply map_size_empty_iff in Hlen.
    + inversion Hall; subst. done.
  - intros Hlive. apply Forall_forall. intros g Hg.
    destruct (Hwg g Hg) as (Hone & Hp & id & Hc).
    unfold scheduler.job_goroutine, utils.GoRecover. rewrite Hp, Hlive.
    cbn [scheduler.run lifecycle.counter]. unfold scheduler.run_step at 1.
    cbn [scheduler.alive]. rewrite Hc. unfold scheduler.run_step.
    cbn [scheduler.alive scheduler.now]. rewrite Hc, Done_cancel_self.
    cbn [scheduler.done_wg]. by rewrite Hone.
Qed.

(** The one-job scheduler is started although the application context
    has already been cancelled. *)
Lemma Stop_cannot_return_after_Start_under_a_done_context_witness :
  let parent := WithCancelCtx 0 Background in
  let w0 := cancel parent (mkWorld ∅ 1) in
  let s := (scheduler.Add scheduler.faulty (scheduler.NewJobScheduler 1)).2 in
  let r := scheduler.Start parent s w0 in
  let counters := map (λ g, lifecycle.counter g.2
                              (scheduler.job_goroutine w0 r.1.1.1
                                 [scheduler.on_tick scheduler.take_rate] g)) r.2 in
  Forall (λ n, n = 1%nat) counters ∧
  (scheduler.goroutines s ≠ ∅ → lifecycle.Wait_returns counters = false).
Proof.
  intros parent w0 s r counters.
  refine (proj1 (Stop_cannot_return_after_Start_under_a_done_context
                   parent s w0 w0 [scheduler.on_tick scheduler.take_rate]
                   _ _ _) _).
  - apply Add_added, NewJobScheduler_added.
  - apply Add_ticking; [reflexivity | apply NewJobScheduler_ticking].
  - intros i e He. exact He.
  - reflexivity.
Defined.


(* ===================================================================== *)
(** * Properties: the supervisors of an application                       *)
(* ===================================================================== *)

Section SupervisionFacts.
Import application supervision.
Context {W : Type}.

Lemma takes_turns_snoc first cs :
  takes_turns first cs = true → takes_turns first (cs ++ [due first cs]) = true.
Proof.
  revert first. induction cs as [|c cs IH]; intros first.
  - intros _. unfold due. simpl. by destruct first.
  - cbn [takes_turns app]. destruct first, c; try discriminate; intros H.
    all: specialize (IH _ H); unfold due in *.
    all: destruct cs as [|c' cs]; [exact IH|].
    all: rewrite last_cons_cons.
    all: destruct (last (c' :: cs)) as [[|]|] eqn:E; try exact IH.
    all: by apply last_None in E.
Qed.

Lemma due_snoc first cs c : due first (cs ++ [c])
  = match c with called_Start => called_Stop | called_Stop => called_Start end.
Proof. unfold due. by rewrite last_snoc. Qed.

Lemma on_lost_in_step s u (st : supervising W) :
  looping st = true → in_step s u st → in_step s u (on_lost st).
Proof.
  intros Hl (Ht & Hu & HS & HP & Hc & Hd1 & Hd2).
  unfold on_lost. destruct (Working (sup st)) eqn:Hw;
    [|by repeat split; try assumption; rewrite ?Hw].
  specialize (Hd1 eq_refl).
  repeat split; simpl; try assumption; try done.
  - pose proof (takes_turns_snoc _ _ Ht) as Hs. by rewrite Hd1 in Hs.
  - unfold effect in *. by rewrite fold_left_app, <- Hu, HP.
  - intros _ _. apply due_snoc.
Qed.

Lemma on_taken_in_step s u (st : supervising W) :
  looping st = true → in_step s u st → in_step s u (on_taken st).
Proof.
  intros Hl (Ht & Hu & HS & HP & Hc & Hd1 & Hd2).
  unfold on_taken. destruct (Working (sup st)) eqn:Hw;
    [by repeat split; try assumption; rewrite ?Hw|].
  specialize (Hd2 Hl eq_refl).
  repeat split; simpl; try assumption; try done.
  - pose proof (takes_turns_snoc _ _ Ht) as Hs. by rewrite Hd2 in Hs.
  - unfold effect in *. by rewrite fold_left_app, <- Hu, HS.
  - intros _. apply due_snoc.
Qed.

Lemma looping_on_lost (st : supervising W) : looping (on_lost st) = looping st.
Proof. unfold on_lost. by destruct (Working (sup st)). Qed.

Lemma stopped_by_app_in_step s u (st : supervising W) :
  in_step s u st → in_step s u (stopped_by_app st).
Proof.
  intros (Ht & Hu & HS & HP & Hc & Hd1 & Hd2).
  unfold stopped_by_app, stop_supervisor.
  destruct (Working (sup st)) eqn:Hw; cbn [sup rt looping trail].
  - specialize (Hd1 eq_refl).
    repeat split; simpl; try assumption; try done.
    + pose proof (takes_turns_snoc _ _ Ht) as Hs. by rewrite Hd1 in Hs.
    + unfold effect in *. by rewrite fold_left_app, <- Hu, HP.
    + intros _ _. apply due_snoc.
  - rewrite app_nil_r.
    repeat split; simpl; try assumption; try done.
Qed.

Lemma loop_turn_in_step c s u (st : supervising W) t st' :
  in_step s u st → loop_turn c st t = Some st' → in_step s u st'.
Proof.
  intros Hin. unfold loop_turn. destruct (looping st) eqn:Hl; [|done].
  destruct t as [| |res| | |c'].
  - destruct (Done _ c); [|done]. intros [= <-].
    destruct Hin as (Ht & Hu & HS & HP & Hc & Hd1 & Hd2).
    by repeat split.
  - destruct (Done _ (sup_ctx _)); [|done]. intros [= <-].
    destruct Hin as (Ht & Hu & HS & HP & Hc & Hd1 & Hd2).
    by repeat split.
  - intros [= <-].
    assert (H1 : in_step s u
                   (if res =? watchdog.LostAcquire then on_lost st else st)).
    { destruct (res =? _); [by apply on_lost_in_step | exact Hin]. }
    destruct (res =? watchdog.TakenAcquire); [|exact H1].
    apply on_taken_in_step; [|exact H1].
    destruct (res =? _); [by rewrite looping_on_lost | exact Hl].
  - intros [= <-].
    destruct Hin as (Ht & Hu & HS & HP & Hc & Hd1 & Hd2).
    by repeat split.
  - done.
  - done.
Qed.

Lemma supervise_in_step c s u (st : supervising W) t st' :
  in_step s u st → supervise c st t = Some st' → in_step s u st'.
Proof.
  intros Hin. destruct t as [| |res| | |c']; cbn [supervise];
    try by apply loop_turn_in_step.
  - intros [= <-]. by apply stopped_by_app_in_step.
  - intros [= <-]. exact Hin.
Qed.

Lemma supervise_all_in_step c s u ts (st : supervising W) st' :
  in_step s u st → supervise_all c ts st = Some st' → in_step s u st'.
Proof.
  revert st. induction ts as [|t ts IH]; intros st Hin; simpl.
  - by intros [= <-].
  - destruct (supervise c st t) as [st1|] eqn:E; [|done].
    apply IH. by eapply supervise_in_step.
Qed.

(** The turn of App.Stop leaves the loop running, and free to start
    the subsystem again. *)
Lemma restart_after_app_stop c (st : supervising W) :
  looping st = true →
  supervise_all c [app_stops; received watchdog.TakenAcquire] st
  = Some (on_taken (stopped_by_app st)) ∧
  looping (on_taken (stopped_by_app st)) = true ∧
  Working (sup (on_taken (stopped_by_app st))) = true ∧
  last (trail (on_taken (stopped_by_app st))) = Some called_Start.
Proof.
  intros Hl.
  assert (Hs : looping (stopped_by_app st) = true ∧
               Working (sup (stopped_by_app st)) = false).
  { unfold stopped_by_app, stop_supervisor. by simpl. }
  destruct Hs as [Hl' Hw'].
  split; [|split; [|split]].
  - cbn [supervise_all supervise]. unfold loop_turn. rewrite Hl'.
    reflexivity.
  - unfold on_taken. rewrite Hw'. exact Hl'.
  - unfold on_taken. by rewrite Hw'.
  - unfold on_taken. rewrite Hw'. cbn [trail]. apply last_snoc.
Qed.

(** The loop itself finishes no context; what is finished stays so. *)
Lemma loop_turn_world c (st : supervising W) t st' :
  loop_turn c st t = Some st' → world (rt st') = world (rt st).
Proof.
  unfold loop_turn. destruct (looping st); [|done].
  destruct t as [| |res| | |c'].
  - destruct (Done _ c); [|done]. by intros [= <-].
  - destruct (Done _ (sup_ctx _)); [|done]. by intros [= <-].
  - intros [= <-].
    destruct (res =? watchdog.LostAcquire), (res =? watchdog.TakenAcquire);
      unfold on_lost, on_taken; destruct (Working (sup st)) eqn:Hw; simpl;
      rewrite ?Hw; done.
  - by intros [= <-].
  - done.
  - done.
Qed.

Lemma supervise_world c (st : supervising W) t st' :
  supervise c st t = Some st' → later (world (rt st)) (world (rt st')).
Proof.
  destruct t as [| |res| | |c']; cbn [supervise];
    try (intros H; rewrite (loop_turn_world _ _ _ _ H); by intros ? ? ?).
  - intros [= <-]. unfold stopped_by_app, stop_supervisor. simpl.
    apply later_finish.
  - intros [= <-]. simpl. apply later_finish.
Qed.

Lemma supervise_all_world c ts (st st' : supervising W) :
  supervise_all c ts st = Some st' → later (world (rt st)) (world (rt st')).
Proof.
  revert st. induction ts as [|t ts IH]; intros st; simpl.
  - intros [= <-]. by intros ? ? ?.
  - destruct (supervise c st t) as [st1|] eqn:E; [|done].
    intros H i e Hi. apply (IH _ H). by apply (supervise_world _ _ _ _ E).
Qed.

(** A derived context is done whenever its parent is. *)
Lemma Done_child w id p : Done w p = true → Done w (WithCancelCtx id p) = true.
Proof.
  unfold Done. simpl. destruct (finished w !! id); [done|]. auto.
Qed.

(** Finishing a context is not seen by a context that does not
    descend from it. *)
Lemma Err_finish_apart e c w c' :
  (∀ i, ctx_id c = Some i → i ∉ ids c') → Err (finish e c w) c' = Err w c'.
Proof.
  intros Hap. induction c' as [|id p IH|id d p IH]; simpl; [done| |].
  all: rewrite finish_other
    by (intros Hc; apply (Hap _ Hc); simpl; apply list_elem_of_here).
  all: rewrite IH; [done|]; intros i Hi Hin; apply (Hap _ Hi); simpl;
    by apply list_elem_of_further.
Qed.

Lemma stop_supervisors_spec (sups : list (LeaderSupervisor W)) rt :
  (stop_supervisors sups rt).1 = map (λ s, set_working s false) sups ∧
  user (stop_supervisors sups rt).2
  = fold_left (λ u s, application.Stop s u)
              (filter (λ s, Working s = true) sups) (user rt) ∧
  world (stop_supervisors sups rt).2
  = fold_left (λ w s, cancel (sup_ctx s) w) sups (world rt).
Proof.
  revert rt. induction sups as [|s sups IH]; intros rt; [done|].
  cbn [stop_supervisors].
  destruct (stop_supervisor s rt) as [s' rt'] eqn:E1.
  specialize (IH rt').
  destruct (stop_supervisors sups rt') as [r' rt''] eqn:E2.
  unfold stop_supervisor in E1. inversion E1; subst; clear E1.
  simpl in *. destruct IH as (IH1 & IH2 & IH3).
  rewrite IH1, IH2, IH3. repeat split.
  destruct (Working s) eqn:Hw.
  - by rewrite filter_cons_True.
  - by rewrite filter_cons_False by (rewrite Hw; discriminate).
Qed.

Lemma later_cancel_all (sups : list (LeaderSupervisor W)) w :
  later w (fold_left (λ w s, cancel (sup_ctx s) w) sups w).
Proof.
  revert w. induction sups as [|s sups IH]; intros w; simpl.
  - by intros ? ? ?.
  - intros i e Hi. apply IH. by apply later_finish.
Qed.

Lemma cancel_all_apart (sups : list (LeaderSupervisor W)) w c :
  Forall (λ s, ∀ i, ctx_id (sup_ctx s) = Some i → i ∉ ids c) sups →
  Err (fold_left (λ w s, cancel (sup_ctx s) w) sups w) c = Err w c.
Proof.
  revert w. induction sups as [|s sups IH]; intros w Hall; simpl; [done|].
  inversion Hall as [|? ? Hs Hrest]; subst.
  rewrite IH by exact Hrest. by apply Err_finish_apart.
Qed.

Lemma App_Stop_supervisors (app : App W) (rt : Runtime W) :
  let res := App_Stop app rt in
  let sups := leaderSupervisors app in
  leaderSupervisors res.1 = map (λ s, set_working s false) sups ∧
  user res.2
  = fold_left (λ u h, shutdownFunc h u) (shutdown_list app)
      (fold_left (λ u s, application.Stop s u)
         (filter (λ s, Working s = true) sups) (user rt)) ∧
  world res.2 = fold_left (λ w s, cancel (sup_ctx s) w) sups (world rt).
Proof.
  intros res sups.
  destruct (stop_supervisors_spec sups rt) as (H1 & H2 & H3).
  subst res. unfold App_Stop, shutdownAllAndDeleteAllCanceled. fold sups.
  destruct (stop_supervisors sups rt) as [l rt1].
  rewrite drain_spec. simpl in *. by rewrite H1, H2, H3.
Qed.

Lemma registered_snoc c rs x (r : Runtime W) :
  registered c (rs ++ [x]) r = register (registered c rs r) x.
Proof. unfold registered. by rewrite fold_left_app. Qed.

Lemma registered_spec c rs (r : Runtime W) :
  let res := registered c rs r in
  let sups := leaderSupervisors res.1 in
  ctx res.1 = c ∧
  map sup_ctx sups
  = map (λ i, WithCancelCtx i c) (seq (next (world r)) (length sups)) ∧
  next (world res.2) = (next (world r) + length sups)%nat ∧
  finished (world res.2) = finished (world r) ∧
  user res.2 = user r.
Proof.
  induction rs as [|x rs IH] using rev_ind; [by simpl; rewrite Nat.add_0_r|].
  rewrite registered_snoc. simpl in *.
  destruct (registered c rs r) as [app r1]. simpl in *.
  destruct IH as (Hc & Hs & Hn & Hf & Hu).
  destruct x as [h|s]; simpl; [done|].
  repeat split; try assumption.
  rewrite length_app, seq_app, !map_app, <- Hs. simpl.
  by rewrite Hc, Hn.
  rewrite length_app, Hn. simpl. lia.
Qed.

End SupervisionFacts.

(** X15. The closures of a supervisor that one goroutine watches
    (StartWatchdogsLeadership called once) are called strictly in turn,
    Start, Stop, Start, ... for a supervisor registered as not working
    (Stop first for one registered as working), counting together the
    calls of the supervising goroutine and those of [App.Stop], which
    takes its turn under the same mutex at any moment; and this
    whatever the watchdog's channel delivers, however often an event
    is repeated, and whichever contexts are cancelled meanwhile.  What
    the closures act on is exactly the result of the calls made so
    far, nothing that was finished comes back, and while the loop runs
    Working is true exactly when the last call was Start.  The turn of
    [App.Stop] does not end the loop: a loop that has not yet taken
    one of its Done cases afterwards still answers a TakenAcquire by
    calling Start. *)
Theorem supervisor_closures_take_turns :
  ∀ (W : Type) (app_ctx : Context) (s : application.LeaderSupervisor W)
    (r : application.Runtime W) (ts : list supervision.turn)
    (st : supervision.supervising W),
    supervision.supervise_all app_ctx ts (supervision.watch s r) = Some st →
    let first := if application.Working s
                 then supervision.called_Stop else supervision.called_Start in
    supervision.takes_turns first (supervision.trail st) = true ∧
    application.user (supervision.rt st)
    = supervision.effect s (supervision.trail st) (application.user r) ∧
    later (application.world r) (application.world (supervision.rt st)) ∧
    (supervision.looping st = true →
     application.Working (supervision.sup st)
     = match last (supervision.trail st) with
       | None => application.Working s
       | Some supervision.called_Start => true
       | Some supervision.called_Stop => false
       end) ∧
    (application.Working (supervision.sup st) = true →
     match last (supervision.trail st) with
     | None => application.Working s = true
     | Some c => c = supervision.called_Start
     end) ∧
    (supervision.looping st = true →
     ∃ st',
       supervision.supervise_all app_ctx
         [supervision.app_stops; supervision.received watchdog.TakenAcquire] st
       = Some st' ∧
       supervision.looping st' = true ∧
       application.Working (supervision.sup st') = true ∧
       last (supervision.trail st') = Some supervision.called_Start).
Proof.
  intros W app_ctx s r ts st Hrun first.
  assert (H0 : supervision.in_step s (application.user r)
                 (supervision.watch s r)).
  { unfold supervision.in_step, supervision.watch. simpl. repeat split.
    - intros ->. reflexivity.
    - intros _ ->. reflexivity. }
  destruct (supervise_all_in_step _ _ _ _ _ _ H0 Hrun)
    as (Ht & Hu & _ & _ & _ & Hd1 & Hd2).
  split; [exact Ht|]. split; [exact Hu|].
  split; [exact (supervise_all_world _ _ _ _ Hrun)|].
  split; [|split].
  - intros Hl. specialize (Hd2 Hl). unfold supervision.due in Hd1, Hd2.
    destruct (last (supervision.trail st)) as [[|]|],
      (application.Working (supervision.sup st)),
      (application.Working s); simpl in *;
      try reflexivity;
      try (by specialize (Hd1 eq_refl)); try (by specialize (Hd2 eq_refl)).
  - intros Hw. specialize (Hd1 Hw). unfold supervision.due in Hd1.
    destruct (last (supervision.trail st)) as [[|]|]; try done.
    by destruct (application.Working s).
  - intros Hl. exists (supervision.on_taken (supervision.stopped_by_app st)).
    apply restart_after_app_stop, Hl.
Qed.

(** The leader is taken twice and lost twice, App.Stop takes its
    turn, and the loop then sees the leader taken once more: Start,
    Stop, Start, Stop (by App.Stop), Start, the last one under a
    supervisor context that is done. *)
Lemma supervisor_closures_take_turns_witness :
  let c := WithCancelCtx 0 Background in
  let s := application.mkSupervisor c (application.note "start")
             (application.note "stop") "jobs" false in
  let r := application.mkRuntime [] (mkWorld ∅ 1) [] in
  ∃ st,
    supervision.supervise_all Background
      [supervision.received 2; supervision.received 2;
       supervision.received 1; supervision.received 1;
       supervision.received 7; supervision.received 2;
       supervision.app_stops; supervision.received 2]
      (supervision.watch s r) = Some st ∧
    supervision.trail st
    = [supervision.called_Start; supervision.called_Stop;
       supervision.called_Start; supervision.called_Stop;
       supervision.called_Start] ∧
    supervision.takes_turns supervision.called_Start (supervision.trail st)
    = true ∧
    application.user (supervision.rt st)
    = ["start"; "stop"; "start"; "stop"; "start"] ∧
    application.Working (supervision.sup st) = true ∧
    Done (application.world (supervision.rt st)) c = true.
Proof.
  intros c s r. eexists. split; [reflexivity|]. split; [reflexivity|].
  pose proof (supervisor_closures_take_turns (list string) Background s r
                [supervision.received 2; supervision.received 2;
                 supervision.received 1; supervision.received 1;
                 supervision.received 7; supervision.received 2;
                 supervision.app_stops; supervision.received 2]
                _ eq_refl) as (Ht & _).
  split; [exact Ht|]. split; [reflexivity|]. split; reflexivity.
Defined.

(** X16. The supervisor's context is a child of the application's, so
    once the application context is done the loop may leave through
    its [<-supervisor.ctx.Done()] case.  That case clears Working and
    returns without calling a closure and without a log line; the turn
    of [App.Stop] for this supervisor then finds Working false and
    does not call the Stop closure either, so what the closures act on
    stays as Start left it. *)
Theorem supervisor_exit_clears_Working_without_Stop :
  ∀ (W : Type) (app_ctx : Context) (id : nat) (st : supervision.supervising W),
    supervision.looping st = true →
    application.sup_ctx (supervision.sup st) = WithCancelCtx id app_ctx →
    Done (application.world (supervision.rt st)) app_ctx = true →
    ∃ st',
      supervision.supervise app_ctx st supervision.supervisor_done = Some st' ∧
      supervision.looping st' = false ∧
      application.Working (supervision.sup st') = false ∧
      supervision.trail st' = supervision.trail st ∧
      supervision.rt st' = supervision.rt st ∧
      application.user
        (application.stop_supervisor (supervision.sup st')
                                     (supervision.rt st')).2
      = application.user (supervision.rt st).
Proof.
  intros W app_ctx id st Hl Hc HD.
  unfold supervision.supervise, supervision.loop_turn.
  rewrite Hl, Hc, (Done_child _ _ _ HD). eexists. split; [reflexivity|].
  simpl. repeat split.
Qed.

(** A working supervisor whose application context is cancelled: the
    loop leaves, and the Stop closure is never called. *)
Lemma supervisor_exit_clears_Working_without_Stop_witness :
  let app_ctx := WithCancelCtx 0 Background in
  let s := application.mkSupervisor (WithCancelCtx 1 app_ctx)
             (application.note "start") (application.note "stop") "jobs"
             true in
  let r := application.mkRuntime ["start"]
             (cancel app_ctx (mkWorld ∅ 2)) [] in
  ∃ st',
    supervision.supervise app_ctx (supervision.mkSupervising s r true [])
                          supervision.supervisor_done = Some st' ∧
    application.user
      (application.stop_supervisor (supervision.sup st')
                                   (supervision.rt st')).2
    = ["start"].
Proof.
  intros app_ctx s r.
  destruct (supervisor_exit_clears_Working_without_Stop (list string)
              app_ctx 1 (supervision.mkSupervising s r true [])
              eq_refl eq_refl eq_refl)
    as (st' & Hs & _ & _ & _ & _ & Hu).
  exists st'. split; [exact Hs | exact Hu].
Defined.

(** X17. [App.Stop] goes through the supervisors in registration
    order: it cancels each one's context, calls the Stop closure of
    exactly those that are working, and leaves every one not working;
    only then the shutdown hooks run, on what the Stop closures left.
    Afterwards every supervisor context made by WithCancel is done,
    and nothing that had finished before is forgotten. *)
Theorem App_Stop_stops_working_supervisors_before_the_hooks :
  ∀ (W : Type) (app : application.App W) (rt : application.Runtime W),
    let res := application.App_Stop app rt in
    let sups := application.leaderSupervisors app in
    application.leaderSupervisors res.1
    = map (λ s, supervision.set_working s false) sups ∧
    application.user res.2
    = fold_left (λ u h, application.shutdownFunc h u)
        (application.shutdown_list app)
        (fold_left (λ u s, application.Stop s u)
           (filter (λ s, application.Working s = true) sups)
           (application.user rt)) ∧
    application.world res.2
    = fold_left (λ w s, cancel (application.sup_ctx s) w) sups
                (application.world rt) ∧
    (∀ s id p, s ∈ sups → application.sup_ctx s = WithCancelCtx id p →
               Done (application.world res.2) (application.sup_ctx s) = true) ∧
    later (application.world rt) (application.world res.2).
Proof.
  intros W app rt res sups.
  destruct (App_Stop_supervisors app rt) as (R1 & R2 & R3).
  fold res sups in R1, R2, R3.
  rewrite R1, R2, R3. repeat split.
  - intros s id p Hs Hc. clear -Hs Hc.
    generalize (application.world rt). induction sups as [|s' sups IH];
      intros w; [by apply elem_of_nil in Hs|].
    simpl. apply elem_of_cons in Hs as [<-|Hs]; [|by apply IH].
    eapply Done_later; [apply later_cancel_all|].
    rewrite Hc. apply Done_cancel_self.
  - apply later_cancel_all.
Qed.

(** X18. An application built by NewApp and calls of RegisterShutdown
    and RegisterWatchdogsLeadership, on a context [c] made before:
    every supervisor gets a context of its own, a fresh child of [c],
    in registration order; whenever [c] is done so is every supervisor
    context; and [App.Stop], which cancels the supervisors' contexts,
    leaves [c] as it was. *)
Theorem supervisor_contexts_are_fresh_children :
  ∀ (W : Type) (c : Context) (rs : list (supervision.registration W))
    (r rt : application.Runtime W),
    known (application.world r) c →
    let app := (supervision.registered c rs r).1 in
    let sups := application.leaderSupervisors app in
    application.ctx app = c ∧
    map application.sup_ctx sups
    = map (λ i, WithCancelCtx i c)
          (seq (next (application.world r)) (length sups)) ∧
    NoDup (map application.sup_ctx sups) ∧
    (∀ w s, s ∈ sups → Done w c = true →
            Done w (application.sup_ctx s) = true) ∧
    Err (application.world (application.App_Stop app rt).2) c
    = Err (application.world rt) c.
Proof.
  intros W c rs r rt Hk app sups.
  destruct (registered_spec c rs r) as (Hc & Hs & _).
  fold app in Hc, Hs. fold sups in Hs.
  assert (Hch : ∀ s, s ∈ sups →
            ∃ i, application.sup_ctx s = WithCancelCtx i c ∧
                 (next (application.world r) ≤ i)%nat).
  { intros s Hin.
    assert (Hm : application.sup_ctx s ∈ map application.sup_ctx sups)
      by (by apply list_elem_of_fmap_2).
    rewrite Hs in Hm. apply list_elem_of_fmap in Hm as (i & Hi & Hseq).
    exists i. split; [exact Hi|]. apply elem_of_seq in Hseq. lia. }
  repeat split; try assumption.
  - rewrite Hs. apply NoDup_fmap_2; [|apply NoDup_seq].
    intros i j [= Hij]. exact Hij.
  - intros w s Hin HD. destruct (Hch s Hin) as (i & -> & _).
    by apply Done_child.
  - destruct (App_Stop_supervisors app rt) as (_ & _ & Hw).
    cbv zeta in Hw. rewrite Hw. apply cancel_all_apart.
    apply Forall_forall. intros s Hin i Hi.
    destruct (Hch s Hin) as (i' & Hi' & Hle). rewrite Hi' in Hi.
    simpl in Hi. injection Hi as <-. intros Hmem.
    unfold known in Hk. rewrite Forall_forall in Hk.
    specialize (Hk _ Hmem). simpl in Hk. lia.
Qed.

(** Two supervisors and a hook registered on a cancellable context. *)
Lemma supervisor_contexts_are_fresh_children_witness :
  let c := WithCancelCtx 0 Background in
  let r := application.mkRuntime [] (mkWorld ∅ 1) [] in
  let s := application.mkSupervisor Background (application.note "start")
             (application.note "stop") "jobs" false in
  let app := (supervision.registered c
                [supervision.reg_supervisor s;
                 supervision.reg_shutdown
                   (application.mkShutdown 10 "db" (application.note "db"));
                 supervision.reg_supervisor s] r).1 in
  map application.sup_ctx (application.leaderSupervisors app)
  = [WithCancelCtx 1 c; WithCancelCtx 2 c] ∧
  Err (application.world (application.App_Stop app r).2) c = None.
Proof.
  intros c r s app.
  assert (Hk : known (application.world r) c).
  { constructor; [simpl; lia | constructor]. }
  destruct (supervisor_contexts_are_fresh_children (list string) c
              [supervision.reg_supervisor s;
               supervision.reg_shutdown
                 (application.mkShutdown 10 "db" (application.note "db"));
               supervision.reg_supervisor s] r r Hk)
    as (_ & Hs & _ & _ & He).
  split; [exact Hs | exact He].
Defined.


(* ===================================================================== *)
(** * Properties: every readiness barrier                                 *)
(* ===================================================================== *)

Section ReadinessFacts.
Import readiness_barrier readiness.

Lemma apply_wired p cfg o r w r' w' :
  wired p cfg r → apply o (r, w) = Some (r', w') → wired p cfg r'.
Proof.
  intros Hw. pose proof Hw as (Hp & Hc & Hlen & Hrun & Hlis & Hctx).
  unfold apply. destruct o as [|k|pick ctx sig|pick|c].
  - unfold Start. destruct (running r) eqn:Hr.
    + by intros [= <- <-].
    + unfold WithCancel. intros [= <- <-]. unfold wired. simpl.
      repeat split; try done.
      intros c [= <-]. rewrite Hp. by eexists.
  - unfold Stop. destruct (running r) eqn:Hr; [|by intros [= <- <-]].
    destruct (match listener r with
              | Some _ => last_turns k (signals r) (readinessFlag r)
              | None => (signals r, readinessFlag r)
              end) as [sigs flag].
    intros [= <- <-]. unfold wired. simpl.
    rewrite drop_signals_empty. simpl. unfold signals_cap.
    repeat split; try done; try lia.
  - unfold SendSignalCtx. destruct (running r) eqn:Hr.
    + destruct pick.
      * destruct (_ <? _)%nat eqn:Hlt; [|done]. intros [= <- <-].
        apply Nat.ltb_lt in Hlt. unfold wired. simpl.
        rewrite length_app. simpl.
        repeat split; try done; try lia.
        all: try by apply Hrun.
      * destruct (Done w ctx); [|done]. by intros [= <- <-].
    + by intros [= <- <-].
  - unfold listen. destruct (listener r) as [c|] eqn:Hl; [|done].
    destruct pick.
    + destruct (Done w c); [|done]. intros [= <- <-].
      unfold wired. simpl. repeat split; try done; try by apply Hrun.
    + destruct (signals r) as [|sig rest] eqn:Hs; [done|]. intros [= <- <-].
      unfold wired. simpl in *. repeat split; try done; try lia.
      all: try by apply Hrun.
  - by intros [= <- <-].
Qed.

Lemma history_wired p cfg ops st st' :
  wired p cfg st.1 → history ops st = Some st' → wired p cfg st'.1.
Proof.
  revert st. induction ops as [|o ops IH]; intros [r w] Hs; cbn [history].
  - intros [= <-]. exact Hs.
  - destruct (apply o (r, w)) as [[r1 w1]|] eqn:Ha; [|discriminate].
    apply IH. simpl. by eapply apply_wired.
Qed.

Lemma take_all_spec r w c :
  listener r = Some c →
  history (take_all r) (r, w)
  = Some (mkBarrier (config r) [] (flag_after (signals r) (readinessFlag r))
                    (parent r) (running r) (runCancel r) (listener r), w).
Proof.
  unfold take_all, flag_after. destruct r as [cfg sigs flag p run rc lis].
  simpl. intros ->. revert flag.
  induction sigs as [|sig sigs IH]; intros flag; [done|].
  simpl. apply IH.
Qed.

Lemma flag_after_snoc sigs sig flag :
  flag_after (sigs ++ [sig]) flag = toggle sig (flag_after sigs flag).
Proof. unfold flag_after. by rewrite fold_left_app. Qed.

End ReadinessFacts.

(** X19. Between calls.  Start, Stop and SendSignalCtx are taken here
    as whole calls that do not overlap one another, as when one
    goroutine makes them one after the other, while the listener takes
    its turns and contexts are cancelled in between.  After any such
    sequence on a barrier made by NewReadinessBarrier: its channel
    holds at most four signals; it is running exactly when it holds a
    cancel function; a listener, if there is one, runs under the
    context that cancel function cancels, a child of the barrier's
    parent; and a barrier that reports ready is running.  (Inside a
    call these need not hold: Start sets [running] before the cancel
    function, Stop clears it before the flag.) *)
Theorem barrier_stays_wired :
  ∀ (p : Context) (cfg : readiness_barrier.ReadinessBarrierConfig)
    (w0 w : World) (ops : list readiness_barrier.op)
    (r : readiness_barrier.ReadinessBarrier),
    readiness_barrier.history ops
      (readiness_barrier.NewReadinessBarrier p cfg, w0) = Some (r, w) →
    (length (readiness_barrier.signals r) ≤ 4)%nat ∧
    (readiness_barrier.running r = true
     ↔ is_Some (readiness_barrier.runCancel r)) ∧
    (∀ c, readiness_barrier.listener r = Some c →
          readiness_barrier.running r = true ∧
          readiness_barrier.runCancel r = Some c ∧
          ∃ id, c = WithCancelCtx id p) ∧
    (readiness_barrier.IsReady r = true → readiness_barrier.running r = true) ∧
    readiness_barrier.parent r = p ∧ readiness_barrier.config r = cfg.
Proof.
  intros p cfg w0 w ops r Hh.
  assert (Hw : readiness.wired p cfg r).
  { apply (history_wired p cfg ops
             (readiness_barrier.NewReadinessBarrier p cfg, w0) (r, w));
      [|exact Hh].
    unfold readiness.wired, readiness_barrier.signals_cap. simpl.
    repeat split; try done; try lia. }
  assert (Hs : readiness_barrier.settled r).
  { apply (history_settled ops
             (readiness_barrier.NewReadinessBarrier p cfg, w0) (r, w));
      [|exact Hh]. by intros _. }
  destruct Hw as (Hp & Hc & Hlen & Hrun & Hlis & Hctx).
  split; [exact Hlen|]. split; [exact Hrun|]. split; [|split; [|done]].
  - intros c Hc'. pose proof (Hlis _ Hc') as Hrc. split; [|split].
    + apply Hrun. rewrite Hrc. by eexists.
    + exact Hrc.
    + by apply Hctx.
  - unfold readiness_barrier.IsReady. intros Hready.
    destruct (readiness_barrier.running r) eqn:Hr; [done|].
    destruct (Hs Hr) as (Hf & _). congruence.
Qed.

(** Five sends on a started barrier whose listener is not scheduled:
    the fifth cannot put its signal into the channel. *)
Lemma barrier_stays_wired_witness :
  ∃ r w,
    readiness_barrier.history
      (readiness_barrier.call_Start ::
       repeat (readiness_barrier.call_SendSignalCtx
                 readiness_barrier.send_signal Background
                 readiness_barrier.ReadySignalToggle) 4)
      (readiness_barrier.NewReadinessBarrier Background
         (readiness_barrier.mkConfig "health"), empty_world) = Some (r, w) ∧
    length (readiness_barrier.signals r) = 4%nat ∧
    (length (readiness_barrier.signals r) ≤ 4)%nat ∧
    readiness_barrier.SendSignalCtx readiness_barrier.send_signal Background
      readiness_barrier.ReadySignalToggle r w = None.
Proof.
  eexists _, _. split; [reflexivity|]. split; [reflexivity|].
  split; [|reflexivity].
  refine (proj1 (barrier_stays_wired Background
                   (readiness_barrier.mkConfig "health") empty_world _
                   (readiness_barrier.call_Start ::
                    repeat (readiness_barrier.call_SendSignalCtx
                              readiness_barrier.send_signal Background
                              readiness_barrier.ReadySignalToggle) 4)
                   _ eq_refl)).
Defined.

(** X20. A listener that takes everything waiting in the channel
    takes the signals oldest first and leaves the channel empty, where
    its next receive has to wait.  A signal other than "ready" and
    "not_ready" changes nothing; so afterwards the barrier is ready
    exactly when the last recognised signal was "ready", and is as
    ready as before when no signal was recognised. *)
Theorem listener_applies_signals_in_order :
  ∀ (r : readiness_barrier.ReadinessBarrier) (w : World) (c : Context),
    readiness_barrier.listener r = Some c →
    ∃ r',
      readiness_barrier.history (readiness.take_all r) (r, w) = Some (r', w) ∧
      readiness_barrier.signals r' = [] ∧
      readiness_barrier.listen readiness_barrier.listener_signal r' w = None ∧
      readiness_barrier.running r' = readiness_barrier.running r ∧
      readiness_barrier.listener r' = Some c ∧
      readiness_barrier.IsReady r'
      = match last (filter readiness.recognised (readiness_barrier.signals r)) with
        | Some sig => bool_decide (sig = readiness_barrier.ReadySignalToggle)
        | None => readiness_barrier.IsReady r
        end.
Proof.
  intros r w c Hl. eexists. split; [by apply (take_all_spec r w c)|].
  simpl. rewrite Hl. repeat split.
  unfold readiness_barrier.IsReady. simpl.
  generalize (readiness_barrier.readinessFlag r).
  induction (readiness_barrier.signals r) as [|sig sigs IH] using rev_ind;
    intros flag; [done|].
  rewrite flag_after_snoc, filter_app, IH.
  unfold readiness_barrier.toggle, readiness.recognised.
  destruct (decide (sig = readiness_barrier.ReadySignalToggle)) as [->|Hn1].
  - rewrite filter_cons_True by (by left). rewrite filter_nil, last_snoc.
    done.
  - destruct (decide (sig = readiness_barrier.NotReadySignalToggle))
      as [->|Hn2].
    + rewrite filter_cons_True by (by right). rewrite filter_nil, last_snoc.
      done.
    + rewrite filter_cons_False by (intros [?|?]; done).
      rewrite filter_nil, app_nil_r. done.
Qed.

(** "ready", an unknown signal, "not_ready", another unknown one. *)
Lemma listener_applies_signals_in_order_witness :
  let c := WithCancelCtx 0 Background in
  let r := readiness_barrier.mkBarrier (readiness_barrier.mkConfig "health")
             ["ready"; "warm"; "not_ready"; "hot"] true Background true
             (Some c) (Some c) in
  ∃ r',
    readiness_barrier.history (readiness.take_all r) (r, mkWorld ∅ 1)
    = Some (r', mkWorld ∅ 1) ∧
    readiness_barrier.signals r' = [] ∧
    readiness_barrier.IsReady r' = false.
Proof.
  intros c r.
  destruct (listener_applies_signals_in_order r (mkWorld ∅ 1) c eq_refl)
    as (r' & Hh & Hs & _ & _ & _ & Hf).
  exists r'. split; [exact Hh|]. split; [exact Hs|]. rewrite Hf. reflexivity.
Defined.


(* ===================================================================== *)
(** * Properties: log lines                                               *)
(* ===================================================================== *)

Section LogLineFacts.
Import zap_engine.
Variable FormatFloat : Z → string.
Variable DurationString : Z → string.

Lemma append_assoc (a b c : string) : (a +:+ b) +:+ c = a +:+ (b +:+ c).
Proof. induction a as [|x a IH]; [done | exact (f_equal (String x) IH)]. Qed.

Lemma shown_kv f :
  shown FormatFloat DurationString f
  = let '(k, v, ok) := kv FormatFloat DurationString f in
    if ok then Some (if String.eqb k "" then v else k +:+ "=" +:+ v)
    else None.
Proof. reflexivity. Qed.

Lemma Join_cons e parts sep :
  Join (e :: parts) sep
  = match parts with [] => e | _ => e +:+ sep +:+ Join parts sep end.
Proof. by destruct parts. Qed.

(** The loop writes the fields that are shown, separated by commas,
    after an opening brace. *)
Lemma write_fields_spec fields sb first :
  write_fields FormatFloat DurationString fields sb first
  = match omap (shown FormatFloat DurationString) fields with
    | [] => (sb, first)
    | parts =>
        (sb +:+ (if first then " | {" else ", ") +:+ Join parts ", ", false)
    end.
Proof.
  revert sb first. induction fields as [|f fields IH]; intros sb first;
    [done|].
  cbn [write_fields omap list_omap]. rewrite shown_kv.
  destruct (kv FormatFloat DurationString f) as [[k v] ok].
  destruct ok; [|by rewrite IH]. rewrite IH.
  set (part := if String.eqb k "" then v else k +:+ "=" +:+ v).
  assert (Hpart : (if negb (String.eqb k "")
                   then ((if first then sb +:+ " | {" else sb +:+ ", ")
                           +:+ k) +:+ "="
                   else (if first then sb +:+ " | {" else sb +:+ ", "))
                    +:+ v
                  = sb +:+ (if first then " | {" else ", ") +:+ part).
  { subst part. destruct (String.eqb k ""), first; simpl negb; cbv iota;
      by rewrite ?append_assoc. }
  rewrite Hpart.
  destruct (omap (shown FormatFloat DurationString) fields) as [|p parts];
    [done|].
  rewrite Join_cons, !append_assoc. reflexivity.
Qed.

Lemma buildMessage_spec msg level f fields :
  buildMessage FormatFloat DurationString msg level (f :: fields)
  = match omap (shown FormatFloat DurationString) (f :: fields) with
    | [] => msg +:+ ", level->" +:+ level
    | parts =>
        msg +:+ " | {" +:+ Join parts ", " +:+ ", level->" +:+ level +:+ "}"
    end.
Proof.
  unfold buildMessage. rewrite write_fields_spec.
  destruct (omap (shown FormatFloat DurationString) (f :: fields));
    by rewrite !append_assoc.
Qed.

Lemma shown_component key s :
  s ≠ "" → String.eqb key "" = false →
  shown FormatFloat DurationString (WithField key (string_value s))
  = Some (key +:+ "=" +:+ s).
Proof.
  intros Hs Hk. rewrite shown_kv. unfold kv. simpl.
  apply String.eqb_neq in Hs. by rewrite Hs, Hk.
Qed.

(** The time since [start] is a Duration. *)
Lemma Sub_bounded t u : minDuration ≤ Sub t u ≤ maxDuration.
Proof.
  unfold Sub, minDuration, maxDuration.
  destruct (Z.gtb_spec (t - u) (2 ^ 63 - 1)); [lia|].
  destruct (Z.ltb_spec (t - u) (- 2 ^ 63)); lia.
Qed.

Lemma Milliseconds_since_bounded start now :
  - 9223372036854 ≤ Milliseconds_since start now ≤ 9223372036854.
Proof.
  unfold Milliseconds_since.
  pose proof (Sub_bounded now start) as [Hlo Hhi].
  unfold minDuration, maxDuration in *.
  split.
  - transitivity (Z.quot (- 2 ^ 63) 1000000); [by vm_compute|].
    apply Z.quot_le_mono; lia.
  - transitivity (Z.quot (2 ^ 63 - 1) 1000000); [|by vm_compute].
    apply Z.quot_le_mono; lia.
Qed.

Lemma Milliseconds_since_exact start now :
  - 2 ^ 63 ≤ now - start < 2 ^ 63 →
  Milliseconds_since start now = Z.quot (now - start) 1000000.
Proof.
  intros H. unfold Milliseconds_since, Sub, minDuration, maxDuration.
  destruct (Z.gtb_spec (now - start) (2 ^ 63 - 1)); [lia|].
  destruct (Z.ltb_spec (now - start) (- 2 ^ 63)); [lia|]. done.
Qed.

Lemma Milliseconds_since_saturated start now :
  2 ^ 63 ≤ now - start → Milliseconds_since start now = 9223372036854.
Proof.
  intros H. unfold Milliseconds_since, Sub, minDuration, maxDuration.
  destruct (Z.gtb_spec (now - start) (2 ^ 63 - 1)); [|lia]. done.
Qed.

Lemma shown_WithField key val :
  String.eqb key "" = false →
  shown FormatFloat DurationString (WithField key val) = None ∨
  ∃ v, shown FormatFloat DurationString (WithField key val)
       = Some (key +:+ "=" +:+ v).
Proof.
  intros Hk. rewrite shown_kv.
  destruct val as [|s|b|n|n|n|bits|n|e|a]; unfold kv; simpl.
  - by left.
  - destruct (String.eqb s ""); [by left|]. right. rewrite Hk. by eexists.
  - destruct b; simpl; right; rewrite Hk; by eexists.
  - right. rewrite Hk. by eexists.
  - right. rewrite Hk. by eexists.
  - destruct (n >? MaxInt64); simpl; right; rewrite Hk; by eexists.
  - right. rewrite Hk. by eexists.
  - right. rewrite Hk. by eexists.
  - right. rewrite Hk. by eexists.
  - right. rewrite Hk. by eexists.
Qed.

Lemma shown_WithError err :
  shown FormatFloat DurationString (WithError err)
  = (λ e, "error=" +:+ Error e) <$> err.
Proof. by destruct err. Qed.

Lemma Forall_omap {A B} (f : A → option B) (P : B → Prop) l :
  Forall (λ x, ∀ y, f x = Some y → P y) l → Forall P (omap f l).
Proof.
  induction 1 as [|x l Hx Hl IH]; [constructor|].
  cbn [omap list_omap]. destruct (f x) as [y|] eqn:E; [|exact IH].
  constructor; [by apply Hx | exact IH].
Qed.

End LogLineFacts.

(** X21. How a number given to [WithField] is written into the line.
    An int of any width and a uint64 up to the full 64 bits are
    written as they are, and a float gets back exactly its own bit
    pattern; but a [uint] above MaxInt64 goes through [int64] without
    the check that uint64 has, and is written as the negative number
    2^64 less. *)
Theorem WithField_numbers_as_written :
  ∀ (FormatFloat DurationString : Z → string) (key : string) (n : Z),
    0 ≤ n < 2 ^ 64 →
    let kv := zap_engine.kv FormatFloat DurationString in
    kv (zap_engine.WithField key (zap_engine.uint64_value n))
    = (key, pretty n, true) ∧
    kv (zap_engine.WithField key (zap_engine.float_value n))
    = (key, FormatFloat n, true) ∧
    kv (zap_engine.WithField key (zap_engine.uint_value n))
    = (key, pretty (if n >? zap_engine.MaxInt64 then n - 2 ^ 64 else n), true) ∧
    (∀ i, kv (zap_engine.WithField key (zap_engine.int_value i))
          = (key, pretty i, true)).
Proof.
  intros FormatFloat DurationString key n Hn kv. subst kv.
  unfold zap_engine.WithField, zap_engine.to_int64.
  split; [|split; [|split]].
  - destruct (n >? zap_engine.MaxInt64) eqn:E; reflexivity.
  - unfold zap_engine.kv. cbn [zap_engine.Type_ zap_engine.Integer zap_engine.Key].
    do 2 f_equal. f_equal. unfold zap_engine.to_uint64.
    destruct (n >? zap_engine.MaxInt64) eqn:E.
    + replace (n - 2 ^ 64) with (n + (-1) * 2 ^ 64) by lia.
      rewrite Z.mod_add by lia. apply Z.mod_small. lia.
    + apply Z.mod_small. lia.
  - reflexivity.
  - reflexivity.
Qed.

(** The largest uint64 is written in full; the same number as a
    [uint] is written as -1. *)
Lemma WithField_numbers_as_written_witness :
  let kv := zap_engine.kv (λ _, "f") (λ _, "d") in
  kv (zap_engine.WithField "n" (zap_engine.uint64_value 18446744073709551615))
  = ("n", "18446744073709551615", true) ∧
  kv (zap_engine.WithField "n" (zap_engine.uint_value 18446744073709551615))
  = ("n", "-1", true).
Proof.
  intros kv.
  assert (Hn : 0 ≤ 18446744073709551615 < 2 ^ 64) by lia.
  destruct (WithField_numbers_as_written (λ _, "f") (λ _, "d") "n"
              18446744073709551615 Hn) as (H64 & _ & Hu & _).
  split; [exact H64 | exact Hu].
Defined.

(** X22. A field made by [WithField] is left out of the line exactly
    when its value is the empty string or nil, and is otherwise
    written under its own key; the field made by [WithError] is left
    out exactly when the error is nil. *)
Theorem WithField_is_left_out_when_empty_or_nil :
  ∀ (FormatFloat DurationString : Z → string) (key : string)
    (val : zap_engine.value) (err : option error),
    let kv := zap_engine.kv FormatFloat DurationString in
    ((kv (zap_engine.WithField key val)).2 = false
     ↔ val = zap_engine.string_value "" ∨ val = zap_engine.nil_value) ∧
    ((kv (zap_engine.WithField key val)).2 = true →
     (kv (zap_engine.WithField key val)).1.1 = key) ∧
    ((kv (zap_engine.WithError err)).2 = false ↔ err = None) ∧
    (∀ e, kv (zap_engine.WithError (Some e)) = ("error", Error e, true)).
Proof.
  intros FormatFloat DurationString key val err kv. subst kv.
  split; [|split; [|split]].
  - destruct val as [|s|b|n|n|n|bits|n|e|a]; simpl.
    + split; [by right | done].
    + unfold zap_engine.kv. simpl. destruct (String.eqb s "") eqn:E; simpl.
      * apply String.eqb_eq in E. subst. split; [by left | done].
      * apply String.eqb_neq in E. split; [done|].
        intros [[= ->]|[=]]. done.
    + destruct b; simpl; split; try done; intros [[=]|[=]].
    + split; try done; intros [[=]|[=]].
    + split; try done; intros [[=]|[=]].
    + destruct (n >? zap_engine.MaxInt64); simpl; split; try done;
        intros [[=]|[=]].
    + split; try done; intros [[=]|[=]].
    + split; try done; intros [[=]|[=]].
    + split; try done; intros [[=]|[=]].
    + split; try done; intros [[=]|[=]].
  - destruct val as [|s|b|n|n|n|bits|n|e|a]; simpl; try done.
    + unfold zap_engine.kv. simpl. by destruct (String.eqb s "").
    + by destruct b.
    + by destruct (n >? zap_engine.MaxInt64).
  - destruct err; simpl; split; done.
  - reflexivity.
Qed.

(** X23. The line [buildMessage] builds, for a list of fields that is
    not empty: the message, then the fields that are not left out,
    each as key=value (the value alone under an empty key), separated
    by commas inside braces, then the level before the closing brace.
    When every field is left out there are no braces, but the level
    is still appended; only for an empty list is the message returned
    as it is. *)
Theorem buildMessage_line :
  ∀ (FormatFloat DurationString : Z → string) (msg level : string)
    (fields : list zap_engine.Field),
    fields ≠ [] →
    zap_engine.buildMessage FormatFloat DurationString msg level fields
    = match omap (zap_engine.shown FormatFloat DurationString) fields with
      | [] => msg +:+ ", level->" +:+ level
      | parts =>
          msg +:+ " | {" +:+ zap_engine.Join parts ", "
              +:+ ", level->" +:+ level +:+ "}"
      end ∧
    zap_engine.buildMessage FormatFloat DurationString msg level [] = msg.
Proof.
  intros FormatFloat DurationString msg level fields Hne.
  split; [|reflexivity].
  destruct fields as [|f fields]; [done|]. apply buildMessage_spec.
Qed.

(** A string, an empty string, a keyless flag and a duration. *)
Lemma buildMessage_line_witness :
  zap_engine.buildMessage (λ _, "f") (λ _, "1.5s") "job done" "info"
    [zap_engine.WithField "job" (zap_engine.string_value "sync");
     zap_engine.WithField "note" (zap_engine.string_value "");
     zap_engine.WithField "" (zap_engine.bool_value true);
     zap_engine.WithField "took" (zap_engine.duration_value 1500000000)]
  = "job done | {job=sync, true, took=1.5s, level->info}".
Proof.
  refine (eq_trans (proj1 (buildMessage_line (λ _, "f") (λ _, "1.5s")
                             "job done" "info" _ _)) _).
  - discriminate.
  - reflexivity.
Defined.

(** X24. What [WriteInfoLog] and its siblings write for an entry.
    The fields are always the same six, so the level is always
    appended: an entry that carries nothing but its message is written
    as the message and the level, without braces.  An entry with a
    component is written with the component first inside the braces
    and the level last.  The latency is written exactly when the entry
    has a start time, in whole milliseconds of the time since then;
    that time is a Duration, so a start too far back is written as
    9223372036854 ms and no latency is ever larger. *)
Theorem written_entry_line :
  ∀ (FormatFloat DurationString : Z → string) (level : string)
    (entry : zap_engine.Entry) (now : Z),
    let line := zap_engine.written FormatFloat DurationString level entry now in
    let parts := omap (zap_engine.shown FormatFloat DurationString)
                      (zap_engine.unpack entry now).2 in
    (zap_engine.entry_Component entry ≠ "" →
     ∃ rest, line = zap_engine.entry_Msg entry +:+ " | {component="
                    +:+ zap_engine.entry_Component entry +:+ rest
                    +:+ ", level->" +:+ level +:+ "}") ∧
    (∀ msg, zap_engine.written FormatFloat DurationString level
              (zap_engine.mkEntry msg zap_engine.nil_value
                 zap_engine.nil_value None "" "" None) now
            = msg +:+ ", level->" +:+ level) ∧
    (∀ start, zap_engine.entry_Start entry = Some start →
       "latency=" +:+ pretty (zap_engine.Milliseconds_since start now)
                  +:+ " ms" ∈ parts ∧
       - 9223372036854 ≤ zap_engine.Milliseconds_since start now
         ≤ 9223372036854 ∧
       (- 2 ^ 63 ≤ now - start < 2 ^ 63 →
        zap_engine.Milliseconds_since start now
        = Z.quot (now - start) 1000000) ∧
       (2 ^ 63 ≤ now - start →
        zap_engine.Milliseconds_since start now = 9223372036854)) ∧
    (zap_engine.entry_Start entry = None →
     Forall (λ p, prefixb "latency=" p = false) parts).
Proof.
  intros FormatFloat DurationString level entry now line parts.
  split; [|split; [|split]].
  - intros Hc. subst line. unfold zap_engine.written.
    destruct (zap_engine.unpack entry now) as [msg fields] eqn:Hu.
    assert (Hf : msg = zap_engine.entry_Msg entry ∧
              ∃ rest, fields
                = zap_engine.WithField "component"
                    (zap_engine.string_value (zap_engine.entry_Component entry))
                  :: rest).
    { unfold zap_engine.unpack in Hu.
      destruct (zap_engine.entry_Start entry); inversion Hu; subst;
        (split; [reflexivity | by eexists]). }
    destruct Hf as (-> & rest & ->).
    rewrite buildMessage_spec. cbn [omap list_omap].
    rewrite (shown_component FormatFloat DurationString "component" _ Hc
               eq_refl).
    rewrite Join_cons.
    destruct (omap (zap_engine.shown FormatFloat DurationString) rest)
      as [|p ps].
    + exists "". reflexivity.
    + exists (", " +:+ zap_engine.Join (p :: ps) ", ").
      rewrite !append_assoc. reflexivity.
  - intros msg. unfold zap_engine.written, zap_engine.unpack.
    cbn [zap_engine.entry_Start]. by rewrite buildMessage_spec.
  - intros start Hs. split; [|split; [|split]].
    + subst parts. unfold zap_engine.unpack. rewrite Hs.
      cbn [snd]. apply list_elem_of_omap.
      eexists.
      split; [do 4 apply list_elem_of_further; apply list_elem_of_here|].
      apply (shown_component _ _ "latency"); [|reflexivity].
      by destruct (pretty (zap_engine.Milliseconds_since start now)).
    + apply Milliseconds_since_bounded.
    + apply Milliseconds_since_exact.
    + apply Milliseconds_since_saturated.
  - intros Hs. subst parts. unfold zap_engine.unpack. rewrite Hs. cbn [snd].
    apply Forall_omap. repeat constructor.
    1-4: intros y Hy;
      match type of Hy with
      | zap_engine.shown _ _ (zap_engine.WithField ?k ?v) = _ =>
          destruct (shown_WithField FormatFloat DurationString k v eq_refl)
            as [Hn|[v' Hv]]; [congruence|];
          rewrite Hv in Hy; injection Hy as <-; reflexivity
      end.
    + intros y Hy. discriminate Hy.
    + intros y Hy. rewrite shown_WithError in Hy.
      destruct (zap_engine.entry_Error entry); [|discriminate].
      injection Hy as <-. reflexivity.
Qed.

(** A timed entry with an error; and the time since the zero
    time.Time, year 1, read in 2026. *)
Lemma written_entry_line_witness :
  let timed := zap_engine.mkEntry "lock failed" zap_engine.nil_value
                 (zap_engine.uint64_value 3) (Some Canceled) "watchdog"
                 "Elect" (Some 1000000000) in
  let line := zap_engine.written (λ _, "f") (λ _, "d") "error" timed
                1012345678 in
  (line
   = "lock failed | {component=watchdog, method=Elect, result=3, latency=12 ms, error=context canceled, level->error}"
   ∧ ∃ rest, line = "lock failed" +:+ " | {component=" +:+ "watchdog" +:+ rest
                    +:+ ", level->" +:+ "error" +:+ "}") ∧
  zap_engine.Milliseconds_since (- 62135596800000000000) 1790000000000000000
  = 9223372036854.
Proof.
  intros timed line. split; [split; [reflexivity|]|].
  - refine (proj1 (written_entry_line (λ _, "f") (λ _, "d") "error" timed
                     1012345678) _).
    discriminate.
  - pose (old := zap_engine.mkEntry "" zap_engine.nil_value
                   zap_engine.nil_value None "" ""
                   (Some (- 62135596800000000000))).
    destruct (proj1 (proj2 (proj2 (written_entry_line (λ _, "f") (λ _, "d")
                                     "info" old 1790000000000000000)))
                    (- 62135596800000000000) eq_refl)
      as (_ & _ & _ & Hsat).
    apply Hsat. vm_compute. discriminate.
Defined.

(* ===================================================================== *)
(** * Properties: signals and recovered panics                            *)
(* ===================================================================== *)

Section SignalFacts.
Import signals.

Lemma shutdowns_snoc st e :
  length (filter (λ e, Method e = "Start") (logs st ++ [e]))
  = (shutdowns st + (if decide (Method e = "Start") then 1 else 0))%nat.
Proof.
  unfold shutdowns. rewrite filter_app, length_app.
  destruct (decide (Method e = "Start")) as [H|H].
  - by rewrite filter_cons_True.
  - by rewrite filter_cons_False.
Qed.

(** The channel never holds more than one signal, and the goroutine
    of Start announces a shutdown once, on its way out. *)
Lemma step_bounded c st ev st' :
  (length (sig st) ≤ 1)%nat →
  (shutdowns st + (if reading st then 1 else 0) ≤ 1)%nat →
  step c st ev = Some st' →
  (length (sig st') ≤ 1)%nat ∧
  (shutdowns st' + (if reading st' then 1 else 0) ≤ 1)%nat ∧
  (reading st = false →
   reading st' = false ∧ shutdowns st' = shutdowns st ∧
   (length (sig st') = length (sig st) + (if is_recovered ev then 1 else 0))%nat
   ∨ (is_recovered ev = false ∧ reading st' = false ∧
      shutdowns st' = shutdowns st ∧
      (length (sig st) ≤ length (sig st'))%nat)).
Proof.
  intros Hlen Hsh. destruct ev as [s|r|  |c']; simpl.
  - destruct (notified st && (length (sig st) <? sig_cap)%nat) eqn:E.
    + apply andb_true_iff in E as [_ E]. apply Nat.ltb_lt in E.
      unfold sig_cap in E. intros [= <-]. simpl. rewrite length_app. simpl.
      split; [lia|]. split; [exact Hsh|]. intros Hr. right.
      unfold shutdowns. simpl. repeat split; try done. lia.
    + intros [= <-]. split; [done|]. split; [done|]. intros Hr. by left.
  - destruct (length (sig st) <? sig_cap)%nat eqn:E; [|done].
    apply Nat.ltb_lt in E. unfold sig_cap in E. intros [= <-]. simpl.
    rewrite length_app. simpl.
    assert (Hs : shutdowns
                   (mkShell (sig st ++ [SIGTERM]) (reading st) (notified st)
                            (world st) (logs st ++ [panic_entry r]))
                 = shutdowns st).
    { unfold shutdowns at 1. cbn [logs]. rewrite shutdowns_snoc.
      destruct (decide _) as [Hd|Hd]; [discriminate Hd | lia]. }
    rewrite Hs. split; [lia|]. split; [exact Hsh|]. intros Hr. by left.
  - destruct (reading st) eqn:Hr; [|done].
    destruct (sig st) as [|s rest] eqn:Hsig; [done|]. intros [= <-]. simpl.
    simpl in Hlen.
    assert (Hs : shutdowns
                   (mkShell rest false false (cancel c (world st))
                            (logs st ++ [signal_entry]))
                 = S (shutdowns st)).
    { unfold shutdowns at 1. cbn [logs]. rewrite shutdowns_snoc.
      destruct (decide _) as [Hd|Hd]; [lia | by destruct Hd]. }
    rewrite Hs. split; [lia|]. split; [lia|]. done.
  - intros [= <-]. simpl. split; [done|]. split; [exact Hsh|].
    intros Hr. by left.
Qed.

Lemma Start_bounded app_ctx w :
  (length (sig (Start app_ctx w)) ≤ 1)%nat ∧
  (shutdowns (Start app_ctx w)
   + (if reading (Start app_ctx w) then 1 else 0) ≤ 1)%nat.
Proof.
  unfold Start, utils.GoRecover.
  destruct (Done w app_ctx); split; vm_compute; lia.
Qed.

Lemma run_bounded c evs st st' :
  (length (sig st) ≤ 1)%nat →
  (shutdowns st + (if reading st then 1 else 0) ≤ 1)%nat →
  run c evs st = Some st' →
  (length (sig st') ≤ 1)%nat ∧
  (shutdowns st' + (if reading st' then 1 else 0) ≤ 1)%nat.
Proof.
  revert st. induction evs as [|ev evs IH]; intros st Hlen Hsh; simpl.
  - by intros [= <-].
  - destruct (step c st ev) as [st1|] eqn:E; [|done].
    destruct (step_bounded c st ev st1 Hlen Hsh E) as (H1 & H2 & _).
    by apply IH.
Qed.

Lemma run_after_shutdown c evs st st' :
  (length (sig st) ≤ 1)%nat →
  (shutdowns st + (if reading st then 1 else 0) ≤ 1)%nat →
  reading st = false →
  run c evs st = Some st' →
  reading st' = false ∧ shutdowns st' = shutdowns st ∧
  (length (sig st) + panics_handled evs ≤ length (sig st'))%nat.
Proof.
  revert st. induction evs as [|ev evs IH]; intros st Hlen Hsh Hr; simpl.
  - intros [= <-]. unfold panics_handled. simpl. repeat split; try done. lia.
  - destruct (step c st ev) as [st1|] eqn:E; [|done].
    destruct (step_bounded c st ev st1 Hlen Hsh E) as (H1 & H2 & H3).
    intros Hrun.
    assert (Hpre : reading st1 = false ∧ shutdowns st1 = shutdowns st ∧
              (length (sig st) + (if is_recovered ev then 1 else 0)
               ≤ length (sig st1))%nat).
    { destruct (H3 Hr) as [(Ha & Hb & Hc)|(Ha & Hb & Hc & Hd)].
      - repeat split; try done. lia.
      - rewrite Ha. repeat split; try done. lia. }
    destruct Hpre as (Ha & Hb & Hc).
    destruct (IH st1 H1 H2 Ha Hrun) as (I1 & I2 & I3).
    repeat split; [exact I1 | congruence |].
    unfold panics_handled in *. destruct (is_recovered ev) eqn:Hev.
    + rewrite filter_cons_True by exact Hev. simpl. lia.
    + rewrite filter_cons_False by (rewrite Hev; discriminate). lia.
Qed.

End SignalFacts.

(** X25. While the goroutine of [Start] waits for a signal, a
    recovered panic always gets through to the cancel function:
    with room in the channel the closure of RegisterRecovers sends
    SIGTERM and the goroutine takes it; with the channel full the
    goroutine takes what is there and the closure's send then finds
    room.  Either way the context behind [cancel] is done, the
    goroutine has left, and exactly one shutdown has been announced. *)
Theorem recovered_panic_reaches_cancel :
  ∀ (app_ctx p : Context) (id : nat) (w : World) (evs : list signals.event)
    (st : signals.shell) (r : any),
    let c := WithCancelCtx id p in
    signals.run c evs (signals.Start app_ctx w) = Some st →
    signals.reading st = true →
    ∃ st',
      signals.run c
        (match signals.sig st with
         | [] => [signals.recovered r; signals.goroutine_receives]
         | _ => [signals.goroutine_receives; signals.recovered r]
         end) st = Some st' ∧
      Done (signals.world st') c = true ∧
      signals.reading st' = false ∧
      signals.shutdowns st' = 1%nat.
Proof.
  intros app_ctx p id w evs st r c Hrun Hr.
  destruct (Start_bounded app_ctx w) as [B1 B2].
  destruct (run_bounded c evs _ st B1 B2 Hrun) as [Hlen Hsh].
  rewrite Hr in Hsh.
  assert (Hz : signals.shutdowns st = 0%nat) by lia.
  destruct (signals.sig st) as [|s rest] eqn:Hsig.
  - eexists. cbn [signals.run]. unfold signals.step at 1.
    rewrite Hsig. cbn [length Nat.ltb Nat.leb signals.sig_cap].
    unfold signals.step. cbn [signals.reading signals.sig app].
    rewrite Hr. split; [reflexivity|]. cbn [signals.world signals.reading].
    split; [apply Done_cancel_self|]. split; [reflexivity|].
    unfold signals.shutdowns. cbn [signals.logs].
    rewrite !filter_app, !length_app. fold (signals.shutdowns st).
    rewrite Hz. reflexivity.
  - destruct rest as [|s' rest]; [|simpl in Hlen; lia].
    eexists. cbn [signals.run]. unfold signals.step at 1.
    rewrite Hr, Hsig. unfold signals.step.
    cbn [signals.sig length Nat.ltb Nat.leb signals.sig_cap].
    split; [reflexivity|]. cbn [signals.world signals.reading].
    split; [apply Done_cancel_self|]. split; [reflexivity|].
    unfold signals.shutdowns. cbn [signals.logs].
    rewrite !filter_app, !length_app. fold (signals.shutdowns st).
    rewrite Hz. reflexivity.
Qed.

(** A signal from outside is already waiting when the panic is
    recovered. *)
Lemma recovered_panic_reaches_cancel_witness :
  let c := WithCancelCtx 0 Background in
  ∃ st',
    signals.run c
      [signals.os_signal 2; signals.goroutine_receives;
       signals.recovered (mkAny "boom")]
      (signals.Start c (mkWorld ∅ 1)) = Some st' ∧
    Done (signals.world st') c = true ∧
    signals.sig st' = [signals.SIGTERM].
Proof.
  intros c.
  assert (H1 : signals.run c [signals.os_signal 2]
                 (signals.Start c (mkWorld ∅ 1))
               = Some (signals.mkShell [2] true true (mkWorld ∅ 1) []))
    by reflexivity.
  destruct (recovered_panic_reaches_cancel c Background 0 (mkWorld ∅ 1)
              [signals.os_signal 2] _ (mkAny "boom") H1 eq_refl)
    as (st' & Hrun & HD & _).
  exists st'. split; [exact Hrun|]. split; [exact HD|].
  simpl in Hrun. injection Hrun as <-. reflexivity.
Defined.

(** X26. Once the goroutine of [Start] is gone, or if GoRecover never
    let it start because the application context was already done,
    nothing reads the signal channel any more: a first recovered
    panic still puts its SIGTERM into the buffer, and the send of a
    second one can never complete.  No further shutdown is
    announced; under a context already done at Start none ever is. *)
Theorem second_panic_after_shutdown_blocks :
  ∀ (app_ctx c : Context) (w : World) (evs1 evs2 : list signals.event)
    (st st' : signals.shell),
    signals.run c evs1 (signals.Start app_ctx w) = Some st →
    signals.reading st = false →
    signals.run c evs2 st = Some st' →
    (length (signals.sig st) + signals.panics_handled evs2 ≤ 1)%nat ∧
    signals.reading st' = false ∧
    signals.shutdowns st' = signals.shutdowns st ∧
    (Done w app_ctx = true → signals.shutdowns st' = 0%nat).
Proof.
  intros app_ctx c w evs1 evs2 st st' Hrun1 Hr Hrun2.
  destruct (Start_bounded app_ctx w) as [B1 B2].
  destruct (run_bounded c evs1 _ st B1 B2 Hrun1) as [Hlen Hsh].
  destruct (run_after_shutdown c evs2 st st' Hlen Hsh Hr Hrun2)
    as (H1 & H2 & H3).
  destruct (run_bounded c evs2 st st' Hlen Hsh Hrun2) as [Hlen' _].
  split; [lia|]. split; [exact H1|]. split; [exact H2|].
  intros HD. rewrite H2.
  assert (Hr0 : signals.reading (signals.Start app_ctx w) = false).
  { unfold signals.Start, utils.GoRecover. by rewrite HD. }
  destruct (run_after_shutdown c evs1 _ st B1 B2 Hr0 Hrun1) as (_ & -> & _).
  unfold signals.Start, utils.GoRecover. rewrite HD. reflexivity.
Qed.

(** Start under a context that is already done; one panic is
    recovered. *)
Lemma second_panic_after_shutdown_blocks_witness :
  let c := WithCancelCtx 0 Background in
  let w := cancel c (mkWorld ∅ 1) in
  let st := signals.Start c w in
  ∃ st',
    signals.run c [signals.recovered (mkAny "boom")] st = Some st' ∧
    signals.step c st' (signals.recovered (mkAny "again")) = None ∧
    (length (signals.sig st) + 1 ≤ 1)%nat ∧
    signals.shutdowns st' = 0%nat.
Proof.
  intros c w st. eexists. split; [reflexivity|]. split; [reflexivity|].
  destruct (second_panic_after_shutdown_blocks c c w [] 
              [signals.recovered (mkAny "boom")] st _
              eq_refl eq_refl eq_refl) as (Hn & _ & _ & Hz).
  split; [exact Hn | exact (Hz eq_refl)].
Defined.
